(** * sqlite3-schema-manager: a shallow embedding of the reconciliation engine

    The development follows [src/sqlite3-schema-manager.js].  JavaScript
    strings are [string]; arrays are [list]; objects used as mappings are
    association lists in own-key insertion order; the two collaborators
    [select] and [execute] are functions over an abstract world, and every
    call made to them is recorded in the order in which it is made.

    Declared values have the types of the data model: a default is a string
    or [null], [notnull] is a boolean, names and types are strings.  The
    [debug] argument only drives [console.log] and is left out. *)

From Stdlib Require Import String Ascii List Bool Arith ZArith NArith Lia.
From Stdlib Require Import DecimalString Sorted Permutation.
Import ListNotations.

Local Open Scope list_scope.
Local Open Scope string_scope.

(** ** JavaScript string primitives used by the engine *)

Module Js.

(** [s.substring(n)] *)
Fixpoint drop (n : nat) (s : string) : string :=
match n, s with
| O, _ => s
| S _, EmptyString => EmptyString
| S n', String _ s' => drop n' s'
end.

(** [s] begins with [pat] *)
Fixpoint starts_with (pat s : string) : bool :=
match pat, s with
| EmptyString, _ => true
| String a pat', String b s' => Ascii.eqb a b && starts_with pat' s'
| String _ _, EmptyString => false
end.

(** [s.replace(pat, rep)] with a string pattern: only the first occurrence
  of [pat] is replaced. *)
Fixpoint replace (pat rep s : string) : string :=
if starts_with pat s then rep ++ drop (String.length pat) s
else match s with
     | EmptyString => EmptyString
     | String c s' => String c (replace pat rep s')
     end.

(** [s.toLowerCase()] on the ASCII range. *)
Definition lower_ascii (c : ascii) : ascii :=
let n := nat_of_ascii c in
if Nat.leb 65 n && Nat.leb n 90 then ascii_of_nat (n + 32) else c.

Fixpoint toLowerCase (s : string) : string :=
match s with
| EmptyString => EmptyString
| String c s' => String (lower_ascii c) (toLowerCase s')
end.

(** [s.charAt(s.length-1)], when [s] is not empty. *)
Fixpoint last_char (s : string) : option ascii :=
match s with
| EmptyString => None
| String c EmptyString => Some c
| String _ s' => last_char s'
end.

(** [a.join(sep)] *)
Fixpoint join (sep : string) (a : list string) : string :=
match a with
| [] => ""
| [x] => x
| x :: rest => x ++ sep ++ join sep rest
end.

(** [a.push(x)] *)
Definition push {A : Type} (a : list A) (x : A) : list A := app a [x].

(** [String(n)] for an integral number. *)
Definition string_of_Z (z : Z) : string := NilZero.string_of_int (Z.to_int z).

(** The property names of [Object.prototype].  Every object made by a
    literal inherits them: [k in o] holds for them whatever [o] holds, and
    [o[k]] is then a member of [Object.prototype], none of whose own
    attributes ([type], [origin], ...) is defined. *)
Definition prototype_names : list string :=
  [ "constructor"; "hasOwnProperty"; "isPrototypeOf"; "propertyIsEnumerable";
    "toLocaleString"; "toString"; "valueOf"; "__defineGetter__";
    "__defineSetter__"; "__lookupGetter__"; "__lookupSetter__"; "__proto__" ].

Definition inherited (k : string) : bool :=
  existsb (String.eqb k) prototype_names.

End Js.

Definition squote : string := "'".
Definition squote2 : string := "''".

(** ** Values and errors *)

(** A value found in a seed mapping: [null], a string, or any other value
    (a number, a boolean, ...).  The engine does one thing with a value that
    is not [null]: it passes it to [String]; so a value that is not a string
    is carried as the text [String] gives for it ("0" for the number 0,
    "1e+21" for the number 10^21, "true" for [true]). *)
Inductive Value : Type :=
| VNull
| VString (s : string)
| VOther (text : string).

(** [String(v)] *)
Definition String_ (v : Value) : string :=
  match v with
  | VNull => "null"
  | VString s => s
  | VOther text => text
  end.

(** What a call of the engine can throw.  The two argument checks throw
    message strings (here [InvalidDefinition], [InvalidCollaborator]);
    [unquote] throws on a literal without its delimiters
    ([MalformedLiteral]); reading a property through [in] on [null] is a
    run-time [TypeError]; a rejected collaborator call is passed through
    ([CollaboratorFailure]). *)
Inductive Error : Type :=
| InvalidDefinition
| InvalidCollaborator
| TypeError
| MalformedLiteral
| CollaboratorFailure.

Inductive Result (A : Type) : Type :=
| Ok (a : A)
| Throw (e : Error).
Arguments Ok {A} a.
Arguments Throw {A} e.

(** ** Quoting / literal codec (source lines 32-48, 85-88) *)

Definition quote (s : Value) : string :=
  match s with
  | VNull => "NULL"
  | _ => squote ++ Js.replace squote squote2 (String_ s) ++ squote
  end.

(** [unquote] receives [null] or a string. *)
Definition unquote (s : option string) : Result (option string) :=
  match s with
  | None => Ok None
  | Some s =>
      if String.eqb s "" then Ok (Some "")
      else if Nat.ltb (String.length s) 2
              || negb (Js.starts_with squote s)
              || negb (match Js.last_char s with
                       | Some c => Ascii.eqb c "'"%char
                       | None => false
                       end)
      then Throw MalformedLiteral
      else if Nat.eqb (String.length s) 2 then Ok (Some "")
      else Ok (Some (Js.replace squote2 squote
                       (String.substring 1 (String.length s - 2) s)))
  end.

Definition parseDefaultValue (s : option string) : Result (option string) :=
  match s with
  | None => Ok None
  | Some t => if String.eqb (Js.toLowerCase t) "null" then Ok None else unquote s
  end.

(** ** Objects used as mappings

    [old_coldefs_by_name], [new_idxdefs_by_name], the seed mappings: objects
    made by a literal, whose prototype is [Object.prototype].  An object is
    given by its own properties in the order a [for (k in o)] loop visits
    them; assigning to a key that is already present keeps its position.
    The names inherited from the prototype are not enumerable: the loops do
    not visit them, but [in] finds them. *)

Module Obj.
Section Obj.
Context {V : Type}.

Definition t : Type := list (string * V).

(** [k] is an own property of [o] *)
Fixpoint own (k : string) (o : t) : bool :=
match o with
| [] => false
| (k', _) :: rest => if String.eqb k k' then true else own k rest
end.

(** [k in o]: an own property, or a name inherited from
    [Object.prototype] *)
Definition has (k : string) (o : t) : bool := own k o || Js.inherited k.

(** [o[k]] for an own property; [None] when [k] is not an own property:
    the value read is then [undefined] or, for an inherited name, a member
    of [Object.prototype] *)
Fixpoint get (k : string) (o : t) : option V :=
match o with
| [] => None
| (k', v) :: rest => if String.eqb k k' then Some v else get k rest
end.

(** [o[k] = v]: a key that is already present keeps its position, a new
    one comes last.  (Not covered: a key that is an array index, which a
    loop would visit before the others, and the key [__proto__], under
    which an assignment replaces the prototype.) *)
Fixpoint set (k : string) (v : V) (o : t) : t :=
match o with
| [] => [(k, v)]
| (k', v') :: rest =>
    if String.eqb k k' then (k', v) :: rest else (k', v') :: set k v rest
end.

(** the keys a [for (k in o)] loop visits *)
Definition keys (o : t) : list string := map fst o.
End Obj.
Arguments t V : clear implicits.
End Obj.

(** ** Data model (declared side, and the live side mirroring it) *)

Record ColumnDefinition : Type := {
  col_name : string;
  col_type : string;
  col_notnull : bool;
  col_dflt_value : option string   (* [None] is [null] *)
}.

Record IndexDefinition : Type := {
  idx_name : string;
  idx_origin : string;              (* 'c', 'u' or 'pk' *)
  idx_columns : list string
}.

Record Reference : Type := { ref_from : string; ref_to : string }.

Record ForeignKeyDefinition : Type := {
  fk_table : string;
  fk_references : list Reference;
  fk_on_update : option string;     (* [None]: attribute absent *)
  fk_on_delete : option string
}.

Definition Mapping : Type := Obj.t Value.

Record IfExists : Type := {
  identifiers : Mapping;
  other_values : Mapping
}.

(** A table declaration after [getArray]: an absent or non-array attribute
    reads as the empty list. *)
Record TableDefinition : Type := {
  tbl_name : string;
  columns : list ColumnDefinition;
  indexes : list IndexDefinition;
  foreign_keys : list ForeignKeyDefinition;
  insert_on_create : list Mapping;
  insert_if_not_exists : list IfExists;
  update_if_exists : list IfExists;
  delete_if_exists : list Mapping
}.

(** A row returned by [select]: the fields the engine reads, each pragma
    filling its own. *)
Record Row : Type := {
  r_name : string;
  r_type : string;
  r_notnull : Z;
  r_dflt_value : option string;
  r_pk : N;                          (* 0: not in the primary key; else 1-based *)
  r_origin : string;
  r_unique : option Z;               (* [None]: no 'unique' field *)
  r_id : Z;
  r_table : string;
  r_from : string;
  r_to : string;
  r_on_update : string;
  r_on_delete : string;
  r_foreign_keys : Z
}.

Definition nl : string := String (ascii_of_nat 10) "".

(** ** Comparison helpers (source lines 28-30, 50-83) *)

Definition getFKAction (action : option string) : string :=
  match action with
  | Some a => a
  | None => "NO ACTION"
  end.

(** the loop [for (i ...) if (columns1[i] != columns2[i]) return false],
    entered with equal lengths *)
Fixpoint columns_agree (columns1 columns2 : list string) : bool :=
  match columns1, columns2 with
  | c1 :: rest1, c2 :: rest2 =>
      if negb (String.eqb c1 c2) then false else columns_agree rest1 rest2
  | _, _ => true
  end.

Definition doIndexesMatch (idxdef1 idxdef2 : IndexDefinition) : bool :=
  if negb (String.eqb (idx_origin idxdef1) (idx_origin idxdef2)) then false
  else
    let columns1 := idx_columns idxdef1 in
    let columns2 := idx_columns idxdef2 in
    if negb (Nat.eqb (length columns1) (length columns2)) then false
    else columns_agree columns1 columns2.

Fixpoint references_agree (references1 references2 : list Reference) : bool :=
  match references1, references2 with
  | r1 :: rest1, r2 :: rest2 =>
      if negb (String.eqb (ref_from r1) (ref_from r2))
         || negb (String.eqb (ref_to r1) (ref_to r2))
      then false
      else references_agree rest1 rest2
  | _, _ => true
  end.

Definition doForeignKeysMatch (fkdef1 fkdef2 : ForeignKeyDefinition) : bool :=
  if negb (String.eqb (fk_table fkdef1) (fk_table fkdef2))
     || negb (String.eqb (getFKAction (fk_on_update fkdef1))
                         (getFKAction (fk_on_update fkdef2)))
     || negb (String.eqb (getFKAction (fk_on_delete fkdef1))
                         (getFKAction (fk_on_delete fkdef2)))
  then false
  else
    let references1 := fk_references fkdef1 in
    let references2 := fk_references fkdef2 in
    if negb (Nat.eqb (length references1) (length references2)) then false
    else references_agree references1 references2.

(** ** SQL generator (source lines 90-184) *)

Definition columnDefinitionToSQL (coldef : ColumnDefinition) : string :=
  let sql := "" ++ col_name coldef ++ " " ++ col_type coldef
             ++ (if col_notnull coldef then " NOT NULL" else " NULL")
             ++ " DEFAULT " in
  match col_dflt_value coldef with
  | None => sql ++ "NULL"
  | Some d => sql ++ quote (VString d)
  end.

Definition is_c_or_u (origin : string) : bool :=
  String.eqb origin "c" || String.eqb origin "u".

Definition indexDefinitionToSQL (idxdef : IndexDefinition) (tableName : string)
  : string :=
  if is_c_or_u (idx_origin idxdef) then
    "create " ++ (if String.eqb (idx_origin idxdef) "u" then "unique " else "")
    ++ " index " ++ idx_name idxdef ++ " on " ++ tableName
    ++ " (" ++ Js.join ", " (idx_columns idxdef) ++ ")"
  else "".

(** [references.forEach] accumulating [froms], [tos] and [sep] *)
Definition fk_lists_step (acc : string * string * string) (ref : Reference)
  : string * string * string :=
  let '(froms, tos, sep) := acc in
  (froms ++ sep ++ ref_from ref,
   tos ++ sep ++ ref_to ref,
   if String.eqb sep "" then ", " else sep).

Definition foreignKeyDefinitionToSQL (fkdef : ForeignKeyDefinition) : string :=
  let '(froms, tos, _) :=
    fold_left fk_lists_step (fk_references fkdef) ("", "", "") in
  "foreign key (" ++ froms ++ ") references " ++ fk_table fkdef
  ++ "(" ++ tos ++ ")"
  ++ " on update " ++ getFKAction (fk_on_update fkdef)
  ++ " on delete " ++ getFKAction (fk_on_delete fkdef).

Definition next_sep (sep fresh : string) : string :=
  if String.eqb sep "" then fresh else sep.

(** [indexes.forEach] of [getCreateTableSQL]: the last 'pk' entry, and the
    column of the last 'pk' entry that has exactly one column *)
Definition pk_scan_step (acc : option IndexDefinition * option string)
  (idxdef : IndexDefinition) : option IndexDefinition * option string :=
  let '(pk, singlePKColumn) := acc in
  if String.eqb (idx_origin idxdef) "pk" then
    (Some idxdef,
     match idx_columns idxdef with
     | [c] => Some c
     | _ => singlePKColumn
     end)
  else acc.

(** [columns.forEach] of [getCreateTableSQL], state [(sql, sep, pk)] *)
Definition create_column_step (singlePKColumn : option string)
  (acc : string * string * option IndexDefinition) (coldef : ColumnDefinition)
  : string * string * option IndexDefinition :=
  let '(sql, sep, pk) := acc in
  if match singlePKColumn with
     | Some c => String.eqb (col_name coldef) c
                 && String.eqb (col_type coldef) "INTEGER"
     | None => false
     end
  then (sql ++ sep ++ " " ++ col_name coldef ++ " INTEGER PRIMARY KEY",
        next_sep sep ("," ++ nl), None)
  else (sql ++ sep ++ " " ++ columnDefinitionToSQL coldef,
        next_sep sep ("," ++ nl), pk).

Definition create_fk_step (acc : string * string) (fkdef : ForeignKeyDefinition)
  : string * string :=
  let '(sql, sep) := acc in
  (sql ++ sep ++ " " ++ foreignKeyDefinitionToSQL fkdef, next_sep sep ("," ++ nl)).

Definition getCreateTableSQL (tbldef : TableDefinition)
  (tableNameOverride : option string) : string :=
  let tableName := match tableNameOverride with
                   | Some n => n
                   | None => tbl_name tbldef
                   end in
  let '(pk, singlePKColumn) :=
    fold_left pk_scan_step (indexes tbldef) (None, None) in
  let sql := "create table " ++ tableName ++ " (" in
  let '(sql, sep, pk) :=
    fold_left (create_column_step singlePKColumn) (columns tbldef) (sql, "", pk) in
  let '(sql, sep) :=
    match pk with
    | Some pk =>
        (sql ++ sep ++ " primary key (" ++ Js.join ", " (idx_columns pk) ++ ")",
         next_sep sep ("," ++ nl))
    | None => (sql, sep)
    end in
  let '(sql, _) := fold_left create_fk_step (foreign_keys tbldef) (sql, sep) in
  sql ++ nl ++ ")".

Definition getCreateIndexSQLs (tbldef : TableDefinition)
  (tableNameOverride : option string) : list string :=
  let tableName := match tableNameOverride with
                   | Some n => n
                   | None => tbl_name tbldef
                   end in
  fold_left
    (fun isqls idxdef =>
       if is_c_or_u (idx_origin idxdef) then
         let isql := indexDefinitionToSQL idxdef tableName in
         if negb (String.eqb isql "") then Js.push isqls isql else isqls
       else isqls)
    (indexes tbldef) [].

(** ** The differencer's pure steps (inside [updateExistingTable]) *)

Definition option_string_eqb (a b : option string) : bool :=
  match a, b with
  | None, None => true
  | Some x, Some y => String.eqb x y
  | _, _ => false
  end.

(** Lines 224-240: index the live columns by name and collect the columns
    whose pk position is positive, as [(name, idx)] with [idx = pk - 1]. *)
Fixpoint index_old_coldefs (old_coldefs : list Row)
  (old_coldefs_by_name : Obj.t ColumnDefinition)
  (old_pk_cols : list (string * N))
  : Result (Obj.t ColumnDefinition * list (string * N)) :=
  match old_coldefs with
  | [] => Ok (old_coldefs_by_name, old_pk_cols)
  | r :: rest =>
      match parseDefaultValue (r_dflt_value r) with
      | Throw e => Throw e
      | Ok dflt =>
          index_old_coldefs rest
            (Obj.set (r_name r)
               {| col_name := r_name r;
                  col_type := r_type r;
                  col_notnull := negb (Z.eqb (r_notnull r) 0);
                  col_dflt_value := dflt |}
               old_coldefs_by_name)
            (if N.ltb 0 (r_pk r)
             then Js.push old_pk_cols (r_name r, N.sub (r_pk r) 1)
             else old_pk_cols)
      end
  end.

(** Lines 241-245: [Array.prototype.sort] with the comparator on [idx];
    the sort is stable. *)
Fixpoint insert_by_idx (a : string * N) (sorted : list (string * N))
  : list (string * N) :=
  match sorted with
  | [] => [a]
  | b :: rest =>
      if N.leb (snd a) (snd b) then a :: b :: rest
      else b :: insert_by_idx a rest
  end.

Definition sort_by_idx (l : list (string * N)) : list (string * N) :=
  fold_right insert_by_idx [] l.

(** Lines 246-248 *)
Definition old_pk_cols_from_table_info (old_pk_cols : list (string * N))
  : list string :=
  map fst (sort_by_idx old_pk_cols).

(** Lines 250-253 *)
Definition index_new_coldefs (columns : list ColumnDefinition)
  : Obj.t ColumnDefinition :=
  fold_left (fun m coldef => Obj.set (col_name coldef) coldef m) columns [].

(** Lines 255-260 *)
Definition drop_column_sqls (old_coldefs_by_name new_coldefs_by_name
                             : Obj.t ColumnDefinition) : list string :=
  fold_left
    (fun sqls k =>
       if negb (Obj.has k new_coldefs_by_name)
       then Js.push sqls ("drop column " ++ k) else sqls)
    (Obj.keys old_coldefs_by_name) [].

(** Lines 264-275: state [(new_idxdefs_by_name, new_pk)] *)
Definition index_new_step
  (acc : Obj.t IndexDefinition * option IndexDefinition)
  (idxdef : IndexDefinition) : Obj.t IndexDefinition * option IndexDefinition :=
  let '(new_idxdefs_by_name, new_pk) := acc in
  if is_c_or_u (idx_origin idxdef)
  then (Obj.set (idx_name idxdef) idxdef new_idxdefs_by_name, new_pk)
  else if String.eqb (idx_origin idxdef) "pk"
       then (new_idxdefs_by_name, Some idxdef)
       else acc.

Definition index_new_indexes (indexes : list IndexDefinition)
  : Obj.t IndexDefinition * option IndexDefinition :=
  fold_left index_new_step indexes ([], None).

Definition is_pk_col (new_pk : option IndexDefinition) (k : string) : bool :=
  match new_pk with
  | Some pk => existsb (String.eqb k) (idx_columns pk)   (* indexOf(k) >= 0 *)
  | None => false
  end.

Definition is_pk_auto_int_col (new_pk : option IndexDefinition) (k : string)
  (new_coldef : ColumnDefinition) : bool :=
  is_pk_col new_pk k
  && String.eqb (col_type new_coldef) "INTEGER"
  && match new_pk with
     | Some pk => Nat.eqb (length (idx_columns pk)) 1
     | None => false
     end.

(** The condition of lines 291-296 for one common column *)
Definition column_differs (new_pk : option IndexDefinition) (k : string)
  (old_coldef new_coldef : ColumnDefinition) : bool :=
  negb (String.eqb (col_type old_coldef) (col_type new_coldef))
  || (negb (is_pk_col new_pk k)
      && negb (Bool.eqb (col_notnull old_coldef) (col_notnull new_coldef)))
  || (negb (is_pk_auto_int_col new_pk k new_coldef)
      && negb (option_string_eqb (col_dflt_value old_coldef)
                                 (col_dflt_value new_coldef))).

(** Lines 281-303: state
    [(needTableReWrite, old_new_common_colnames, drop_add_col_sqls)] *)
Definition compare_step (old_coldefs_by_name : Obj.t ColumnDefinition)
  (new_pk : option IndexDefinition)
  (acc : bool * list string * list string) (kv : string * ColumnDefinition)
  : bool * list string * list string :=
  let '(needTableReWrite, old_new_common_colnames, drop_add_col_sqls) := acc in
  let '(k, new_coldef) := kv in
  if Obj.has k old_coldefs_by_name then
    (* [old_coldefs_by_name[k]] is the live column; for a name found only
       through the prototype it is a member of [Object.prototype], whose
       [type] is [undefined] and so differs from the declared type *)
    let differs :=
      match Obj.get k old_coldefs_by_name with
      | Some old_coldef => column_differs new_pk k old_coldef new_coldef
      | None => true
      end in
    (if negb needTableReWrite && differs then true else needTableReWrite,
     Js.push old_new_common_colnames k,
     drop_add_col_sqls)
  else
    (needTableReWrite, old_new_common_colnames,
     Js.push drop_add_col_sqls
       ("add column " ++ columnDefinitionToSQL new_coldef)).

Definition compare_columns (old_coldefs_by_name new_coldefs_by_name
                            : Obj.t ColumnDefinition)
  (new_pk : option IndexDefinition) (drop_add_col_sqls : list string)
  : bool * list string * list string :=
  fold_left (compare_step old_coldefs_by_name new_pk) new_coldefs_by_name
    (false, [], drop_add_col_sqls).

(** Lines 309-322: state [(old_idxdefs_by_name, old_pk)] *)
Definition index_old_step
  (acc : Obj.t IndexDefinition * option IndexDefinition) (r : Row)
  : Obj.t IndexDefinition * option IndexDefinition :=
  let '(old_idxdefs_by_name, old_pk) := acc in
  if is_c_or_u (r_origin r) then
    let origin :=
      if String.eqb (r_origin r) "c"
         && match r_unique r with
            | Some u => negb (Z.eqb u 0)
            | None => false
            end
      then "u" else r_origin r in
    (Obj.set (r_name r)
       {| idx_name := r_name r; idx_origin := origin; idx_columns := [] |}
       old_idxdefs_by_name,
     old_pk)
  else if String.eqb (r_origin r) "pk"
       then (old_idxdefs_by_name,
             Some {| idx_name := r_name r; idx_origin := r_origin r;
                     idx_columns := [] |})
       else acc.

Definition index_old_indexes (rows : list Row)
  : Obj.t IndexDefinition * option IndexDefinition :=
  fold_left index_old_step rows ([], None).

(** Lines 345-347 *)
Definition pk_fallback (old_pk : option IndexDefinition)
  (old_pk_cols_from_table_info : list string) : option IndexDefinition :=
  match old_pk with
  | None =>
      if Nat.ltb 0 (length old_pk_cols_from_table_info)
      then Some {| idx_name := ""; idx_origin := "pk";
                   idx_columns := old_pk_cols_from_table_info |}
      else None
  | Some _ => old_pk
  end.

(** The condition of lines 351-352 *)
Definition primary_key_differs (old_pk new_pk : option IndexDefinition) : bool :=
  match old_pk, new_pk with
  | None, None => false
  | Some o, Some n => negb (doIndexesMatch o n)
  | _, _ => true
  end.

(** Lines 362-377.  [fks_by_id] and [old_foreign_keys] hold the same
    objects: one list of [(id, fk)] in order of first appearance stands for
    both, and a later row of a known id extends that entry in place. *)
Fixpoint fk_push_reference (id : Z) (ref : Reference)
  (fks : list (Z * ForeignKeyDefinition)) : list (Z * ForeignKeyDefinition) :=
  match fks with
  | [] => []
  | (id', fk) :: rest =>
      if Z.eqb id id'
      then (id', {| fk_table := fk_table fk;
                    fk_references := Js.push (fk_references fk) ref;
                    fk_on_update := fk_on_update fk;
                    fk_on_delete := fk_on_delete fk |}) :: rest
      else (id', fk) :: fk_push_reference id ref rest
  end.

Definition fk_group_step (fks : list (Z * ForeignKeyDefinition)) (r : Row)
  : list (Z * ForeignKeyDefinition) :=
  let ref := {| ref_from := r_from r; ref_to := r_to r |} in
  if existsb (fun e => Z.eqb (r_id r) (fst e)) fks
  then fk_push_reference (r_id r) ref fks
  else Js.push fks ((r_id r,
                 {| fk_table := r_table r;
                    fk_references := [ref];
                    fk_on_update := Some (r_on_update r);
                    fk_on_delete := Some (r_on_delete r) |})).

Definition group_foreign_keys (rows : list Row) : list ForeignKeyDefinition :=
  map snd (fold_left fk_group_step rows []).

(** Lines 384-399 *)
Definition foreign_keys_differ (old_foreign_keys foreign_keys
                                : list ForeignKeyDefinition) : bool :=
  if negb (Nat.eqb (length old_foreign_keys) (length foreign_keys)) then true
  else
    existsb
      (fun old_fk => negb (existsb (doForeignKeysMatch old_fk) foreign_keys))
      old_foreign_keys.

(** The flag as the three guarded blocks leave it (lines 290-299, 350-355,
    379-400) *)
Definition needTableReWrite_final (after_columns : bool)
  (old_pk new_pk : option IndexDefinition)
  (old_foreign_keys foreign_keys : list ForeignKeyDefinition) : bool :=
  let needTableReWrite := after_columns in
  let needTableReWrite :=
    if negb needTableReWrite
    then (if primary_key_differs old_pk new_pk then true else needTableReWrite)
    else needTableReWrite in
  if negb needTableReWrite
  then (if foreign_keys_differ old_foreign_keys foreign_keys
        then true else needTableReWrite)
  else needTableReWrite.

(** Lines 411-419 *)
Definition rewrite_sqls (tbldef : TableDefinition) (tmptn : string)
  (old_new_common_colnames : list string) : list string :=
  app
   [ getCreateTableSQL tbldef (Some tmptn);
     "insert into " ++ tmptn ++ " (" ++ Js.join "," old_new_common_colnames ++ ")"
       ++ " select " ++ Js.join "," old_new_common_colnames
       ++ " from " ++ tbl_name tbldef;
     "drop table " ++ tbl_name tbldef;
     "alter table " ++ tmptn ++ " rename to " ++ tbl_name tbldef ]
   (getCreateIndexSQLs tbldef (Some tmptn)).

(** Lines 428-432 *)
Definition drop_missing_index_sqls (old_idxdefs_by_name new_idxdefs_by_name
                                    : Obj.t IndexDefinition) : list string :=
  fold_left
    (fun sqls k =>
       if negb (Obj.has k new_idxdefs_by_name)
       then Js.push sqls ("drop index " ++ k) else sqls)
    (Obj.keys old_idxdefs_by_name) [].

(** Lines 434-450: state [(drop_idx_sqls, create_idx_sqls)] *)
Definition index_diff_step (tableName : string)
  (old_idxdefs_by_name : Obj.t IndexDefinition)
  (acc : list string * list string) (kv : string * IndexDefinition)
  : list string * list string :=
  let '(drop_idx_sqls, create_idx_sqls) := acc in
  let '(k, ni) := kv in
  let isql := indexDefinitionToSQL ni tableName in
  if Obj.has k old_idxdefs_by_name then
    (* [old_idxdefs_by_name[k]] is the live index; for a name found only
       through the prototype it is a member of [Object.prototype], whose
       [origin] is [undefined] and so differs from the declared origin *)
    let matches :=
      match Obj.get k old_idxdefs_by_name with
      | Some oi => doIndexesMatch oi ni
      | None => false
      end in
    if negb matches
    then (Js.push drop_idx_sqls ("drop index " ++ k),
          if negb (String.eqb isql "")
          then Js.push create_idx_sqls isql else create_idx_sqls)
    else acc
  else
    (drop_idx_sqls,
     if negb (String.eqb isql "")
     then Js.push create_idx_sqls isql else create_idx_sqls).

Definition index_diff (tableName : string)
  (old_idxdefs_by_name new_idxdefs_by_name : Obj.t IndexDefinition)
  : list string * list string :=
  fold_left (index_diff_step tableName old_idxdefs_by_name) new_idxdefs_by_name
    (drop_missing_index_sqls old_idxdefs_by_name new_idxdefs_by_name, []).

(** ** Seed statements (source lines 204-213, 468-534) *)

Definition insert_on_create_sql (tableName : string) (ioc : Mapping) : string :=
  let '(sql, sqlend, _) :=
    fold_left
      (fun (acc : string * string * string) (kv : string * Value) =>
         let '(sql, sqlend, sep) := acc in
         (sql ++ sep ++ fst kv, sqlend ++ sep ++ quote (snd kv), next_sep sep ", "))
      ioc ("insert into " ++ tableName ++ " (", ") values (", "") in
  sql ++ sqlend ++ ")".

(** state [(sqlpart1, sqlpart2, sqlpart3, sepcomma, sepand)] *)
Definition SeedState : Type := (string * string * string * string * string)%type.

Definition identifier_step (acc : SeedState) (kv : string * Value) : SeedState :=
  let '(sqlpart1, sqlpart2, sqlpart3, sepcomma, sepand) := acc in
  let cn := fst kv in
  let qv := quote (snd kv) in
  (sqlpart1 ++ sepcomma ++ cn,
   sqlpart2 ++ sepcomma ++ qv,
   sqlpart3 ++ sepand ++ cn ++ " = " ++ qv,
   next_sep sepcomma ", ",
   next_sep sepand " and ").

Definition other_value_step (identifiers : Mapping) (acc : SeedState)
  (kv : string * Value) : SeedState :=
  let '(sqlpart1, sqlpart2, sqlpart3, sepcomma, sepand) := acc in
  let cn := fst kv in
  if Obj.has cn identifiers then acc
  else
    let qv := quote (snd kv) in
    (sqlpart1 ++ sepcomma ++ cn,
     sqlpart2 ++ sepcomma ++ qv,
     sqlpart3,
     next_sep sepcomma ", ",
     next_sep sepand " and ").

(** One [insert_if_not_exists] entry: [None] when the callback returns
    before pushing. *)
Definition insert_if_not_exists_sql (tableName : string) (e : IfExists)
  : option string :=
  let sqlpart4 := ")" in
  let st := fold_left identifier_step (identifiers e)
              ("insert into " ++ tableName ++ " (",
               ") select ",
               " where not exists (select 1 from " ++ tableName ++ " where ",
               "", "") in
  let '(_, _, _, sepcomma, _) := st in
  if String.eqb sepcomma "" then None
  else
    let '(sqlpart1, sqlpart2, sqlpart3, _, _) :=
      fold_left (other_value_step (identifiers e)) (other_values e) st in
    Some (sqlpart1 ++ sqlpart2 ++ sqlpart3 ++ sqlpart4).

Definition assign_step (link : string) (acc : string * string)
  (kv : string * Value) : string * string :=
  let '(sql, sep) := acc in
  (sql ++ sep ++ fst kv ++ " = " ++ quote (snd kv), next_sep sep link).

Definition update_if_exists_sql (tableName : string) (e : IfExists)
  : option string :=
  let '(sql, sep) :=
    fold_left (assign_step ", ") (other_values e)
      ("update " ++ tableName ++ " set ", "") in
  if String.eqb sep "" then None
  else
    let '(sql, sep) :=
      fold_left (assign_step " and ") (identifiers e) (sql ++ " where ", "") in
    if String.eqb sep "" then None else Some sql.

Definition delete_if_exists_sql (tableName : string) (d : Mapping)
  : option string :=
  let '(sql, sep) :=
    fold_left (assign_step " and ") d
      ("delete from " ++ tableName ++ " where ", "") in
  if String.eqb sep "" then None else Some sql.

(** [forEach] pushing the statement of every entry that yields one *)
Definition collect {A : Type} (f : A -> option string) (entries : list A)
  : list string :=
  fold_left
    (fun sqls e => match f e with
                   | Some sql => Js.push sqls sql
                   | None => sqls
                   end)
    entries [].

(** ** The engine: collaborators, effects and the orchestrator *)

(** One call made to a collaborator. *)
Inductive Event : Type :=
| Selected (sql : string)
| Executed (sql : string).

(** The argument [tbldef] as JavaScript passes it: any value.  An object
    (a record or an array) is read through [getArray] and gives a
    [TableDefinition]. *)
Inductive Declaration : Type :=
| DUndefined
| DNull
| DBoolean (b : bool)
| DNumber (z : Z)
| DString (s : string)
| DFunction
| DObject (t : TableDefinition).

(** [typeof(tbldef) == 'object'] *)
Definition typeof_is_object (d : Declaration) : bool :=
  match d with
  | DNull | DObject _ => true
  | _ => false
  end.

Definition fk_flag_sql : string := "pragma foreign_keys".
Definition fk_off_sql : string := "pragma foreign_keys = 0".
Definition fk_on_sql : string := "pragma foreign_keys = 1".

Section Engine.

(** The database behind the collaborators, and the wall clock; a
    collaborator that is [None] is a value that is not a function, and a
    call answering [None] is a rejected call. *)
Variable W : Type.
Variable select : option (string -> W -> option (list Row) * W).
Variable execute : option (string -> W -> option unit * W).
Variable now : W -> Z.

(** A computation: its result, the collaborator calls it made, in
    order, and the world it leaves. *)
Definition M (A : Type) : Type := W -> Result A * list Event * W.

Definition ret {A : Type} (a : A) : M A := fun w => (Ok a, [], w).

Definition throw {A : Type} (e : Error) : M A := fun w => (Throw e, [], w).

Definition bind {A B : Type} (m : M A) (k : A -> M B) : M B :=
  fun w =>
    match m w with
    | (Ok a, t1, w1) =>
        let '(r, t2, w2) := k a w1 in (r, app t1 t2, w2)
    | (Throw e, t1, w1) => (Throw e, t1, w1)
    end.

Definition lift {A : Type} (r : Result A) : M A :=
  match r with
  | Ok a => ret a
  | Throw e => throw e
  end.

Notation "x <- m ;; k" := (bind m (fun x => k))
  (at level 61, m at next level, right associativity).
Notation "m ;;; k" := (bind m (fun _ => k))
  (at level 61, right associativity).

(** [await select(sql)] *)
Definition call_select (sql : string) : M (list Row) :=
  fun w =>
    match select with
    | None => (Throw TypeError, [], w)
    | Some f =>
        match f sql w with
        | (Some rows, w') => (Ok rows, [Selected sql], w')
        | (None, w') => (Throw CollaboratorFailure, [Selected sql], w')
        end
    end.

(** [await execute(sql)] *)
Definition call_execute (sql : string) : M unit :=
  fun w =>
    match execute with
    | None => (Throw TypeError, [], w)
    | Some f =>
        match f sql w with
        | (Some _, w') => (Ok tt, [Executed sql], w')
        | (None, w') => (Throw CollaboratorFailure, [Executed sql], w')
        end
    end.

(** [new Date().getTime()] *)
Definition getTime : M Z := fun w => (Ok (now w), [], w).

(** Lines 190-196.  The loop header increments [cmdi] and so does the
    subscript [cmdlist[cmdi++]]: after the statement at [cmdi] the loop
    resumes at [cmdi + 2]. *)
Fixpoint executeSQLCommands (cmdlist : list string) : M unit :=
  match cmdlist with
  | [] => ret tt
  | sql :: after =>
      call_execute sql ;;;
      match after with
      | [] => ret tt
      | _ :: rest => executeSQLCommands rest
      end
  end.

Section Table.
Variable tbldef : TableDefinition.

(** Lines 465-536 *)
Definition handleDataTransformations : M unit :=
  executeSQLCommands
    (collect (insert_if_not_exists_sql (tbl_name tbldef))
       (insert_if_not_exists tbldef)) ;;;
  executeSQLCommands
    (collect (update_if_exists_sql (tbl_name tbldef))
       (update_if_exists tbldef)) ;;;
  executeSQLCommands
    (collect (delete_if_exists_sql (tbl_name tbldef))
       (delete_if_exists tbldef)).

(** Lines 200-216 *)
Definition createMissingTable : M unit :=
  executeSQLCommands [getCreateTableSQL tbldef None] ;;;
  executeSQLCommands (getCreateIndexSQLs tbldef None) ;;;
  executeSQLCommands
    (map (insert_on_create_sql (tbl_name tbldef)) (insert_on_create tbldef)) ;;;
  handleDataTransformations.

(** Lines 324-332: the rows' names are pushed onto [idxdef.columns] *)
Definition queryIndexColumns (idxdef : IndexDefinition) : M IndexDefinition :=
  rows <- call_select
            ("pragma index_info(" ++ quote (VString (idx_name idxdef)) ++ ")") ;;
  ret {| idx_name := idx_name idxdef;
         idx_origin := idx_origin idxdef;
         idx_columns := app (idx_columns idxdef) (map r_name rows) |}.

(** Lines 334-336 *)
Fixpoint queryAllIndexColumns (old_idxdefs_by_name : Obj.t IndexDefinition)
  : M (Obj.t IndexDefinition) :=
  match old_idxdefs_by_name with
  | [] => ret []
  | (k, idxdef) :: rest =>
      idxdef' <- queryIndexColumns idxdef ;;
      rest' <- queryAllIndexColumns rest ;;
      ret ((k, idxdef') :: rest')
  end.

(** Lines 219-463 *)
Definition updateExistingTable (old_coldefs : list Row) : M unit :=
  indexed <- lift (index_old_coldefs old_coldefs [] []) ;;
  let old_coldefs_by_name := fst indexed in
  let old_pk_cols := old_pk_cols_from_table_info (snd indexed) in
  let new_coldefs_by_name := index_new_coldefs (columns tbldef) in
  let drop_add_col_sqls :=
    drop_column_sqls old_coldefs_by_name new_coldefs_by_name in
  let '(new_idxdefs_by_name, new_pk) := index_new_indexes (indexes tbldef) in
  let '(needTableReWrite, old_new_common_colnames, drop_add_col_sqls) :=
    compare_columns old_coldefs_by_name new_coldefs_by_name new_pk
      drop_add_col_sqls in
  rows <- call_select
            ("pragma index_list(" ++ quote (VString (tbl_name tbldef)) ++ ")") ;;
  let '(old_idxdefs_by_name, old_pk) := index_old_indexes rows in
  old_idxdefs_by_name <- queryAllIndexColumns old_idxdefs_by_name ;;
  old_pk <- match old_pk with
            | Some pk => pk' <- queryIndexColumns pk ;; ret (Some pk')
            | None => ret None
            end ;;
  let old_pk := pk_fallback old_pk old_pk_cols in
  rows <- call_select
            ("pragma foreign_key_list("
             ++ quote (VString (tbl_name tbldef)) ++ ")") ;;
  let old_foreign_keys := group_foreign_keys rows in
  let needTableReWrite :=
    needTableReWrite_final needTableReWrite old_pk new_pk
      old_foreign_keys (foreign_keys tbldef) in
  create_idx_sqls <-
    (if needTableReWrite then
       t <- getTime ;;
       let tmptn := tbl_name tbldef ++ "_new_" ++ Js.string_of_Z t in
       executeSQLCommands (rewrite_sqls tbldef tmptn old_new_common_colnames) ;;;
       ret []
     else
       let '(drop_idx_sqls, create_idx_sqls) :=
         index_diff (tbl_name tbldef) old_idxdefs_by_name
           new_idxdefs_by_name in
       executeSQLCommands drop_idx_sqls ;;;
       (if Nat.ltb 0 (length drop_add_col_sqls)
        then call_execute ("alter table " ++ tbl_name tbldef ++ " "
                           ++ Js.join ", " drop_add_col_sqls)
        else ret tt) ;;;
       ret create_idx_sqls) ;;
  executeSQLCommands create_idx_sqls ;;;
  handleDataTransformations.

End Table.

Definition is_function {A : Type} (f : option A) : bool :=
  match f with
  | Some _ => true
  | None => false
  end.

(** Lines 15-18, 186-188, 538-565.  [getArray(tbldef, 'columns')] at
    line 186 applies [in] to [tbldef]: on [null] that is a [TypeError]. *)
Definition updateSchemaForSingleTable (tbldef : Declaration) : M unit :=
  if negb (typeof_is_object tbldef) then throw InvalidDefinition
  else if negb (is_function select) || negb (is_function execute)
  then throw InvalidCollaborator
  else
    match tbldef with
    | DObject tbldef =>
        rows <- call_select fk_flag_sql ;;
        disabledForeignKeys <-
          match rows with
          | r :: _ =>
              if negb (Z.eqb (r_foreign_keys r) 0)
              then executeSQLCommands [fk_off_sql] ;;; ret true
              else ret false
          | [] => ret false
          end ;;
        rows <- call_select
                  ("pragma table_info("
                   ++ quote (VString (tbl_name tbldef)) ++ ")") ;;
        (match rows with
         | [] => createMissingTable tbldef
         | _ :: _ => updateExistingTable tbldef rows
         end) ;;;
        if (disabledForeignKeys : bool)
        then executeSQLCommands [fk_on_sql]
        else ret tt
    | _ => throw TypeError
    end.

(** Lines 568-579: [tbldefs] is [None] when it is not an array. *)
Fixpoint forEachTable (tbldefs : list Declaration) : M unit :=
  match tbldefs with
  | [] => ret tt
  | tbldef :: rest => updateSchemaForSingleTable tbldef ;;; forEachTable rest
  end.

Definition updateSchemasForAllTables (tbldefs : option (list Declaration))
  : M unit :=
  match tbldefs with
  | None => throw InvalidDefinition
  | Some tbldefs =>
      if negb (is_function select) || negb (is_function execute)
      then throw InvalidCollaborator
      else forEachTable tbldefs
  end.

End Engine.

Arguments ret {W A} a.
Arguments throw {W A} e.
Arguments bind {W A B} m k.
Arguments lift {W A} r.

(** ** Reading the outcome of a computation *)

Definition result_of {W A : Type} (o : Result A * list Event * W) : Result A :=
  fst (fst o).

Definition events_of {W A : Type} (o : Result A * list Event * W) : list Event :=
  snd (fst o).

(** The statements handed to [execute], in order. *)
Fixpoint executed (t : list Event) : list string :=
  match t with
  | [] => []
  | Executed sql :: rest => sql :: executed rest
  | Selected _ :: rest => executed rest
  end.

(** The elements at even positions 0, 2, 4, ... *)
Fixpoint every_other {A : Type} (l : list A) : list A :=
  match l with
  | [] => []
  | x :: after =>
      x :: match after with
           | [] => []
           | _ :: rest => every_other rest
           end
  end.

(** [sat m P E Q]: in every world, each call [m] makes satisfies [P], a
    value it returns satisfies [Q], and an error it throws satisfies [E]. *)
Definition sat {W A : Type} (m : M W A) (P : Event -> Prop)
  (E : Error -> Prop) (Q : A -> Prop) : Prop :=
  forall w,
    Forall P (events_of (m w))
    /\ match result_of (m w) with
       | Ok a => Q a
       | Throw e => E e
       end.

(** ** Rows as the pragmas report them *)

Module Pragma.

Definition blank : Row :=
  {| r_name := ""; r_type := ""; r_notnull := 0; r_dflt_value := None;
     r_pk := 0; r_origin := ""; r_unique := None; r_id := 0; r_table := "";
     r_from := ""; r_to := ""; r_on_update := ""; r_on_delete := "";
     r_foreign_keys := 0 |}.

Definition flag_row (on : Z) : Row :=
  {| r_name := ""; r_type := ""; r_notnull := 0; r_dflt_value := None;
     r_pk := 0; r_origin := ""; r_unique := None; r_id := 0; r_table := "";
     r_from := ""; r_to := ""; r_on_update := ""; r_on_delete := "";
     r_foreign_keys := on |}.

Definition column_row (name type : string) (notnull : Z)
  (dflt : option string) (pk : N) : Row :=
  {| r_name := name; r_type := type; r_notnull := notnull;
     r_dflt_value := dflt; r_pk := pk; r_origin := ""; r_unique := None;
     r_id := 0; r_table := ""; r_from := ""; r_to := ""; r_on_update := "";
     r_on_delete := ""; r_foreign_keys := 0 |}.

Definition index_row (name origin : string) (unique : Z) : Row :=
  {| r_name := name; r_type := ""; r_notnull := 0; r_dflt_value := None;
     r_pk := 0; r_origin := origin; r_unique := Some unique; r_id := 0;
     r_table := ""; r_from := ""; r_to := ""; r_on_update := "";
     r_on_delete := ""; r_foreign_keys := 0 |}.

Definition name_row (name : string) : Row := column_row name "" 0 None 0.

Definition fk_row (id : Z) (table from to on_update on_delete : string) : Row :=
  {| r_name := ""; r_type := ""; r_notnull := 0; r_dflt_value := None;
     r_pk := 0; r_origin := ""; r_unique := None; r_id := id;
     r_table := table; r_from := from; r_to := to;
     r_on_update := on_update; r_on_delete := on_delete;
     r_foreign_keys := 0 |}.

End Pragma.

(** ** Readings of the generated text, for stating the properties *)

(** [items], each preceded by [link] *)
Fixpoint seplist (link : string) (items : list string) : string :=
  match items with
  | [] => ""
  | x :: rest => link ++ x ++ seplist link rest
  end.

(** The columns of the INSERT of an [insert_if_not_exists] entry, with the
    values they carry: the identifiers, then the other values whose name
    [in] does not find in the identifiers, that is, which is neither an
    identifier nor a name of [Object.prototype]. *)
Definition insert_columns (e : IfExists) : list (string * Value) :=
  app (identifiers e)
      (filter (fun kv => negb (Obj.has (fst kv) (identifiers e)))
              (other_values e)).

Definition quoted (kv : string * Value) : string := quote (snd kv).

Definition condition (kv : string * Value) : string :=
  fst kv ++ " = " ++ quote (snd kv).



(** [k] is the sole column of the declared primary key and is declared
    with type INTEGER. *)
Definition sole_integer_primary_key (new_pk : option IndexDefinition)
  (k : string) (new_coldef : ColumnDefinition) : Prop :=
  exists pk, new_pk = Some pk /\ idx_columns pk = [k]
             /\ col_type new_coldef = "INTEGER".



(** Two foreign keys agree on target table, actions and ordered reference
    pairs. *)
Definition fk_same (a b : ForeignKeyDefinition) : Prop :=
  fk_table a = fk_table b
  /\ getFKAction (fk_on_update a) = getFKAction (fk_on_update b)
  /\ getFKAction (fk_on_delete a) = getFKAction (fk_on_delete b)
  /\ fk_references a = fk_references b.


(** The column-info rows ordered by their pk position, stably. *)
Fixpoint insert_row_by_pk (a : Row) (sorted : list Row) : list Row :=
  match sorted with
  | [] => [a]
  | b :: rest =>
      if N.leb (r_pk a) (r_pk b) then a :: b :: rest
      else b :: insert_row_by_pk a rest
  end.

Definition rows_by_pk (rows : list Row) : list Row :=
  fold_right insert_row_by_pk [] rows.

(** The entry pushed for a row with a positive pk position. *)
Definition pk_entry (r : Row) : string * N := (r_name r, N.sub (r_pk r) 1).

(** The live column built from a column-info row and its parsed default. *)
Definition live_column (r : Row) (dflt : option string) : ColumnDefinition :=
  {| col_name := r_name r;
     col_type := r_type r;
     col_notnull := negb (Z.eqb (r_notnull r) 0);
     col_dflt_value := dflt |}.

(** The entry built from an index-list row of origin 'c' or 'u'. *)
Definition listed_index (r : Row) : IndexDefinition :=
  {| idx_name := r_name r;
     idx_origin :=
       if String.eqb (r_origin r) "c"
          && match r_unique r with
             | Some u => negb (Z.eqb u 0)
             | None => false
             end
       then "u" else r_origin r;
     idx_columns := [] |}.

(** The entry built from an index-list row of origin 'pk'. *)
Definition listed_pk (r : Row) : IndexDefinition :=
  {| idx_name := r_name r; idx_origin := r_origin r; idx_columns := [] |}.

(** An entry after [queryIndexColumns] pushed [cols] onto its columns. *)
Definition with_columns (d : IndexDefinition) (cols : list string)
  : IndexDefinition :=
  {| idx_name := idx_name d;
     idx_origin := idx_origin d;
     idx_columns := app (idx_columns d) cols |}.

(** An entry after its columns were queried, given what the per-index
    query answers; and the same for every listed index. *)
Definition fill (info : string -> list Row) (d : IndexDefinition)
  : IndexDefinition :=
  with_columns d (map r_name (info (idx_name d))).

Definition queried (info : string -> list Row) (old : Obj.t IndexDefinition)
  : Obj.t IndexDefinition :=
  map (fun kv => (fst kv, fill info (snd kv))) old.

(** The columns [l] with their 0-based positions counted from [i]. *)
Fixpoint number (i : N) (l : list string) : list (string * N) :=
  match l with
  | [] => []
  | x :: rest => (x, i) :: number (N.succ i) rest
  end.

(** The live foreign key assembled from the rows of [fk], holding the
    reference pairs [refs]. *)
Definition live_fk (fk : ForeignKeyDefinition) (refs : list Reference)
  : ForeignKeyDefinition :=
  {| fk_table := fk_table fk;
     fk_references := refs;
     fk_on_update := Some (getFKAction (fk_on_update fk));
     fk_on_delete := Some (getFKAction (fk_on_delete fk)) |}.

(** The rows that report a nonzero pk position. *)
Definition pk_rows (table_info : list Row) : list Row :=
  filter (fun r => negb (N.eqb (r_pk r) 0)) table_info.

(** The first character of a statement. *)
Definition head (s : string) : option ascii :=
  match s with
  | EmptyString => None
  | String c _ => Some c
  end.

(** A statement that is not a pragma: it is empty or does not begin with
    the letter p. *)
Definition plain (sql : string) : Prop :=
  match head sql with
  | Some c => c <> "p"%char
  | None => True
  end.

(** A call that is not the execution of a pragma. *)
Definition no_pragma_executed (ev : Event) : Prop :=
  match ev with
  | Executed sql => plain sql
  | Selected _ => True
  end.

(** ** A live catalog that reflects a declaration *)

(** The declaration as the engine reads it: columns and plain or unique
    indexes by name, and the primary key. *)
Definition declared_columns (t : TableDefinition) : Obj.t ColumnDefinition :=
  index_new_coldefs (columns t).

Definition declared_indexes (t : TableDefinition) : Obj.t IndexDefinition :=
  fst (index_new_indexes (indexes t)).

Definition declared_pk (t : TableDefinition) : option IndexDefinition :=
  snd (index_new_indexes (indexes t)).

Definition pk_columns (t : TableDefinition) : list string :=
  match declared_pk t with
  | Some pk => idx_columns pk
  | None => []
  end.

(** The 1-based position of [k] in [l]; 0 when [k] is not in [l]. *)
Fixpoint ordinal (k : string) (l : list string) : N :=
  match l with
  | [] => 0%N
  | x :: rest =>
      if String.eqb k x then 1%N
      else match ordinal k rest with
           | 0%N => 0%N
           | n => N.succ n
           end
  end.

(** The default the database reports for a column created with the
    declared default [d]: the literal the generator wrote. *)
Definition stored_default (d : option string) (text : option string) : Prop :=
  match d with
  | None => text = None \/ text = Some "NULL"
  | Some v => text = Some (quote (VString v))
  end.

(** A column-info row describes the declared column [c] of [t].  The
    column rendered as INTEGER PRIMARY KEY carries no declared notnull or
    default. *)
Record ColumnReflects (t : TableDefinition) (r : Row) (c : ColumnDefinition)
  : Prop := {
  cr_type : r_type r = col_type c;
  cr_pk : r_pk r = ordinal (r_name r) (pk_columns t);
  cr_declared :
    ~ sole_integer_primary_key (declared_pk t) (r_name r) c ->
    negb (Z.eqb (r_notnull r) 0) = col_notnull c
    /\ stored_default (col_dflt_value c) (r_dflt_value r);
  cr_rowid :
    sole_integer_primary_key (declared_pk t) (r_name r) c ->
    r_dflt_value r = None
}.

(** An index-list row whose index has columns [cols] describes the
    declared index [d]: an index made by CREATE UNIQUE INDEX is listed with
    origin 'c' and a nonzero unique flag. *)
Definition IndexReflects (r : Row) (cols : list string) (d : IndexDefinition)
  : Prop :=
  cols = idx_columns d
  /\ ((idx_origin d = "u"
       /\ (r_origin r = "u"
           \/ (r_origin r = "c"
               /\ exists u, r_unique r = Some u /\ u <> 0%Z)))
      \/ (idx_origin d = "c" /\ r_origin r = "c"
          /\ (r_unique r = None \/ r_unique r = Some 0%Z))).

(** The foreign-key-list rows of one foreign key: one row per reference
    pair, all carrying its id. *)
Definition fk_rows (id : Z) (fk : ForeignKeyDefinition) : list Row :=
  map (fun ref => Pragma.fk_row id (fk_table fk) (ref_from ref) (ref_to ref)
                    (getFKAction (fk_on_update fk))
                    (getFKAction (fk_on_delete fk)))
      (fk_references fk).

(** What the four introspection pragmas answer. *)
Record Catalog : Type := {
  table_info : list Row;
  index_list : list Row;
  index_info : string -> list Row;
  foreign_key_list : list Row
}.

Record Reflects (t : TableDefinition) (c : Catalog) : Prop := {
  rf_names : NoDup (map r_name (table_info c));
  rf_columns :
    forall r, In r (table_info c) ->
      exists col, Obj.get (r_name r) (declared_columns t) = Some col
                  /\ ColumnReflects t r col;
  rf_all_columns :
    forall k col, Obj.get k (declared_columns t) = Some col ->
      exists r, In r (table_info c) /\ r_name r = k;
  rf_indexes :
    forall r, In r (index_list c) -> is_c_or_u (r_origin r) = true ->
      exists d, Obj.get (r_name r) (declared_indexes t) = Some d
                /\ IndexReflects r (map r_name (index_info c (r_name r))) d;
  rf_all_indexes :
    forall k d, Obj.get k (declared_indexes t) = Some d ->
      exists r, In r (index_list c) /\ is_c_or_u (r_origin r) = true
                /\ r_name r = k;
  rf_pk :
    forall r, In r (index_list c) -> r_origin r = "pk" ->
      exists pk, declared_pk t = Some pk
                 /\ map r_name (index_info c (r_name r)) = idx_columns pk;
  rf_fks :
    exists keyed : list (Z * ForeignKeyDefinition),
      NoDup (map fst keyed)
      /\ Permutation (map snd keyed) (foreign_keys t)
      /\ foreign_key_list c
         = flat_map (fun e => fk_rows (fst e) (snd e)) keyed
}.

(** A declaration the dialect accepts: some column; a primary key, if
    any, over distinct declared columns and not empty; every foreign key
    with a reference pair.  No column or index is named [__proto__]:
    assigning under that name replaces the prototype of the by-name object
    instead of adding a property to it. *)
Record WellFormed (t : TableDefinition) : Prop := {
  wf_names :
    forall name,
      In name (app (map col_name (columns t)) (map idx_name (indexes t))) ->
      name <> "__proto__";
  wf_columns : columns t <> [];
  wf_pk_nonempty : forall pk, declared_pk t = Some pk -> idx_columns pk <> [];
  wf_pk_nodup : NoDup (pk_columns t);
  wf_pk_declared :
    forall k, In k (pk_columns t) -> Obj.own k (declared_columns t) = true;
  wf_fk_references :
    forall fk, In fk (foreign_keys t) -> fk_references fk <> []
}.

(** The [select] collaborator answers the introspection pragmas of table
    [t] from the catalog [c], in every world. *)
Record Answers {W : Type} (sel : string -> W -> option (list Row) * W)
  (t : TableDefinition) (c : Catalog) : Prop := {
  an_table_info :
    forall w, fst (sel ("pragma table_info("
                        ++ quote (VString (tbl_name t)) ++ ")") w)
              = Some (table_info c);
  an_index_list :
    forall w, fst (sel ("pragma index_list("
                        ++ quote (VString (tbl_name t)) ++ ")") w)
              = Some (index_list c);
  an_index_info :
    forall n w, fst (sel ("pragma index_info("
                          ++ quote (VString n) ++ ")") w)
                = Some (index_info c n);
  an_foreign_key_list :
    forall w, fst (sel ("pragma foreign_key_list("
                        ++ quote (VString (tbl_name t)) ++ ")") w)
              = Some (foreign_key_list c)
}.

(** The statements of the three conditional seed directives. *)
Definition seed_statements (t : TableDefinition) : list string :=
  app (collect (insert_if_not_exists_sql (tbl_name t)) (insert_if_not_exists t))
      (app (collect (update_if_exists_sql (tbl_name t)) (update_if_exists t))
           (collect (delete_if_exists_sql (tbl_name t)) (delete_if_exists t))).

(** A call allowed on a run against a catalog that reflects the
    declaration: a query, the enforcement toggles, or a seed statement. *)
Definition settled_call (t : TableDefinition) (ev : Event) : Prop :=
  match ev with
  | Selected _ => True
  | Executed sql =>
      sql = fk_off_sql \/ sql = fk_on_sql \/ In sql (seed_statements t)
  end.

Definition collaborator_failure (e : Error) : Prop := e = CollaboratorFailure.

Definition any_error (e : Error) : Prop := True.
Definition any_value {A : Type} (a : A) : Prop := True.

(** ** A scripted database for concrete runs *)

Module Mock.
Import Pragma.

(** The world is the clock reading; the catalog is a fixed script from
    query text to rows, and a query not in the script has no rows. *)
Definition World : Type := Z.

Fixpoint answer (script : list (string * list Row)) (sql : string) : list Row :=
  match script with
  | [] => []
  | (q, rows) :: rest => if String.eqb sql q then rows else answer rest sql
  end.

Definition query (script : list (string * list Row))
  : string -> World -> option (list Row) * World :=
  fun sql w => (Some (answer script sql), w).

Definition select (script : list (string * list Row))
  : option (string -> World -> option (list Row) * World) :=
  Some (query script).

(** [execute] rejects exactly the statements [rejects] names. *)
Definition run (rejects : string -> bool)
  : string -> World -> option unit * World :=
  fun sql w => (if rejects sql then None else Some tt, w).

Definition execute (rejects : string -> bool)
  : option (string -> World -> option unit * World) :=
  Some (run rejects).

Definition accept_all (sql : string) : bool := false.


(** The catalog a script describes for one table. *)
Definition catalog (script : list (string * list Row)) (tableName : string)
  : Catalog :=
  {| table_info :=
       answer script ("pragma table_info(" ++ quote (VString tableName) ++ ")");
     index_list :=
       answer script ("pragma index_list(" ++ quote (VString tableName) ++ ")");
     index_info :=
       fun n => answer script ("pragma index_info(" ++ quote (VString n) ++ ")");
     foreign_key_list :=
       answer script ("pragma foreign_key_list("
                      ++ quote (VString tableName) ++ ")") |}.

Definition now (w : World) : Z := w.

(** A table with two plain indexes. *)
Definition item : TableDefinition :=
  {| tbl_name := "item";
     columns := [ {| col_name := "id"; col_type := "INTEGER";
                     col_notnull := true; col_dflt_value := Some "0" |};
                  {| col_name := "label"; col_type := "TEXT";
                     col_notnull := true; col_dflt_value := Some "" |};
                  {| col_name := "qty"; col_type := "INTEGER";
                     col_notnull := true; col_dflt_value := Some "0" |} ];
     indexes := [ {| idx_name := ""; idx_origin := "pk"; idx_columns := ["id"] |};
                  {| idx_name := "item_label"; idx_origin := "c";
                     idx_columns := ["label"] |};
                  {| idx_name := "item_qty"; idx_origin := "c";
                     idx_columns := ["qty"] |} ];
     foreign_keys := [];
     insert_on_create := [];
     insert_if_not_exists := [];
     update_if_exists := [];
     delete_if_exists := [] |}.

(** Live columns of [item] with [label] still [VARCHAR]. *)
Definition stale_columns : Obj.t ColumnDefinition :=
  [ ("id", {| col_name := "id"; col_type := "INTEGER";
              col_notnull := false; col_dflt_value := None |});
    ("label", {| col_name := "label"; col_type := "VARCHAR";
                 col_notnull := true; col_dflt_value := Some "" |});
    ("qty", {| col_name := "qty"; col_type := "INTEGER";
               col_notnull := true; col_dflt_value := Some "0" |}) ].

(** Live columns of [item] as declared, but without [qty] and with a
    column [legacy] that is no longer declared. *)
Definition shifted_columns : Obj.t ColumnDefinition :=
  [ ("id", {| col_name := "id"; col_type := "INTEGER";
              col_notnull := true; col_dflt_value := Some "0" |});
    ("legacy", {| col_name := "legacy"; col_type := "BLOB";
                  col_notnull := false; col_dflt_value := None |});
    ("label", {| col_name := "label"; col_type := "TEXT";
                 col_notnull := true; col_dflt_value := Some "" |}) ].

Definition pk_on_id : option IndexDefinition :=
  Some {| idx_name := "sqlite_autoindex_item_1"; idx_origin := "pk";
          idx_columns := ["id"] |}.

Definition fk_to_family : ForeignKeyDefinition :=
  {| fk_table := "family";
     fk_references := [ {| ref_from := "family_id"; ref_to := "id" |} ];
     fk_on_update := Some "RESTRICT";
     fk_on_delete := Some "RESTRICT" |}.

(** Column-info rows of a table whose primary key is [(b, a)]. *)
Definition keyed_rows : list Row :=
  [ column_row "a" "TEXT" 1 None 2;
    column_row "note" "TEXT" 0 None 0;
    column_row "b" "TEXT" 1 None 1 ].

(** A seed entry naming [code] on both sides, and with another value
    under a name of [Object.prototype]. *)
Definition seed : IfExists :=
  {| identifiers := [("code", VString "A1")];
     other_values := [("code", VString "zz"); ("constructor", VString "x");
                      ("label", VString "first")] |}.

(** An empty database with foreign-key enforcement on. *)
Definition empty_db : list (string * list Row) :=
  [ ("pragma foreign_keys", [flag_row 1]) ].

(** A database where [item] exists with [label] declared [VARCHAR]. *)
Definition stale_db : list (string * list Row) :=
  [ ("pragma foreign_keys", [flag_row 0]);
    ("pragma table_info('item')",
     [ column_row "id" "INTEGER" 0 None 1;
       column_row "label" "VARCHAR" 1 (Some "''") 0;
       column_row "qty" "INTEGER" 1 (Some "'0'") 0 ]);
    ("pragma index_list('item')",
     [ index_row "item_label" "c" 0; index_row "item_qty" "c" 0 ]);
    ("pragma index_info('item_label')", [name_row "label"]);
    ("pragma index_info('item_qty')", [name_row "qty"]) ].

(** A database where [item] exists exactly as declared. *)
Definition current_db : list (string * list Row) :=
  [ ("pragma foreign_keys", [flag_row 1]);
    ("pragma table_info('item')",
     [ column_row "id" "INTEGER" 0 None 1;
       column_row "label" "TEXT" 1 (Some "''") 0;
       column_row "qty" "INTEGER" 1 (Some "'0'") 0 ]);
    ("pragma index_list('item')",
     [ index_row "item_qty" "c" 0; index_row "item_label" "c" 0 ]);
    ("pragma index_info('item_label')", [name_row "label"]);
    ("pragma index_info('item_qty')", [name_row "qty"]) ].

(** A table with a two-column primary key, a unique index, a
    two-column foreign key and seed directives. *)
Definition stock : TableDefinition :=
  {| tbl_name := "stock";
     columns := [ {| col_name := "warehouse"; col_type := "TEXT";
                     col_notnull := true; col_dflt_value := Some "" |};
                  {| col_name := "sku"; col_type := "TEXT";
                     col_notnull := true; col_dflt_value := Some "" |};
                  {| col_name := "qty"; col_type := "INTEGER";
                     col_notnull := true; col_dflt_value := Some "0" |};
                  {| col_name := "note"; col_type := "TEXT";
                     col_notnull := false; col_dflt_value := None |} ];
     indexes := [ {| idx_name := ""; idx_origin := "pk";
                     idx_columns := ["warehouse"; "sku"] |};
                  {| idx_name := "stock_sku"; idx_origin := "u";
                     idx_columns := ["sku"] |} ];
     foreign_keys :=
       [ {| fk_table := "location";
            fk_references := [ {| ref_from := "warehouse"; ref_to := "code" |};
                               {| ref_from := "sku"; ref_to := "sku" |} ];
            fk_on_update := None;
            fk_on_delete := Some "CASCADE" |} ];
     insert_on_create := [];
     insert_if_not_exists :=
       [ {| identifiers := [("warehouse", VString "main"); ("sku", VString "A1")];
            other_values := [("qty", VOther "0")] |} ];
     update_if_exists := [];
     delete_if_exists := [ [("sku", VString "obsolete")] ] |}.

(** A database where [stock] exists exactly as declared; the columns are
    listed in another order than declared. *)
Definition stock_db : list (string * list Row) :=
  [ ("pragma foreign_keys", [flag_row 1]);
    ("pragma table_info('stock')",
     [ column_row "sku" "TEXT" 1 (Some "''") 2;
       column_row "warehouse" "TEXT" 1 (Some "''") 1;
       column_row "qty" "INTEGER" 1 (Some "'0'") 0;
       column_row "note" "TEXT" 0 (Some "NULL") 0 ]);
    ("pragma index_list('stock')",
     [ index_row "stock_sku" "c" 1;
       index_row "sqlite_autoindex_stock_1" "pk" 1 ]);
    ("pragma index_info('stock_sku')", [name_row "sku"]);
    ("pragma index_info('sqlite_autoindex_stock_1')",
     [name_row "warehouse"; name_row "sku"]);
    ("pragma foreign_key_list('stock')",
     [ fk_row 0 "location" "warehouse" "code" "NO ACTION" "CASCADE";
       fk_row 0 "location" "sku" "sku" "NO ACTION" "CASCADE" ]) ].

(** A nullable TEXT column without default. *)
Definition text_column (name : string) : ColumnDefinition :=
  {| col_name := name; col_type := "TEXT"; col_notnull := false;
     col_dflt_value := None |}.

(** [item] with one more column declared after the others. *)
Definition item_with (coldef : ColumnDefinition) : TableDefinition :=
  {| tbl_name := tbl_name item;
     columns := app (columns item) [coldef];
     indexes := indexes item;
     foreign_keys := foreign_keys item;
     insert_on_create := insert_on_create item;
     insert_if_not_exists := insert_if_not_exists item;
     update_if_exists := update_if_exists item;
     delete_if_exists := delete_if_exists item |}.

End Mock.

(** ** A database that keeps what it accepted, for runs in succession *)

Module Store.
Import Pragma.

(** The world is the list of the statements accepted so far.  The database
    accepts every statement; it reports enforcement on, lists the table
    [item] once its CREATE TABLE was accepted, with the columns as SQLite
    reports them for that statement, and lists an index of [item] once its
    CREATE INDEX was accepted. *)
Definition World : Type := list string.

Definition accepted (sql : string) (w : World) : bool :=
  existsb (String.eqb sql) w.

Definition listed (name column : string) (w : World) : list Row :=
  if accepted ("create  index " ++ name ++ " on item (" ++ column ++ ")") w
  then [index_row name "c" 0] else [].

Definition answer (sql : string) (w : World) : list Row :=
  if String.eqb sql "pragma foreign_keys" then [flag_row 1]
  else if String.eqb sql "pragma table_info('item')" then
    if accepted (getCreateTableSQL Mock.item None) w
    then [ column_row "id" "INTEGER" 0 None 1;
           column_row "label" "TEXT" 1 (Some "''") 0;
           column_row "qty" "INTEGER" 1 (Some "'0'") 0 ]
    else []
  else if String.eqb sql "pragma index_list('item')" then
    app (listed "item_label" "label" w) (listed "item_qty" "qty" w)
  else if String.eqb sql "pragma index_info('item_label')" then
    [name_row "label"]
  else if String.eqb sql "pragma index_info('item_qty')" then [name_row "qty"]
  else [].

Definition select : option (string -> World -> option (list Row) * World) :=
  Some (fun sql w => (Some (answer sql w), w)).

Definition execute : option (string -> World -> option unit * World) :=
  Some (fun sql w => (Some tt, app w [sql])).

Definition now (w : World) : Z := 0.

End Store.

(** ** Further readings of the generated text *)

(** The separator between the clauses of CREATE TABLE. *)
Definition clause_sep : string := "," ++ nl.

(** The text a separator-carrying loop appends for [items] when it is
    entered with separator [sep], and the separator it leaves. *)
Definition glue (sep : string) (items : list string) : string :=
  match items with
  | [] => ""
  | x :: rest => sep ++ x ++ seplist clause_sep rest
  end.

Definition sep_after {X : Type} (sep : string) (items : list X) : string :=
  match items with
  | [] => sep
  | _ :: _ => clause_sep
  end.

(** A column that [getCreateTableSQL] renders as INTEGER PRIMARY KEY. *)
Definition aliased (singlePKColumn : option string) (coldef : ColumnDefinition)
  : bool :=
  match singlePKColumn with
  | Some c => String.eqb (col_name coldef) c
              && String.eqb (col_type coldef) "INTEGER"
  | None => false
  end.

Definition column_clause (singlePKColumn : option string)
  (coldef : ColumnDefinition) : string :=
  if aliased singlePKColumn coldef
  then col_name coldef ++ " INTEGER PRIMARY KEY"
  else columnDefinitionToSQL coldef.

(** The clauses of the CREATE TABLE statement: the columns; the primary
    key, unless a column was rendered INTEGER PRIMARY KEY; the foreign
    keys. *)
Definition create_table_clauses (tbldef : TableDefinition) : list string :=
  let '(pk, singlePKColumn) :=
    fold_left pk_scan_step (indexes tbldef) (None, None) in
  app (map (column_clause singlePKColumn) (columns tbldef))
      (app (if existsb (aliased singlePKColumn) (columns tbldef) then []
            else match pk with
                 | Some pk =>
                     ["primary key (" ++ Js.join ", " (idx_columns pk) ++ ")"]
                 | None => []
                 end)
           (map foreignKeyDefinitionToSQL (foreign_keys tbldef))).

Definition spaced (clause : string) : string := " " ++ clause.

(** ** Further readings of the differencer *)



(** The ids of foreign-key-list rows, in order of first appearance. *)
Fixpoint first_ids (rows : list Row) : list Z :=
  match rows with
  | [] => []
  | r :: rest =>
      r_id r :: filter (fun id => negb (Z.eqb id (r_id r))) (first_ids rest)
  end.

Definition rows_of_id (id : Z) (rows : list Row) : list Row :=
  filter (fun r => Z.eqb (r_id r) id) rows.

Definition ref_of (r : Row) : Reference :=
  {| ref_from := r_from r; ref_to := r_to r |}.

(** The foreign key made of the rows carrying [id]: target table and
    actions of the first such row, one reference pair per row. *)
Definition assemble_fk (rows : list Row) (id : Z) : ForeignKeyDefinition :=
  let mine := rows_of_id id rows in
  let first := hd Pragma.blank mine in
  {| fk_table := r_table first;
     fk_references := map ref_of mine;
     fk_on_update := Some (r_on_update first);
     fk_on_delete := Some (r_on_delete first) |}.

(** ** Further readings of a run *)

Definition is_query (ev : Event) : Prop :=
  match ev with
  | Selected _ => True
  | Executed _ => False
  end.

Definition is_statement (ev : Event) : Prop :=
  match ev with
  | Executed _ => True
  | Selected _ => False
  end.

(** A run whose queries all come before its statements. *)
Definition phased (t : list Event) : Prop :=
  exists queries statements,
    t = app queries statements
    /\ Forall is_query queries /\ Forall is_statement statements.

(** In every world [m] ends with [r] after the calls [t]. *)
Definition yields {W A : Type} (m : M W A) (r : Result A) (t : list Event)
  : Prop :=
  forall w, result_of (m w) = r /\ events_of (m w) = t.

(** The world a computation leaves. *)
Definition world_of {W A : Type} (o : Result A * list Event * W) : W := snd o.

(** Handing statements to [execute] one by one, each in the world the
    previous one left, up to and including the first one it rejects. *)
Fixpoint issue {W : Type} (g : string -> W -> option unit * W)
  (sqls : list string) (w : W) : Result unit * list Event * W :=
  match sqls with
  | [] => (Ok tt, [], w)
  | sql :: rest =>
      match g sql w with
      | (Some _, w') =>
          let '(r, t, w'') := issue g rest w' in (r, Executed sql :: t, w'')
      | (None, w') => (Throw CollaboratorFailure, [Executed sql], w')
      end
  end.

(** The seed statements that reach an accepting [execute]. *)
Definition issued_seeds (t : TableDefinition) : list string :=
  app (every_other
         (collect (insert_if_not_exists_sql (tbl_name t))
            (insert_if_not_exists t)))
      (app (every_other
              (collect (update_if_exists_sql (tbl_name t))
                 (update_if_exists t)))
           (every_other
              (collect (delete_if_exists_sql (tbl_name t))
                 (delete_if_exists t)))).

(** The statements that reach an accepting [execute] when the table is
    created. *)
Definition issued_on_create (t : TableDefinition) : list string :=
  getCreateTableSQL t None
  :: app (every_other (getCreateIndexSQLs t None))
         (app (every_other
                 (map (insert_on_create_sql (tbl_name t))
                    (insert_on_create t)))
              (issued_seeds t)).

(** Foreign-key enforcement as the flag query reports it. *)
Definition enforcement_on (rows : list Row) : bool :=
  match rows with
  | r :: _ => negb (Z.eqb (r_foreign_keys r) 0)
  | [] => false
  end.

Definition table_info_sql (t : TableDefinition) : string :=
  "pragma table_info(" ++ quote (VString (tbl_name t)) ++ ")".

(** The errors a call with valid arguments can end with. *)
Definition benign (e : Error) : Prop :=
  e = CollaboratorFailure \/ e = MalformedLiteral.

Definition any_call (ev : Event) : Prop := True.

(** The statements of a rewrite that copy the rows and give the new
    table its name. *)
Definition copy_sql (tbldef : TableDefinition) (tmptn : string)
  (old_new_common_colnames : list string) : string :=
  "insert into " ++ tmptn ++ " (" ++ Js.join "," old_new_common_colnames ++ ")"
  ++ " select " ++ Js.join "," old_new_common_colnames
  ++ " from " ++ tbl_name tbldef.

Definition rename_sql (tbldef : TableDefinition) (tmptn : string) : string :=
  "alter table " ++ tmptn ++ " rename to " ++ tbl_name tbldef.

(** The last element of [l] that satisfies [p]. *)
Definition last_where {X : Type} (p : X -> bool) (l : list X) : option X :=
  find p (rev l).


Definition index_list_sql (t : TableDefinition) : string :=
  "pragma index_list(" ++ quote (VString (tbl_name t)) ++ ")".

Definition index_info_sql (name : string) : string :=
  "pragma index_info(" ++ quote (VString name) ++ ")".

Definition foreign_key_list_sql (t : TableDefinition) : string :=
  "pragma foreign_key_list(" ++ quote (VString (tbl_name t)) ++ ")".

(** The queries that inspect an existing table, given its index-list
    rows: the index list, the columns of each listed index of origin c or
    u, the columns of the listed primary key, the foreign-key list. *)
Definition introspection (t : TableDefinition) (index_rows : list Row)
  : list string :=
  index_list_sql t
  :: app (map (fun kv => index_info_sql (idx_name (snd kv)))
            (fst (index_old_indexes index_rows)))
         (app match snd (index_old_indexes index_rows) with
              | Some pk => [index_info_sql (idx_name pk)]
              | None => []
              end
              [foreign_key_list_sql t]).

(** * Properties *)

(** ** Quoting *)

Lemma replace_squote_cons (c : ascii) (s : string) :
  Js.replace squote squote2 (String c s)
  = if Ascii.eqb "'" c then squote2 ++ s
    else String c (Js.replace squote squote2 s).
Proof.
  change (Js.replace squote squote2 (String c s))
    with (if Ascii.eqb "'" c && true then squote2 ++ s
          else String c (Js.replace squote squote2 s)).
  now rewrite andb_true_r.
Qed.

Lemma replace_squote2_cons_other (c : ascii) (s : string) :
  Ascii.eqb "'" c = false ->
  Js.replace squote2 squote (String c s)
  = String c (Js.replace squote2 squote s).
Proof.
  intro Hc.
  change (Js.replace squote2 squote (String c s))
    with (if Ascii.eqb "'" c && Js.starts_with squote s
          then squote ++ Js.drop 2 (String c s)
          else String c (Js.replace squote2 squote s)).
  now rewrite Hc.
Qed.

Lemma replace_quote_nonempty (s : string) :
  Js.replace squote squote2 s = "" -> s = "".
Proof.
  destruct s as [|c s]; [reflexivity|].
  rewrite replace_squote_cons.
  destruct (Ascii.eqb "'" c); discriminate.
Qed.

(** [unquote]'s replacement undoes [quote]'s: both touch the first
    occurrence only, and it is the same one. *)
Lemma replace_escape_inverse (s : string) :
  Js.replace squote2 squote (Js.replace squote squote2 s) = s.
Proof.
  induction s as [|c s IH]; [reflexivity|].
  rewrite replace_squote_cons.
  destruct (Ascii.eqb "'" c) eqn:Hc.
  - apply Ascii.eqb_eq in Hc. subst c. reflexivity.
  - rewrite replace_squote2_cons_other by exact Hc.
    now rewrite IH.
Qed.

Lemma last_char_snoc (x : string) (c d : ascii) :
  Js.last_char (String c (x ++ String d "")) = Some d.
Proof.
  revert c. induction x as [|e x IH]; intro c; [reflexivity|].
  change (Js.last_char (String c (String e x ++ String d "")))
    with (Js.last_char (String e (x ++ String d ""))).
  apply IH.
Qed.

Lemma length_snoc (x : string) (d : ascii) :
  String.length (x ++ String d "") = S (String.length x).
Proof. induction x; cbn; congruence. Qed.

Lemma substring_prefix_snoc (x y : string) :
  String.substring 0 (String.length x) (x ++ y) = x.
Proof.
  induction x as [|c x IH]; cbn.
  - destruct y; reflexivity.
  - f_equal. exact IH.
Qed.

(** On the code as it is, every string survives [quote] then [unquote]. *)
Lemma unquote_quote_string (s : string) :
  unquote (Some (quote (VString s))) = Ok (Some s).
Proof.
  unfold quote, unquote, String_.
  remember (Js.replace squote squote2 s) as inner eqn:Hinner.
  change (squote ++ inner ++ squote) with (String "'" (inner ++ String "'" "")).
  rewrite last_char_snoc.
  change (String.eqb (String "'" (inner ++ String "'" "")) "") with false.
  change (Js.starts_with squote (String "'" (inner ++ String "'" ""))) with true.
  change (String.length (String "'" (inner ++ String "'" "")))
    with (S (String.length (inner ++ String "'" ""))).
  rewrite length_snoc.
  change (Nat.ltb (S (S (String.length inner))) 2) with false.
  change (Ascii.eqb "'" "'") with true.
  cbn [negb orb].
  destruct inner as [|c inner'].
  - cbn. symmetry in Hinner. apply replace_quote_nonempty in Hinner.
    now subst.
  - change (Nat.eqb (S (S (String.length (String c inner')))) 2) with false.
    cbv iota.
    replace (S (S (String.length (String c inner'))) - 2)
      with (String.length (String c inner')) by (cbn; lia).
    change (String.substring 1 (String.length (String c inner'))
              (String "'" (String c inner' ++ String "'" "")))
      with (String.substring 0 (String.length (String c inner'))
              (String c inner' ++ String "'" "")).
    rewrite substring_prefix_snoc, Hinner.
    now rewrite replace_escape_inverse.
Qed.

(** C3 (code defect).  [quote] doubles the first embedded single quote
    only, and [unquote] folds the first doubled pair only: for the value
    a'b'c the literal produced is 'a''b'c' and not 'a''b''c', and the
    literal 'a''b''c' reads back as a'b''c. *)
Theorem quote_escapes_first_occurrence_only :
  quote (VString "a'b'c") = "'a''b'c'"
  /\ quote (VString "a'b'c") <> "'a''b''c'"
  /\ unquote (Some "'a''b''c'") = Ok (Some "a'b''c")
  /\ unquote (Some (quote (VString "a'b'c"))) = Ok (Some "a'b'c").
Proof.
  repeat split; try reflexivity.
  cbv. discriminate.
Qed.

(** ** Statement lists and the collaborator *)

Lemma list_pair_ind {A : Type} (P : list A -> Prop) :
  P [] -> (forall x, P [x]) -> (forall x y l, P l -> P (x :: y :: l)) ->
  forall l, P l.
Proof.
  intros H0 H1 H2.
  fix IH 1. intros [|x [|y l]].
  - exact H0.
  - apply H1.
  - apply H2, IH.
Qed.

Ltac not_in_list :=
  let H := fresh in
  intro H; cbn in H;
  repeat (destruct H as [H|H]; [discriminate H|]); exact H.

Section Collaborators.
Context {W : Type}.
Variable select : option (string -> W -> option (list Row) * W).
Variable execute : option (string -> W -> option unit * W).
Variable now : W -> Z.

(** Whatever the collaborator answers, [executeSQLCommands] hands it a
    leading part of the statements at even positions, and nothing else. *)
Lemma executeSQLCommands_issues (cmdlist : list string) (w : W) :
  exists n,
    events_of (executeSQLCommands W execute cmdlist w)
    = map Executed (firstn n (every_other cmdlist)).
Proof.
  revert w. induction cmdlist as [|x|x y l IH] using list_pair_ind; intro w.
  - exists 0. reflexivity.
  - unfold executeSQLCommands, bind, call_execute, events_of.
    destruct execute as [f|]; [|exists 0; reflexivity].
    destruct (f x w) as [[[]|] w']; exists 1; reflexivity.
  - cbn [executeSQLCommands]. unfold bind at 1. unfold call_execute.
    destruct execute as [f|] eqn:Hf; [|exists 0; reflexivity].
    destruct (f x w) as [[[]|] w'].
    + destruct (IH w') as [n Hn].
      unfold events_of in *.
      destruct (executeSQLCommands W (Some f) l w') as [[r t] w''].
      cbn in *. exists (S n). cbn. now rewrite Hn.
    + exists 1. reflexivity.
Qed.

(** With a collaborator that accepts every statement the call returns,
    having issued exactly the statements at even positions. *)
Lemma executeSQLCommands_accepted (f : string -> W -> option unit * W) :
  (forall sql w, fst (f sql w) = Some tt) ->
  forall cmdlist w,
    result_of (executeSQLCommands W (Some f) cmdlist w) = Ok tt
    /\ events_of (executeSQLCommands W (Some f) cmdlist w)
       = map Executed (every_other cmdlist).
Proof.
  intros Hf cmdlist.
  induction cmdlist as [|x|x y l IH] using list_pair_ind; intro w.
  - split; reflexivity.
  - unfold executeSQLCommands, bind, call_execute, result_of, events_of.
    specialize (Hf x w). destruct (f x w) as [[[]|] w']; [|discriminate].
    split; reflexivity.
  - cbn [executeSQLCommands]. unfold bind, call_execute.
    specialize (Hf x w). destruct (f x w) as [[[]|] w']; [|discriminate].
    destruct (IH w') as [Hr He]. unfold result_of, events_of in *.
    destruct (executeSQLCommands W (Some f) l w') as [[r t] w''].
    cbn in *. subst. split; reflexivity.
Qed.

(** ** Argument checks *)

Lemma non_object_declaration_rejected (tbldef : Declaration) (w : W) :
  typeof_is_object tbldef = false ->
  updateSchemaForSingleTable W select execute now tbldef w
  = (Throw InvalidDefinition, [], w).
Proof.
  intro H. unfold updateSchemaForSingleTable. now rewrite H.
Qed.

Lemma non_callable_collaborator_rejected (tbldef : Declaration) (w : W) :
  typeof_is_object tbldef = true ->
  is_function select = false \/ is_function execute = false ->
  updateSchemaForSingleTable W select execute now tbldef w
  = (Throw InvalidCollaborator, [], w).
Proof.
  intros H [Hc|Hc]; unfold updateSchemaForSingleTable; rewrite H, Hc; cbn.
  - reflexivity.
  - now rewrite orb_true_r.
Qed.

End Collaborators.

(** C9 (code defect).  With callable collaborators, the declaration [null]
    passes the guard of line 16, because [typeof(null)] is 'object'; the
    call then fails on [getArray(tbldef, 'columns')] with a [TypeError],
    not with the guard's own error.  No collaborator call is made. *)
Theorem null_declaration_escapes_the_guard
  (W : Type) (select : string -> W -> option (list Row) * W)
  (execute : string -> W -> option unit * W) (now : W -> Z) (w : W) :
  updateSchemaForSingleTable W (Some select) (Some execute) now DNull w
  = (Throw TypeError, [], w)
  /\ updateSchemaForSingleTable W (Some select) (Some execute) now DNull w
     <> (Throw InvalidDefinition, [], w).
Proof.
  split; [reflexivity|].
  cbn. intro H. discriminate H.
Qed.

(** ** Concrete runs *)

(** C1 (code defect).  Creating the table [item], which declares two
    plain indexes, on an empty database: both CREATE INDEX statements are
    generated, the run succeeds, and the second one is never handed to
    [execute]. *)
Theorem second_create_index_is_never_issued :
  let out := updateSchemaForSingleTable Mock.World
               (Mock.select Mock.empty_db) (Mock.execute Mock.accept_all)
               Mock.now (DObject Mock.item) 0%Z in
  getCreateIndexSQLs Mock.item None
  = [ "create  index item_label on item (label)";
      "create  index item_qty on item (qty)" ]
  /\ result_of out = Ok tt
  /\ executed (events_of out)
     = [ fk_off_sql;
         getCreateTableSQL Mock.item None;
         "create  index item_label on item (label)";
         fk_on_sql ]
  /\ ~ In (Executed "create  index item_qty on item (qty)") (events_of out).
Proof.
  repeat split; try reflexivity.
  vm_compute. not_in_list.
Qed.

(** C2 (code defect).  Rewriting [item] after a column type change, at
    clock reading 1700000000000: the five statements of the rewrite are
    generated in the documented order, but only CREATE TABLE, DROP TABLE
    and the first CREATE INDEX reach [execute]; the INSERT that copies the
    rows and the RENAME are skipped. *)
Theorem rewrite_skips_copy_and_rename :
  let out := updateSchemaForSingleTable Mock.World
               (Mock.select Mock.stale_db) (Mock.execute Mock.accept_all)
               Mock.now (DObject Mock.item) 1700000000000%Z in
  let tmptn := "item_new_1700000000000" in
  let copy := "insert into item_new_1700000000000 (id,label,qty)"
              ++ " select id,label,qty from item" in
  let rename := "alter table item_new_1700000000000 rename to item" in
  rewrite_sqls Mock.item tmptn ["id"; "label"; "qty"]
  = [ getCreateTableSQL Mock.item (Some tmptn);
      copy;
      "drop table item";
      rename;
      "create  index item_label on item_new_1700000000000 (label)";
      "create  index item_qty on item_new_1700000000000 (qty)" ]
  /\ result_of out = Ok tt
  /\ executed (events_of out)
     = [ getCreateTableSQL Mock.item (Some tmptn);
         "drop table item";
         "create  index item_label on item_new_1700000000000 (label)" ]
  /\ ~ In (Executed copy) (events_of out)
  /\ ~ In (Executed rename) (events_of out).
Proof.
  repeat split; try reflexivity; vm_compute; not_in_list.
Qed.

(** C4 (code defect).  The table [item] exists as declared and one
    nullable TEXT column is added to the declaration.  Named [note], the
    column is added in place by ALTER TABLE.  Named [constructor], it is
    found among the live columns by [k in old_coldefs_by_name], because
    every object inherits that name from [Object.prototype]; it is compared
    with what is read there, whose type is [undefined], and the flag is
    set: the table is rewritten, where the change is the addition of one
    column. *)
Theorem added_column_constructor_is_rewritten :
  let run := fun name =>
    updateSchemaForSingleTable Mock.World
      (Mock.select Mock.current_db) (Mock.execute Mock.accept_all)
      Mock.now (DObject (Mock.item_with (Mock.text_column name)))
      1700000000000%Z in
  result_of (run "note") = Ok tt
  /\ executed (events_of (run "note"))
     = [ fk_off_sql;
         "alter table item add column note TEXT NULL DEFAULT NULL";
         fk_on_sql ]
  /\ result_of (run "constructor") = Ok tt
  /\ executed (events_of (run "constructor"))
     = [ fk_off_sql;
         getCreateTableSQL (Mock.item_with (Mock.text_column "constructor"))
           (Some "item_new_1700000000000");
         "drop table item";
         "create  index item_label on item_new_1700000000000 (label)";
         fk_on_sql ]
  /\ ~ In (Executed "alter table item add column constructor TEXT NULL DEFAULT NULL")
         (events_of (run "constructor")).
Proof.
  repeat split; try reflexivity. vm_compute. not_in_list.
Qed.

(** C7 (code defect).  Two runs in succession for [item], which declares
    two plain indexes, on a database that starts empty and keeps what it
    accepted.  The first run succeeds but hands over only the first CREATE
    INDEX; so the second run finds the second index missing and executes
    its CREATE INDEX: it is not free of DDL.  Only the third run executes
    nothing but the enforcement toggles. *)
Theorem second_run_creates_the_skipped_index :
  let run := updateSchemaForSingleTable Store.World Store.select
               Store.execute Store.now (DObject Mock.item) in
  let first := run [] in
  let second := run (world_of first) in
  let third := run (world_of second) in
  result_of first = Ok tt
  /\ executed (events_of first)
     = [ fk_off_sql;
         getCreateTableSQL Mock.item None;
         "create  index item_label on item (label)";
         fk_on_sql ]
  /\ result_of second = Ok tt
  /\ executed (events_of second)
     = [ fk_off_sql; "create  index item_qty on item (qty)"; fk_on_sql ]
  /\ result_of third = Ok tt
  /\ executed (events_of third) = [ fk_off_sql; fk_on_sql ].
Proof.
  repeat split; reflexivity.
Qed.

(** ** Seed statements *)

Lemma append_assoc' (a b c : string) : (a ++ b) ++ c = a ++ b ++ c.
Proof. induction a; cbn; congruence. Qed.

Lemma append_nil_r (a : string) : a ++ "" = a.
Proof. induction a; cbn; congruence. Qed.

Lemma join_cons (link x : string) (rest : list string) :
  Js.join link (x :: rest) = x ++ seplist link rest.
Proof.
  revert x. induction rest as [|y rest IH]; intro x.
  - cbn. now rewrite append_nil_r.
  - change (Js.join link (x :: y :: rest))
      with (x ++ link ++ Js.join link (y :: rest)).
    now rewrite IH.
Qed.

Lemma seplist_app (link : string) (a b : list string) :
  seplist link (a ++ b) = seplist link a ++ seplist link b.
Proof.
  induction a as [|x a IH]; [reflexivity|].
  cbn. now rewrite IH, !append_assoc'.
Qed.

Lemma Obj_own_In {V : Type} (k : string) (o : Obj.t V) :
  Obj.own k o = true <-> In k (Obj.keys o).
Proof.
  induction o as [|[k' v] o IH]; cbn.
  - split; [discriminate|contradiction].
  - destruct (String.eqb k k') eqn:E.
    + apply String.eqb_eq in E. subst. tauto.
    + apply String.eqb_neq in E. rewrite IH. split; [tauto|].
      intros [H|H]; [congruence|exact H].
Qed.

Lemma identifier_fold_linked (ids : Mapping) (p1 p2 p3 : string) :
  fold_left identifier_step ids (p1, p2, p3, ", ", " and ")
  = (p1 ++ seplist ", " (map fst ids),
     p2 ++ seplist ", " (map quoted ids),
     p3 ++ seplist " and " (map condition ids),
     ", ", " and ").
Proof.
  revert p1 p2 p3. induction ids as [|kv ids IH]; intros p1 p2 p3.
  - cbn. now rewrite !append_nil_r.
  - cbn [fold_left identifier_step]. cbn [next_sep String.eqb Ascii.eqb
      Bool.eqb]. rewrite IH. cbn [map seplist].
    unfold quoted, condition. now rewrite !append_assoc'.
Qed.

Lemma identifier_fold (kv : string * Value) (ids : Mapping) (p1 p2 p3 : string) :
  fold_left identifier_step (kv :: ids) (p1, p2, p3, "", "")
  = (p1 ++ Js.join ", " (map fst (kv :: ids)),
     p2 ++ Js.join ", " (map quoted (kv :: ids)),
     p3 ++ Js.join " and " (map condition (kv :: ids)),
     ", ", " and ").
Proof.
  cbn [fold_left identifier_step]. cbn [next_sep String.eqb].
  rewrite identifier_fold_linked. cbn [map]. rewrite !join_cons.
  unfold quoted, condition. cbn [append]. now rewrite !append_assoc'.
Qed.

Lemma other_value_fold (ids ov : Mapping) (p1 p2 p3 : string) :
  let kept := filter (fun kv => negb (Obj.has (fst kv) ids)) ov in
  fold_left (other_value_step ids) ov (p1, p2, p3, ", ", " and ")
  = (p1 ++ seplist ", " (map fst kept),
     p2 ++ seplist ", " (map quoted kept),
     p3, ", ", " and ").
Proof.
  cbv zeta. revert p1 p2. induction ov as [|kv ov IH]; intros p1 p2.
  - cbn. now rewrite !append_nil_r.
  - cbn [fold_left filter]. unfold other_value_step at 2.
    destruct (Obj.has (fst kv) ids); cbn [negb].
    + apply IH.
    + cbn [next_sep String.eqb Ascii.eqb Bool.eqb]. rewrite IH.
      cbn [map seplist]. unfold quoted. now rewrite !append_assoc'.
Qed.

(** The text of the generated INSERT, in terms of its column list. *)
Lemma insert_if_not_exists_sql_text (tableName : string) (e : IfExists) :
  identifiers e <> [] ->
  insert_if_not_exists_sql tableName e
  = Some ("insert into " ++ tableName ++ " ("
          ++ Js.join ", " (map fst (insert_columns e))
          ++ ") select " ++ Js.join ", " (map quoted (insert_columns e))
          ++ " where not exists (select 1 from " ++ tableName ++ " where "
          ++ Js.join " and " (map condition (identifiers e)) ++ ")").
Proof.
  intro Hne. unfold insert_if_not_exists_sql, insert_columns.
  destruct (identifiers e) as [|kv ids] eqn:Hids; [contradiction|].
  rewrite identifier_fold. cbn [String.eqb]. cbv iota.
  rewrite other_value_fold. cbv zeta.
  set (kept := filter _ (other_values e)).
  rewrite !map_app. cbn [app map]. rewrite !join_cons, !seplist_app.
  now rewrite !append_assoc'.
Qed.

Lemma collect_fold {A : Type} (f : A -> option string) (entries : list A)
  (acc : list string) :
  fold_left (fun sqls e => match f e with
                           | Some sql => Js.push sqls sql
                           | None => sqls
                           end) entries acc
  = (acc ++ collect f entries)%list.
Proof.
  unfold collect. revert acc.
  induction entries as [|e entries IH]; intro acc.
  - cbn. now rewrite app_nil_r.
  - cbn [fold_left]. rewrite IH. rewrite (IH (match f e with
                                              | Some sql => Js.push [] sql
                                              | None => []
                                              end)).
    destruct (f e); unfold Js.push; cbn; [|reflexivity].
    now rewrite <- app_assoc.
Qed.

Lemma collect_cons {A : Type} (f : A -> option string) (e : A) (entries : list A) :
  collect f (e :: entries)
  = (match f e with Some sql => [sql] | None => [] end ++ collect f entries)%list.
Proof.
  unfold collect at 1. cbn [fold_left]. rewrite collect_fold.
  destruct (f e); reflexivity.
Qed.

Lemma collect_app {A : Type} (f : A -> option string) (a b : list A) :
  collect f (a ++ b) = (collect f a ++ collect f b)%list.
Proof.
  induction a as [|e a IH]; [reflexivity|].
  cbn [app]. rewrite !collect_cons, IH. now rewrite app_assoc.
Qed.

Lemma Obj_own_has {V : Type} (k : string) (o : Obj.t V) :
  Obj.own k o = true -> Obj.has k o = true.
Proof. unfold Obj.has. now intros ->. Qed.

Lemma count_occ_filtered_out (ids ov : Mapping) (cn : string) :
  Obj.has cn ids = true ->
  count_occ string_dec
    (map fst (filter (fun kv => negb (Obj.has (fst kv) ids)) ov)) cn = 0.
Proof.
  intro Hcn. apply count_occ_not_In. intro Hin.
  apply in_map_iff in Hin. destruct Hin as [[k v] [Hk Hin]].
  apply filter_In in Hin. destruct Hin as [_ Hf]. cbn in *. subst k.
  now rewrite Hcn in Hf.
Qed.

(** C10.  An [insert_if_not_exists] entry without identifiers yields no
    statement, whatever its other values, and contributes nothing to the
    list handed to [executeSQLCommands].  For an entry whose identifiers
    have distinct names, a column named in both mappings occurs exactly once
    in the column list of the generated INSERT, and the value listed for it
    is the one from [identifiers].  The column list is that of
    [insert_columns]: the identifiers, then the other values that the test
    [cn in identifiers] lets through. *)
Theorem insert_if_not_exists_column_list (tableName : string) :
  (forall (ov : Mapping) (before after : list IfExists),
      let e := {| identifiers := []; other_values := ov |} in
      insert_if_not_exists_sql tableName e = None
      /\ collect (insert_if_not_exists_sql tableName) (before ++ e :: after)
         = collect (insert_if_not_exists_sql tableName) (before ++ after))
  /\ (forall (e : IfExists) (cn : string) (v : Value),
         NoDup (Obj.keys (identifiers e)) ->
         In (cn, v) (identifiers e) ->
         Obj.own cn (other_values e) = true ->
         insert_if_not_exists_sql tableName e
         = Some ("insert into " ++ tableName ++ " ("
                 ++ Js.join ", " (map fst (insert_columns e))
                 ++ ") select " ++ Js.join ", " (map quoted (insert_columns e))
                 ++ " where not exists (select 1 from " ++ tableName
                 ++ " where "
                 ++ Js.join " and " (map condition (identifiers e)) ++ ")")
         /\ count_occ string_dec (map fst (insert_columns e)) cn = 1
         /\ (forall v', In (cn, v') (insert_columns e) -> v' = v)).
Proof.
  split.
  - intros ov before after e. split; [reflexivity|].
    rewrite !collect_app, collect_cons. reflexivity.
  - intros e cn v Hnd Hin _.
    assert (Hhas : Obj.own cn (identifiers e) = true).
    { apply Obj_own_In. unfold Obj.keys.
      change cn with (fst (cn, v)). now apply in_map. }
    split; [|split].
    + apply insert_if_not_exists_sql_text. intro E. now rewrite E in Hin.
    + unfold insert_columns. rewrite map_app, count_occ_app.
      rewrite count_occ_filtered_out by (apply Obj_own_has, Hhas).
      rewrite Nat.add_0_r.
      apply NoDup_count_occ'; [exact Hnd|].
      now apply Obj_own_In.
    + intros v' Hin'. unfold insert_columns in Hin'.
      apply in_app_or in Hin'. destruct Hin' as [Hin'|Hin'].
      * clear Hhas. induction (identifiers e) as [|[k u] ids IH];
          [contradiction|].
        inversion Hnd as [|? ? Hk Hnd']; subst.
        destruct Hin as [Hin|Hin], Hin' as [Hin'|Hin'].
        -- congruence.
        -- exfalso. apply Hk. inversion Hin; subst.
           change cn with (fst (cn, v')). now apply in_map.
        -- exfalso. apply Hk. inversion Hin'; subst.
           change cn with (fst (cn, v)). now apply in_map.
        -- now apply IH.
      * apply filter_In in Hin'. destruct Hin' as [_ Hf]. cbn [fst] in Hf.
        now rewrite (Obj_own_has _ _ Hhas) in Hf.
Qed.

Lemma insert_if_not_exists_column_list_witness :
  insert_if_not_exists_sql "item" Mock.seed
  = Some ("insert into item (code, label) select 'A1', 'first'"
          ++ " where not exists (select 1 from item where code = 'A1')")
  /\ count_occ string_dec (map fst (insert_columns Mock.seed)) "code" = 1
  /\ (forall v', In ("code", v') (insert_columns Mock.seed) -> v' = VString "A1").
Proof.
  refine (proj2 (insert_if_not_exists_column_list "item")
            Mock.seed "code" (VString "A1") _ _ _).
  - repeat constructor. intros [].
  - left. reflexivity.
  - reflexivity.
Defined.

(** ** The differencer *)

Lemma columns_agree_eq (a b : list string) :
  length a = length b -> (columns_agree a b = true <-> a = b).
Proof.
  revert b. induction a as [|x a IH]; intros [|y b] Hlen; try discriminate.
  - tauto.
  - cbn. destruct (String.eqb x y) eqn:E; cbn.
    + apply String.eqb_eq in E. subst y.
      rewrite IH by (cbn in Hlen; lia). split; congruence.
    + apply String.eqb_neq in E. split; [discriminate|congruence].
Qed.

Lemma doIndexesMatch_spec (o n : IndexDefinition) :
  doIndexesMatch o n = true
  <-> idx_origin o = idx_origin n /\ idx_columns o = idx_columns n.
Proof.
  unfold doIndexesMatch.
  destruct (String.eqb (idx_origin o) (idx_origin n)) eqn:Eo; cbn.
  - apply String.eqb_eq in Eo.
    destruct (Nat.eqb (length (idx_columns o)) (length (idx_columns n))) eqn:El;
      cbn.
    + apply Nat.eqb_eq in El. rewrite (columns_agree_eq _ _ El). tauto.
    + apply Nat.eqb_neq in El. split; [discriminate|].
      intros [_ H]. now rewrite H in El.
  - apply String.eqb_neq in Eo. split; [discriminate|tauto].
Qed.

Lemma reference_eq (a b : Reference) :
  ref_from a = ref_from b -> ref_to a = ref_to b -> a = b.
Proof. destruct a, b; cbn; congruence. Qed.

Lemma references_agree_eq (a b : list Reference) :
  length a = length b -> (references_agree a b = true <-> a = b).
Proof.
  revert b. induction a as [|x a IH]; intros [|y b] Hlen; try discriminate.
  - tauto.
  - cbn.
    destruct (String.eqb_spec (ref_from x) (ref_from y)) as [Ef|Ef];
      destruct (String.eqb_spec (ref_to x) (ref_to y)) as [Et|Et]; cbn.
    + rewrite IH by (cbn in Hlen; lia).
      split; [intros ->; f_equal; now apply reference_eq|congruence].
    + split; [discriminate|congruence].
    + split; [discriminate|congruence].
    + split; [discriminate|congruence].
Qed.

Lemma doForeignKeysMatch_spec (o n : ForeignKeyDefinition) :
  doForeignKeysMatch o n = true <-> fk_same o n.
Proof.
  unfold doForeignKeysMatch, fk_same.
  destruct (String.eqb (fk_table o) (fk_table n)) eqn:E1;
    [apply String.eqb_eq in E1|apply String.eqb_neq in E1; cbn;
     split; [discriminate|tauto]].
  destruct (String.eqb (getFKAction (fk_on_update o))
              (getFKAction (fk_on_update n))) eqn:E2;
    [apply String.eqb_eq in E2|apply String.eqb_neq in E2; cbn;
     split; [discriminate|tauto]].
  destruct (String.eqb (getFKAction (fk_on_delete o))
              (getFKAction (fk_on_delete n))) eqn:E3;
    [apply String.eqb_eq in E3|apply String.eqb_neq in E3; cbn;
     split; [discriminate|tauto]].
  cbn.
  destruct (Nat.eqb (length (fk_references o)) (length (fk_references n)))
    eqn:El; cbn.
  - apply Nat.eqb_eq in El. rewrite (references_agree_eq _ _ El). tauto.
  - apply Nat.eqb_neq in El. split; [discriminate|].
    intros (_ & _ & _ & H). now rewrite H in El.
Qed.




Lemma needTableReWrite_final_eq (after_columns : bool)
  (old_pk new_pk : option IndexDefinition)
  (old_fks fks : list ForeignKeyDefinition) :
  needTableReWrite_final after_columns old_pk new_pk old_fks fks
  = after_columns || primary_key_differs old_pk new_pk
    || foreign_keys_differ old_fks fks.
Proof.
  unfold needTableReWrite_final.
  destruct after_columns, (primary_key_differs old_pk new_pk),
    (foreign_keys_differ old_fks fks); reflexivity.
Qed.

Lemma Obj_has_get {V : Type} (k : string) (o : Obj.t V) :
  Obj.has k o = match Obj.get k o with
                | Some _ => true
                | None => Js.inherited k
                end.
Proof.
  unfold Obj.has. induction o as [|[k' v] o IH]; [reflexivity|].
  cbn [Obj.own Obj.get]. now destruct (String.eqb k k').
Qed.



(** *** Maps built by assignment have distinct keys *)

Lemma Obj_keys_set {V : Type} (k : string) (v : V) (o : Obj.t V) :
  Obj.keys (Obj.set k v o)
  = if Obj.own k o then Obj.keys o else (Obj.keys o ++ [k])%list.
Proof.
  unfold Obj.keys. induction o as [|[k' v'] o IH]; [reflexivity|].
  cbn. destruct (String.eqb k k') eqn:E; [reflexivity|].
  cbn. rewrite IH. now destruct (Obj.own k o).
Qed.

Lemma Obj_set_NoDup {V : Type} (k : string) (v : V) (o : Obj.t V) :
  NoDup (Obj.keys o) -> NoDup (Obj.keys (Obj.set k v o)).
Proof.
  intro H. rewrite Obj_keys_set. destruct (Obj.own k o) eqn:E; [exact H|].
  apply NoDup_app; [exact H|repeat constructor; intros []|].
  intros x Hx [<-|[]]. apply Obj_own_In in Hx. congruence.
Qed.

Lemma Obj_get_set {V : Type} (k k' : string) (v : V) (o : Obj.t V) :
  Obj.get k' (Obj.set k v o)
  = if String.eqb k' k then Some v else Obj.get k' o.
Proof.
  induction o as [|[k0 v0] o IH]; cbn.
  - reflexivity.
  - destruct (String.eqb k k0) eqn:E; cbn.
    + apply String.eqb_eq in E. subst k0.
      now destruct (String.eqb k' k).
    + destruct (String.eqb k' k0) eqn:E'.
      * apply String.eqb_eq in E'. subst k0.
        rewrite String.eqb_sym in E. now rewrite E.
      * exact IH.
Qed.

Lemma Obj_get_In {V : Type} (k : string) (v : V) (o : Obj.t V) :
  NoDup (Obj.keys o) -> (Obj.get k o = Some v <-> In (k, v) o).
Proof.
  induction o as [|[k' v'] o IH]; intro Hnd; cbn.
  - split; [discriminate|contradiction].
  - inversion Hnd as [|? ? Hk Hnd']; subst.
    destruct (String.eqb k k') eqn:E.
    + apply String.eqb_eq in E. subst k'. split.
      * intro H. left. congruence.
      * intros [H|H]; [congruence|].
        exfalso. apply Hk. change k with (fst (k, v)). now apply in_map.
    + apply String.eqb_neq in E. rewrite (IH Hnd'). split; [tauto|].
      intros [H|H]; [congruence|exact H].
Qed.

Lemma Obj_own_get {V : Type} (k : string) (o : Obj.t V) :
  Obj.own k o = match Obj.get k o with Some _ => true | None => false end.
Proof.
  induction o as [|[k' v'] o IH]; cbn; [reflexivity|].
  now destruct (String.eqb k k').
Qed.

Lemma index_new_coldefs_fold_NoDup (columns : list ColumnDefinition)
  (acc : Obj.t ColumnDefinition) :
  NoDup (Obj.keys acc) ->
  NoDup (Obj.keys
           (fold_left (fun m coldef => Obj.set (col_name coldef) coldef m)
              columns acc)).
Proof.
  revert acc. induction columns as [|c columns IH]; intros acc H; cbn.
  - exact H.
  - apply IH. now apply Obj_set_NoDup.
Qed.

Lemma index_new_coldefs_NoDup (columns : list ColumnDefinition) :
  NoDup (Obj.keys (index_new_coldefs columns)).
Proof. apply index_new_coldefs_fold_NoDup. constructor. Qed.


Lemma is_pk_auto_int_col_spec (new_pk : option IndexDefinition) (k : string)
  (n : ColumnDefinition) :
  is_pk_auto_int_col new_pk k n = true <-> sole_integer_primary_key new_pk k n.
Proof.
  unfold is_pk_auto_int_col, sole_integer_primary_key, is_pk_col.
  destruct new_pk as [pk|].
  - split.
    + intro H. apply andb_true_iff in H. destruct H as [H H3].
      apply andb_true_iff in H. destruct H as [H1 H2].
      apply String.eqb_eq in H2. apply Nat.eqb_eq in H3.
      destruct (idx_columns pk) as [|c [|c' rest]] eqn:Ec; try discriminate.
      cbn in H1. rewrite orb_false_r in H1. apply String.eqb_eq in H1.
      subst c. exists pk. now rewrite Ec.
    + intros [pk' (E & Hc & Ht)]. inversion E; subst pk'.
      rewrite Hc, Ht. cbn. now rewrite String.eqb_refl.
  - split; [discriminate|]. intros [pk [E _]]. discriminate.
Qed.

Lemma option_string_eqb_spec (a b : option string) :
  option_string_eqb a b = true <-> a = b.
Proof.
  destruct a as [x|], b as [y|]; cbn; try (split; congruence).
  rewrite String.eqb_eq. split; congruence.
Qed.



Lemma index_new_fold_pk_origin (indexes : list IndexDefinition)
  (acc : Obj.t IndexDefinition * option IndexDefinition) (pk : IndexDefinition) :
  (forall pk0, snd acc = Some pk0 -> idx_origin pk0 = "pk") ->
  snd (fold_left index_new_step indexes acc) = Some pk -> idx_origin pk = "pk".
Proof.
  revert acc. induction indexes as [|d indexes IH]; intros acc Hacc; cbn.
  - apply Hacc.
  - apply IH. intros pk0. destruct acc as [m p]. unfold index_new_step.
    destruct (is_c_or_u (idx_origin d)); [exact (Hacc pk0)|].
    destruct (String.eqb_spec (idx_origin d) "pk") as [E|E]; [|exact (Hacc pk0)].
    cbn. intro H. inversion H; subst. exact E.
Qed.

(** The declared primary key the differencer works with has origin 'pk'. *)
Lemma index_new_indexes_pk_origin (indexes : list IndexDefinition)
  (pk : IndexDefinition) :
  snd (index_new_indexes indexes) = Some pk -> idx_origin pk = "pk".
Proof.
  apply index_new_fold_pk_origin. cbn. discriminate.
Qed.



(** ** Primary-key introspection *)

Lemma index_old_coldefs_pk_cols (rows : list Row)
  (m m' : Obj.t ColumnDefinition) (acc pk_cols : list (string * N)) :
  index_old_coldefs rows m acc = Ok (m', pk_cols) ->
  pk_cols = (acc ++ map pk_entry (pk_rows rows))%list.
Proof.
  revert m acc. induction rows as [|r rows IH]; intros m acc H.
  - cbn in *. inversion H. now rewrite app_nil_r.
  - cbn [index_old_coldefs] in H.
    destruct (parseDefaultValue (r_dflt_value r)) as [d|e]; [|discriminate].
    apply IH in H. subst pk_cols. unfold pk_rows. cbn [filter].
    destruct (r_pk r) as [|p] eqn:Epk; cbn.
    + reflexivity.
    + unfold Js.push. rewrite <- app_assoc. cbn. unfold pk_entry at 2.
      now rewrite Epk.
Qed.

Lemma pk_rows_positive (rows : list Row) :
  Forall (fun r => (0 < r_pk r)%N) (pk_rows rows).
Proof.
  apply Forall_forall. intros r Hr. apply filter_In in Hr.
  destruct Hr as [_ Hr]. apply negb_true_iff, N.eqb_neq in Hr. lia.
Qed.

Lemma insert_by_idx_rows (a : Row) (l : list Row) :
  (0 < r_pk a)%N -> Forall (fun r => (0 < r_pk r)%N) l ->
  insert_by_idx (pk_entry a) (map pk_entry l)
  = map pk_entry (insert_row_by_pk a l).
Proof.
  intros Ha Hl. induction Hl as [|b l Hb Hl IH]; [reflexivity|].
  cbn [map insert_by_idx insert_row_by_pk].
  replace (N.leb (snd (pk_entry a)) (snd (pk_entry b)))
    with (N.leb (r_pk a) (r_pk b)).
  - destruct (N.leb (r_pk a) (r_pk b)); cbn [map]; [reflexivity|].
    now rewrite IH.
  - unfold pk_entry. cbn [snd].
    destruct (N.leb_spec (r_pk a) (r_pk b));
      destruct (N.leb_spec (r_pk a - 1) (r_pk b - 1)); try reflexivity; lia.
Qed.

Lemma insert_row_by_pk_positive (a : Row) (l : list Row) :
  (0 < r_pk a)%N -> Forall (fun r => (0 < r_pk r)%N) l ->
  Forall (fun r => (0 < r_pk r)%N) (insert_row_by_pk a l).
Proof.
  intros Ha Hl. induction Hl as [|b l Hb Hl IH]; cbn.
  - now repeat constructor.
  - destruct (N.leb (r_pk a) (r_pk b)); repeat constructor; assumption.
Qed.

Lemma rows_by_pk_positive (l : list Row) :
  Forall (fun r => (0 < r_pk r)%N) l ->
  Forall (fun r => (0 < r_pk r)%N) (rows_by_pk l).
Proof.
  induction 1; cbn; [constructor|]. now apply insert_row_by_pk_positive.
Qed.

(** Sorting the [(name, idx)] entries is sorting the rows they come from. *)
Lemma sort_by_idx_rows (l : list Row) :
  Forall (fun r => (0 < r_pk r)%N) l ->
  sort_by_idx (map pk_entry l) = map pk_entry (rows_by_pk l).
Proof.
  induction 1 as [|a l Ha Hl IH]; [reflexivity|].
  cbn. unfold sort_by_idx in IH. rewrite IH.
  apply insert_by_idx_rows; [exact Ha|now apply rows_by_pk_positive].
Qed.

Lemma insert_row_by_pk_perm (a : Row) (l : list Row) :
  Permutation (insert_row_by_pk a l) (a :: l).
Proof.
  induction l as [|b l IH]; cbn; [reflexivity|].
  destruct (N.leb (r_pk a) (r_pk b)); [reflexivity|].
  rewrite IH. apply perm_swap.
Qed.

Lemma rows_by_pk_perm (l : list Row) : Permutation (rows_by_pk l) l.
Proof.
  induction l as [|a l IH]; cbn; [reflexivity|].
  rewrite insert_row_by_pk_perm. now constructor.
Qed.

Lemma insert_row_by_pk_sorted (a : Row) (l : list Row) :
  StronglySorted (fun x y => (r_pk x <= r_pk y)%N) l ->
  StronglySorted (fun x y => (r_pk x <= r_pk y)%N) (insert_row_by_pk a l).
Proof.
  induction 1 as [|b l Hs IH Hb]; cbn.
  - repeat constructor.
  - destruct (N.leb_spec (r_pk a) (r_pk b)) as [Hle|Hgt].
    + constructor; [now constructor|].
      constructor; [exact Hle|].
      eapply Forall_impl; [|exact Hb]. cbn. intros; lia.
    + constructor; [exact IH|].
      eapply Permutation_Forall; [symmetry; apply insert_row_by_pk_perm|].
      constructor; [lia|exact Hb].
Qed.

Lemma rows_by_pk_sorted (l : list Row) :
  StronglySorted (fun x y => (r_pk x <= r_pk y)%N) (rows_by_pk l).
Proof.
  induction l as [|a l IH]; cbn; [constructor|].
  now apply insert_row_by_pk_sorted.
Qed.

Lemma index_old_fold_no_pk (rows : list Row)
  (acc : Obj.t IndexDefinition * option IndexDefinition) :
  (forall r, In r rows -> r_origin r <> "pk") ->
  snd (fold_left index_old_step rows acc) = snd acc.
Proof.
  revert acc. induction rows as [|r rows IH]; intros acc H; [reflexivity|].
  cbn [fold_left]. rewrite IH by (intros; apply H; now right).
  destruct acc as [m p]. unfold index_old_step.
  destruct (is_c_or_u (r_origin r)); [reflexivity|].
  destruct (String.eqb_spec (r_origin r) "pk") as [E|E]; [|reflexivity].
  exfalso. apply (H r); [now left|exact E].
Qed.

Lemma index_old_fold_pk (rows : list Row)
  (acc : Obj.t IndexDefinition * option IndexDefinition) :
  (exists r, In r rows /\ r_origin r = "pk")
  \/ (exists e, snd acc = Some e /\ idx_origin e = "pk" /\ idx_columns e = []) ->
  exists e, snd (fold_left index_old_step rows acc) = Some e
            /\ idx_origin e = "pk" /\ idx_columns e = [].
Proof.
  revert acc. induction rows as [|r rows IH]; intros acc H.
  - destruct H as [[r [[] _]]|H]. exact H.
  - cbn [fold_left]. apply IH.
    destruct (String.eqb_spec (r_origin r) "pk") as [E|E].
    + right. destruct acc as [m p]. unfold index_old_step.
      rewrite E. cbn. eexists. repeat split.
    + destruct H as [[r' [[->|Hin] Hr']]|H].
      * contradiction.
      * left. now exists r'.
      * right. destruct acc as [m p]. unfold index_old_step.
        destruct (is_c_or_u (r_origin r)); [exact H|].
        destruct (String.eqb_spec (r_origin r) "pk"); [contradiction|exact H].
Qed.

(** C6.  When the index listing has no 'pk' entry and some column-info row
    reports a nonzero pk position, the live primary key is rebuilt from
    exactly the rows with a nonzero position, ordered by that position; when
    the listing has a 'pk' entry, the primary key is that entry and the
    column-info positions are not used. *)
Theorem primary_key_fallback (table_info index_list : list Row)
  (old_coldefs_by_name : Obj.t ColumnDefinition) (pk_cols : list (string * N)) :
  index_old_coldefs table_info [] [] = Ok (old_coldefs_by_name, pk_cols) ->
  let listed := snd (index_old_indexes index_list) in
  let from_table_info := old_pk_cols_from_table_info pk_cols in
  ((forall r, In r index_list -> r_origin r <> "pk") ->
   (exists r, In r table_info /\ r_pk r <> 0%N) ->
   listed = None
   /\ exists ordered,
        Permutation ordered (pk_rows table_info)
        /\ StronglySorted (fun x y => (r_pk x <= r_pk y)%N) ordered
        /\ pk_fallback listed from_table_info
           = Some {| idx_name := ""; idx_origin := "pk";
                     idx_columns := map r_name ordered |})
  /\ ((exists r, In r index_list /\ r_origin r = "pk") ->
      (exists e, listed = Some e /\ idx_origin e = "pk")
      /\ forall pk, pk_fallback (Some pk) from_table_info = Some pk).
Proof.
  intros Hidx. cbv zeta. split.
  - intros Hnone [r [Hr Hpk]].
    assert (Hl : snd (index_old_indexes index_list) = None).
    { unfold index_old_indexes. now rewrite index_old_fold_no_pk. }
    split; [exact Hl|]. rewrite Hl.
    exists (rows_by_pk (pk_rows table_info)).
    split; [apply rows_by_pk_perm|]. split; [apply rows_by_pk_sorted|].
    apply index_old_coldefs_pk_cols in Hidx. cbn [app] in Hidx. subst pk_cols.
    unfold old_pk_cols_from_table_info.
    rewrite sort_by_idx_rows by apply pk_rows_positive.
    rewrite map_map. cbn [pk_entry fst].
    unfold pk_fallback.
    assert (Hin : In r (rows_by_pk (pk_rows table_info))).
    { eapply Permutation_in; [symmetry; apply rows_by_pk_perm|].
      apply filter_In. split; [exact Hr|].
      now apply negb_true_iff, N.eqb_neq. }
    destruct (rows_by_pk (pk_rows table_info)); [contradiction|].
    reflexivity.
  - intros Hsome. split; [|reflexivity].
    destruct (index_old_fold_pk index_list ([], None) (or_introl Hsome))
      as [e (He & Ho & _)].
    exists e. split; [exact He|exact Ho].
Qed.

Lemma primary_key_fallback_witness :
  exists ordered,
    Permutation ordered (pk_rows Mock.keyed_rows)
    /\ StronglySorted (fun x y => (r_pk x <= r_pk y)%N) ordered
    /\ pk_fallback (snd (index_old_indexes []))
         (old_pk_cols_from_table_info [("a", 1%N); ("b", 0%N)])
       = Some {| idx_name := ""; idx_origin := "pk";
                 idx_columns := map r_name ordered |}.
Proof.
  refine (proj2 (proj1 (primary_key_fallback Mock.keyed_rows []
                          [ ("a", {| col_name := "a"; col_type := "TEXT";
                                     col_notnull := true;
                                     col_dflt_value := None |});
                            ("note", {| col_name := "note"; col_type := "TEXT";
                                        col_notnull := false;
                                        col_dflt_value := None |});
                            ("b", {| col_name := "b"; col_type := "TEXT";
                                     col_notnull := true;
                                     col_dflt_value := None |}) ]
                          [("a", 1%N); ("b", 0%N)] eq_refl) _ _)).
  - intros r [].
  - exists (Pragma.column_row "a" "TEXT" 1 None 2). split.
    + left. reflexivity.
    + cbn. discriminate.
Defined.

(** ** Reasoning about computations *)

Section Logic.
Context {W : Type}.
Variable select : option (string -> W -> option (list Row) * W).
Variable execute : option (string -> W -> option unit * W).
Variable now : W -> Z.


Lemma sat_ret {A : Type} (a : A) P E (Q : A -> Prop) :
  Q a -> sat (ret (W:=W) a) P E Q.
Proof. intros H w. split; [constructor|exact H]. Qed.

Lemma sat_throw {A : Type} (e : Error) P (E : Error -> Prop) (Q : A -> Prop) :
  E e -> sat (throw (W:=W) e) P E Q.
Proof. intros H w. split; [constructor|exact H]. Qed.

Lemma sat_lift {A : Type} (r : Result A) P (E : Error -> Prop) (Q : A -> Prop) :
  match r with Ok a => Q a | Throw e => E e end ->
  sat (lift (W:=W) r) P E Q.
Proof. destruct r; [apply sat_ret|apply sat_throw]. Qed.

Lemma sat_bind {A B : Type} (m : M W A) (k : A -> M W B) P E
  (Q : A -> Prop) (R : B -> Prop) :
  sat m P E Q -> (forall a, Q a -> sat (k a) P E R) -> sat (bind m k) P E R.
Proof.
  intros Hm Hk w. specialize (Hm w). unfold bind, events_of, result_of in *.
  destruct (m w) as [[[a|e] t1] w1]; cbn in *.
  - destruct Hm as [Ht1 Hq]. specialize (Hk a Hq w1).
    unfold events_of, result_of in Hk.
    destruct (k a w1) as [[r2 t2] w2]. cbn in *.
    destruct Hk as [Ht2 Hr]. split; [now apply Forall_app|exact Hr].
  - exact Hm.
Qed.

Lemma sat_weaken {A : Type} (m : M W A) P E (Q Q' : A -> Prop) :
  sat m P E Q -> (forall a, Q a -> Q' a) -> sat m P E Q'.
Proof.
  intros Hm Hq w. destruct (Hm w) as [Ht Hr]. split; [exact Ht|].
  destruct (result_of (m w)); [now apply Hq|exact Hr].
Qed.

Lemma sat_call_select (sql : string) (P : Event -> Prop) (E : Error -> Prop) :
  P (Selected sql) -> E CollaboratorFailure ->
  (select = None -> E TypeError) ->
  sat (call_select W select sql) P E (fun _ => True).
Proof.
  intros Hp He Ht w. unfold call_select, events_of, result_of.
  destruct select as [f|]; cbn; [|split; [constructor|now apply Ht]].
  destruct (f sql w) as [[rows|] w']; cbn;
    (split; [constructor; [exact Hp|constructor]|]); [exact I|exact He].
Qed.

(** A query whose answer is known returns that answer. *)
Lemma sat_call_select_known (f : string -> W -> option (list Row) * W)
  (sql : string) (rows : list Row) (P : Event -> Prop) (E : Error -> Prop) :
  select = Some f -> (forall w, fst (f sql w) = Some rows) ->
  P (Selected sql) ->
  sat (call_select W select sql) P E (fun r => r = rows).
Proof.
  intros -> Hf Hp w. unfold call_select, events_of, result_of.
  specialize (Hf w). destruct (f sql w) as [[rows'|] w']; cbn in *;
    [|discriminate].
  inversion Hf; subst. split; [constructor; [exact Hp|constructor]|reflexivity].
Qed.

Lemma sat_call_execute (sql : string) (P : Event -> Prop) (E : Error -> Prop) :
  P (Executed sql) -> E CollaboratorFailure ->
  (execute = None -> E TypeError) ->
  sat (call_execute W execute sql) P E (fun _ => True).
Proof.
  intros Hp He Ht w. unfold call_execute, events_of, result_of.
  destruct execute as [f|]; cbn; [|split; [constructor|now apply Ht]].
  destruct (f sql w) as [[[]|] w']; cbn;
    (split; [constructor; [exact Hp|constructor]|]); [exact I|exact He].
Qed.

Lemma sat_getTime P E : sat (getTime W now) P E (fun _ => True).
Proof. intro w. split; [constructor|exact I]. Qed.

Lemma sat_executeSQLCommands (cmdlist : list string) (P : Event -> Prop)
  (E : Error -> Prop) :
  Forall (fun sql => P (Executed sql)) cmdlist ->
  E CollaboratorFailure -> (execute = None -> E TypeError) ->
  sat (executeSQLCommands W execute cmdlist) P E (fun _ => True).
Proof.
  intros Hl He Ht. revert Hl.
  induction cmdlist as [|x|x y l IH] using list_pair_ind; intro Hl.
  - now apply sat_ret.
  - cbn. eapply sat_bind.
    + apply sat_call_execute; try assumption. now inversion Hl.
    + intros _ _. now apply sat_ret.
  - cbn [executeSQLCommands]. eapply sat_bind.
    + apply sat_call_execute; try assumption. now inversion Hl.
    + intros _ _. apply IH. inversion Hl as [|? ? _ Hl']; subst.
      now inversion Hl'.
Qed.

End Logic.

(** ** No generated statement is a pragma *)

Lemma head_app (a x : string) (c : ascii) :
  head a = Some c -> head (a ++ x) = Some c.
Proof. destruct a; [discriminate|exact (fun H => H)]. Qed.

Lemma plain_head (s : string) (c : ascii) :
  head s = Some c -> c <> "p"%char -> plain s.
Proof. unfold plain. now intros ->. Qed.

Lemma fold_head {S X : Type} (proj : S -> string) (step : S -> X -> S)
  (c : ascii) :
  (forall acc x, head (proj acc) = Some c -> head (proj (step acc x)) = Some c) ->
  forall l acc,
    head (proj acc) = Some c -> head (proj (fold_left step l acc)) = Some c.
Proof.
  intros Hstep l. induction l as [|x l IH]; intros acc H; cbn.
  - exact H.
  - apply IH, Hstep, H.
Qed.

Lemma fold_push_Forall {X : Type} (Q : string -> Prop)
  (step : list string -> X -> list string) :
  (forall acc x, Forall Q acc -> Forall Q (step acc x)) ->
  forall l acc, Forall Q acc -> Forall Q (fold_left step l acc).
Proof.
  intros Hstep l. induction l as [|x l IH]; intros acc H; cbn.
  - exact H.
  - apply IH, Hstep, H.
Qed.

Lemma Forall_push (Q : string -> Prop) (acc : list string) (x : string) :
  Forall Q acc -> Q x -> Forall Q (Js.push acc x).
Proof.
  intros Ha Hx. unfold Js.push. apply Forall_app. split; [exact Ha|].
  now repeat constructor.
Qed.

Ltac plain_literal := unfold plain; cbn; discriminate.

Lemma plain_indexDefinitionToSQL (idxdef : IndexDefinition) (tableName : string) :
  plain (indexDefinitionToSQL idxdef tableName).
Proof.
  unfold indexDefinitionToSQL.
  destruct (is_c_or_u (idx_origin idxdef)); [plain_literal|exact I].
Qed.

Lemma plain_getCreateTableSQL (tbldef : TableDefinition)
  (tableNameOverride : option string) :
  plain (getCreateTableSQL tbldef tableNameOverride).
Proof.
  unfold getCreateTableSQL.
  destruct (fold_left pk_scan_step (indexes tbldef) (None, None))
    as [pk singlePKColumn].
  set (tableName := match tableNameOverride with
                    | Some n => n
                    | None => tbl_name tbldef
                    end).
  assert (Hcols : forall l acc,
             head (fst (fst acc)) = Some "c"%char ->
             head (fst (fst (fold_left (create_column_step singlePKColumn)
                               l acc))) = Some "c"%char).
  { apply (fold_head (fun st : string * string * option IndexDefinition =>
                        fst (fst st))).
    intros [[s0 p0] k0] x H. unfold create_column_step.
    destruct (match singlePKColumn with
              | Some c0 => _
              | None => false
              end); cbn [fst] in *; now apply head_app. }
  specialize (Hcols (columns tbldef)
                ("create table " ++ tableName ++ " (", "", pk) eq_refl).
  destruct (fold_left (create_column_step singlePKColumn) (columns tbldef)
              ("create table " ++ tableName ++ " (", "", pk))
    as [[sql sep] pk'].
  cbn [fst] in Hcols.
  assert (Hfk : forall start,
             head (fst start) = Some "c"%char ->
             head (fst (fold_left create_fk_step (foreign_keys tbldef) start))
             = Some "c"%char).
  { apply (fold_head (fun st : string * string => fst st)).
    intros [s0 p0] x H. cbn [create_fk_step fst]. now apply head_app. }
  destruct pk' as [pk'|].
  - specialize (Hfk (sql ++ sep ++ " primary key ("
                     ++ Js.join ", " (idx_columns pk') ++ ")",
                     next_sep sep ("," ++ nl)) (head_app _ _ _ Hcols)).
    destruct (fold_left create_fk_step (foreign_keys tbldef) _) as [sql' sep'].
    cbn [fst] in Hfk.
    apply (plain_head _ "c"); [apply head_app, Hfk|discriminate].
  - specialize (Hfk (sql, sep) Hcols).
    destruct (fold_left create_fk_step (foreign_keys tbldef) _) as [sql' sep'].
    cbn [fst] in Hfk.
    apply (plain_head _ "c"); [apply head_app, Hfk|discriminate].
Qed.

Lemma plain_getCreateIndexSQLs (tbldef : TableDefinition)
  (tableNameOverride : option string) :
  Forall plain (getCreateIndexSQLs tbldef tableNameOverride).
Proof.
  unfold getCreateIndexSQLs. apply fold_push_Forall; [|constructor].
  intros acc d Hacc.
  destruct (is_c_or_u (idx_origin d)); [|exact Hacc].
  destruct (negb _); [|exact Hacc].
  apply Forall_push; [exact Hacc|apply plain_indexDefinitionToSQL].
Qed.

Lemma plain_insert_on_create_sql (tableName : string) (ioc : Mapping) :
  plain (insert_on_create_sql tableName ioc).
Proof.
  unfold insert_on_create_sql.
  assert (H : forall l acc,
             head (fst (fst acc)) = Some "i"%char ->
             head (fst (fst (fold_left
                               (fun (acc : string * string * string)
                                    (kv : string * Value) =>
                                  let '(sql, sqlend, sep) := acc in
                                  (sql ++ sep ++ fst kv,
                                   sqlend ++ sep ++ quote (snd kv),
                                   next_sep sep ", ")) l acc)))
             = Some "i"%char).
  { apply (fold_head (fun st : string * string * string => fst (fst st))).
    intros [[s0 p0] k0] x H. cbn [fst] in *. now apply head_app. }
  specialize (H ioc ("insert into " ++ tableName ++ " (", ") values (", "")
                eq_refl).
  destruct (fold_left _ ioc _) as [[sql sqlend] sep]. cbn [fst] in H.
  apply (plain_head _ "i"); [apply head_app, H|discriminate].
Qed.

Lemma plain_insert_if_not_exists_sql (tableName : string) (e : IfExists)
  (sql : string) :
  insert_if_not_exists_sql tableName e = Some sql -> plain sql.
Proof.
  destruct (identifiers e) as [|kv ids] eqn:Hids.
  - unfold insert_if_not_exists_sql. rewrite Hids. discriminate.
  - rewrite insert_if_not_exists_sql_text by (rewrite Hids; discriminate).
    intro H. inversion H. plain_literal.
Qed.

Lemma assign_fold_head (link : string) (c : ascii) (m : Mapping)
  (start : string * string) :
  head (fst start) = Some c ->
  head (fst (fold_left (assign_step link) m start)) = Some c.
Proof.
  apply (fold_head (fun st : string * string => fst st)).
  intros [s0 p0] x H. cbn [assign_step fst]. now apply head_app.
Qed.

Lemma plain_update_if_exists_sql (tableName : string) (e : IfExists)
  (sql : string) :
  update_if_exists_sql tableName e = Some sql -> plain sql.
Proof.
  unfold update_if_exists_sql.
  pose proof (assign_fold_head ", " "u" (other_values e)
                ("update " ++ tableName ++ " set ", "") eq_refl) as H1.
  destruct (fold_left (assign_step ", ") (other_values e) _) as [s1 p1].
  cbn [fst] in H1. destruct (String.eqb p1 ""); [discriminate|].
  pose proof (assign_fold_head " and " "u" (identifiers e)
                (s1 ++ " where ", "") (head_app _ _ _ H1)) as H2.
  destruct (fold_left (assign_step " and ") (identifiers e) _) as [s2 p2].
  cbn [fst] in H2. destruct (String.eqb p2 ""); [discriminate|].
  intro H. inversion H; subst. apply (plain_head _ "u"); [exact H2|discriminate].
Qed.

Lemma plain_delete_if_exists_sql (tableName : string) (d : Mapping)
  (sql : string) :
  delete_if_exists_sql tableName d = Some sql -> plain sql.
Proof.
  unfold delete_if_exists_sql.
  pose proof (assign_fold_head " and " "d" d
                ("delete from " ++ tableName ++ " where ", "") eq_refl) as H1.
  destruct (fold_left (assign_step " and ") d _) as [s1 p1].
  cbn [fst] in H1. destruct (String.eqb p1 ""); [discriminate|].
  intro H. inversion H; subst. apply (plain_head _ "d"); [exact H1|discriminate].
Qed.

Lemma collect_Forall {A : Type} (Q : string -> Prop) (f : A -> option string)
  (entries : list A) :
  (forall e sql, f e = Some sql -> Q sql) -> Forall Q (collect f entries).
Proof.
  intro H. induction entries as [|e entries IH]; [constructor|].
  rewrite collect_cons. apply Forall_app. split; [|exact IH].
  destruct (f e) eqn:E; [|constructor]. repeat constructor. now apply (H e).
Qed.

Lemma plain_rewrite_sqls (tbldef : TableDefinition) (tmptn : string)
  (common : list string) :
  Forall plain (rewrite_sqls tbldef tmptn common).
Proof.
  unfold rewrite_sqls. apply Forall_app. split.
  - repeat constructor; try plain_literal. apply plain_getCreateTableSQL.
  - apply plain_getCreateIndexSQLs.
Qed.

Lemma plain_drop_missing_index_sqls (old new : Obj.t IndexDefinition) :
  Forall plain (drop_missing_index_sqls old new).
Proof.
  unfold drop_missing_index_sqls. apply fold_push_Forall; [|constructor].
  intros acc k Hacc. destruct (negb _); [|exact Hacc].
  apply Forall_push; [exact Hacc|plain_literal].
Qed.

Lemma plain_index_diff (tableName : string) (old new : Obj.t IndexDefinition) :
  Forall plain (fst (index_diff tableName old new))
  /\ Forall plain (snd (index_diff tableName old new)).
Proof.
  unfold index_diff.
  assert (H : forall l acc,
             Forall plain (fst acc) /\ Forall plain (snd acc) ->
             Forall plain (fst (fold_left (index_diff_step tableName old) l acc))
             /\ Forall plain
                  (snd (fold_left (index_diff_step tableName old) l acc))).
  { induction l as [|[k ni] l IH]; intros [d c] [Hd Hc]; cbn [fold_left].
    - now split.
    - apply IH. unfold index_diff_step. cbn [fst snd] in *.
      destruct (Obj.has k old).
      + destruct (negb match Obj.get k old with
                       | Some oi => doIndexesMatch oi ni
                       | None => false
                       end); cbn [fst snd]; [|now split].
        split; [apply Forall_push; [exact Hd|plain_literal]|].
        destruct (negb _); [|exact Hc].
        apply Forall_push; [exact Hc|apply plain_indexDefinitionToSQL].
      + cbn [fst snd]. split; [exact Hd|].
        destruct (negb _); [|exact Hc].
        apply Forall_push; [exact Hc|apply plain_indexDefinitionToSQL]. }
  apply H. cbn [fst snd]. split; [apply plain_drop_missing_index_sqls|constructor].
Qed.

(** ** Foreign-key enforcement is restored on the success path only *)

Section Restoration.
Context {W : Type}.
Variable select : option (string -> W -> option (list Row) * W).
Variable execute : option (string -> W -> option unit * W).
Variable now : W -> Z.

Ltac quiet_step :=
  match goal with
  | |- sat (bind _ _) _ _ _ =>
      apply sat_bind with (Q := any_value); [|intros ? _]
  | |- sat (ret _) _ _ _ => apply sat_ret; exact I
  | |- sat (call_select _ _ _) _ _ _ =>
      apply sat_weaken with (Q := fun _ => True);
      [apply sat_call_select; intros; exact I|intros; exact I]
  | |- sat (getTime _ _) _ _ _ =>
      apply sat_weaken with (Q := fun _ => True);
      [apply sat_getTime|intros; exact I]
  end.

Lemma quiet_executeSQLCommands (cmdlist : list string) :
  Forall plain cmdlist ->
  sat (executeSQLCommands W execute cmdlist) no_pragma_executed any_error
    any_value.
Proof.
  intro H. apply sat_weaken with (Q := fun _ => True); [|intros; exact I].
  apply sat_executeSQLCommands; [exact H|exact I|intros; exact I].
Qed.

Lemma quiet_handleDataTransformations (tbldef : TableDefinition) :
  sat (handleDataTransformations W execute tbldef) no_pragma_executed
    any_error any_value.
Proof.
  unfold handleDataTransformations.
  repeat quiet_step; apply quiet_executeSQLCommands; apply collect_Forall.
  - apply plain_insert_if_not_exists_sql.
  - apply plain_update_if_exists_sql.
  - apply plain_delete_if_exists_sql.
Qed.

Lemma quiet_createMissingTable (tbldef : TableDefinition) :
  sat (createMissingTable W execute tbldef) no_pragma_executed any_error
    any_value.
Proof.
  unfold createMissingTable. repeat quiet_step.
  - apply quiet_executeSQLCommands. repeat constructor.
    apply plain_getCreateTableSQL.
  - apply quiet_executeSQLCommands, plain_getCreateIndexSQLs.
  - apply quiet_executeSQLCommands. apply Forall_forall. intros sql Hin.
    apply in_map_iff in Hin. destruct Hin as [ioc [<- _]].
    apply plain_insert_on_create_sql.
  - apply quiet_handleDataTransformations.
Qed.

Lemma quiet_queryIndexColumns (idxdef : IndexDefinition) :
  sat (queryIndexColumns W select idxdef) no_pragma_executed any_error
    any_value.
Proof. unfold queryIndexColumns. repeat quiet_step. Qed.

Lemma quiet_queryAllIndexColumns (old_idxdefs_by_name : Obj.t IndexDefinition) :
  sat (queryAllIndexColumns W select old_idxdefs_by_name) no_pragma_executed
    any_error any_value.
Proof.
  induction old_idxdefs_by_name as [|[k d] rest IH]; cbn.
  - repeat quiet_step.
  - quiet_step; [now apply quiet_queryIndexColumns|].
    quiet_step; [exact IH|]. repeat quiet_step.
Qed.

Lemma quiet_updateExistingTable (tbldef : TableDefinition)
  (old_coldefs : list Row) :
  sat (updateExistingTable W select execute now tbldef old_coldefs)
    no_pragma_executed any_error any_value.
Proof.
  unfold updateExistingTable.
  quiet_step; [apply sat_lift; now destruct (index_old_coldefs _ _ _)|].
  destruct (index_new_indexes (indexes tbldef)) as [new_idxdefs_by_name new_pk].
  destruct (compare_columns _ _ _ _) as [[needTableReWrite common] drop_add].
  quiet_step; [quiet_step|].
  destruct (index_old_indexes _) as [old_idxdefs_by_name old_pk].
  apply sat_bind with (Q := any_value);
    [now apply quiet_queryAllIndexColumns|intros queried _].
  quiet_step.
  { destruct old_pk; repeat quiet_step. now apply quiet_queryIndexColumns. }
  quiet_step; [quiet_step|].
  apply sat_bind with (Q := Forall plain).
  - destruct (needTableReWrite_final _ _ _ _ _).
    + quiet_step; [quiet_step|].
      apply sat_bind with (Q := any_value);
        [apply quiet_executeSQLCommands, plain_rewrite_sqls|intros _ _].
      apply sat_ret. constructor.
    + pose proof (plain_index_diff (tbl_name tbldef) queried
                    new_idxdefs_by_name) as [Hd Hc].
      destruct (index_diff _ _ _) as [drop_idx_sqls create_idx_sqls].
      cbn [fst snd] in *.
      apply sat_bind with (Q := any_value);
        [now apply quiet_executeSQLCommands|intros _ _].
      apply sat_bind with (Q := any_value).
      * destruct (Nat.ltb 0 (length drop_add)); [|quiet_step].
        apply sat_weaken with (Q := fun _ => True); [|intros; exact I].
        apply sat_call_execute; [plain_literal|exact I|intros; exact I].
      * intros _ _. now apply sat_ret.
  - intros create_idx_sqls Hc.
    apply sat_bind with (Q := any_value);
      [now apply quiet_executeSQLCommands|intros _ _].
    apply quiet_handleDataTransformations.
Qed.

End Restoration.

Section RestorationTheorem.
Context {W : Type}.
Variable select : option (string -> W -> option (list Row) * W).
Variable execute : option (string -> W -> option unit * W).
Variable now : W -> Z.








End RestorationTheorem.

(** ** A second run against a catalog that reflects the declaration *)

(** *** Columns *)

Lemma parse_stored_default (d text : option string) :
  stored_default d text -> parseDefaultValue text = Ok d.
Proof.
  destruct d as [v|]; cbn.
  - intros ->. unfold parseDefaultValue.
    replace (String.eqb (Js.toLowerCase (quote (VString v))) "null")
      with false by reflexivity.
    apply unquote_quote_string.
  - intros [->| ->]; reflexivity.
Qed.

Lemma index_old_coldefs_untouched (rows : list Row)
  (m m' : Obj.t ColumnDefinition) (acc pk_cols : list (string * N)) (k : string) :
  index_old_coldefs rows m acc = Ok (m', pk_cols) ->
  ~ In k (map r_name rows) -> Obj.get k m' = Obj.get k m.
Proof.
  revert m acc. induction rows as [|r rows IH]; intros m acc H Hk.
  - cbn in H. now inversion H.
  - cbn [index_old_coldefs] in H.
    destruct (parseDefaultValue (r_dflt_value r)) as [d|e]; [|discriminate].
    rewrite (IH _ _ H) by (intro; apply Hk; now right).
    rewrite Obj_get_set.
    destruct (String.eqb_spec k (r_name r)) as [->|_]; [|reflexivity].
    exfalso. apply Hk. now left.
Qed.

Lemma index_old_coldefs_total (rows : list Row)
  (m : Obj.t ColumnDefinition) (acc : list (string * N)) :
  (forall r, In r rows -> exists d, parseDefaultValue (r_dflt_value r) = Ok d) ->
  exists m' pk_cols, index_old_coldefs rows m acc = Ok (m', pk_cols).
Proof.
  revert m acc. induction rows as [|r rows IH]; intros m acc H.
  - now exists m, acc.
  - cbn [index_old_coldefs].
    destruct (H r (or_introl eq_refl)) as [d ->].
    apply IH. intros r' Hr'. apply H. now right.
Qed.

Lemma index_old_coldefs_get (rows : list Row)
  (m m' : Obj.t ColumnDefinition) (acc pk_cols : list (string * N)) (r : Row) :
  index_old_coldefs rows m acc = Ok (m', pk_cols) ->
  NoDup (map r_name rows) -> In r rows ->
  exists d, parseDefaultValue (r_dflt_value r) = Ok d
            /\ Obj.get (r_name r) m' = Some (live_column r d).
Proof.
  revert m acc. induction rows as [|r0 rows IH]; intros m acc H Hnd Hin.
  - contradiction.
  - cbn [index_old_coldefs] in H. inversion Hnd as [|? ? Hfresh Hnd']; subst.
    destruct (parseDefaultValue (r_dflt_value r0)) as [d|e] eqn:Ed;
      [|discriminate].
    destruct Hin as [->|Hin].
    + exists d. split; [exact Ed|].
      rewrite (index_old_coldefs_untouched _ _ _ _ _ _ H Hfresh).
      rewrite Obj_get_set, String.eqb_refl. reflexivity.
    + now apply (IH _ _ H).
Qed.

Lemma index_old_coldefs_keys (rows : list Row)
  (m m' : Obj.t ColumnDefinition) (acc pk_cols : list (string * N)) (k : string) :
  index_old_coldefs rows m acc = Ok (m', pk_cols) ->
  Obj.own k m' = true -> Obj.own k m = true \/ In k (map r_name rows).
Proof.
  revert m acc. induction rows as [|r rows IH]; intros m acc H Hk.
  - cbn in H. inversion H; subst. now left.
  - cbn [index_old_coldefs] in H.
    destruct (parseDefaultValue (r_dflt_value r)) as [d|e]; [|discriminate].
    destruct (IH _ _ H Hk) as [Hset|Hin]; [|right; now right].
    rewrite Obj_own_get, Obj_get_set in Hset.
    destruct (String.eqb_spec k (r_name r)) as [->|_].
    + right. now left.
    + left. now rewrite Obj_own_get.
Qed.

Lemma drop_fold_none (new : Obj.t ColumnDefinition) (ks acc : list string) :
  (forall k, In k ks -> Obj.own k new = true) ->
  fold_left
    (fun sqls k =>
       if negb (Obj.has k new)
       then Js.push sqls ("drop column " ++ k) else sqls) ks acc = acc.
Proof.
  revert acc. induction ks as [|k ks IH]; intros acc H; [reflexivity|].
  cbn [fold_left]. rewrite (Obj_own_has _ _ (H k (or_introl eq_refl))).
  cbn [negb].
  apply IH. intros k' Hk'. apply H. now right.
Qed.

Lemma compare_fold_same (old : Obj.t ColumnDefinition)
  (new_pk : option IndexDefinition) (new : Obj.t ColumnDefinition)
  (common sqls : list string) :
  (forall k n, In (k, n) new ->
     exists o, Obj.get k old = Some o /\ column_differs new_pk k o n = false) ->
  fold_left (compare_step old new_pk) new (false, common, sqls)
  = (false, (common ++ map fst new)%list, sqls).
Proof.
  revert common. induction new as [|[k n] new IH]; intros common H.
  - cbn. now rewrite app_nil_r.
  - cbn [fold_left compare_step]. rewrite Obj_has_get.
    destruct (H k n (or_introl eq_refl)) as [o [-> Hsame]].
    rewrite Hsame. cbn [negb andb]. rewrite IH.
    + unfold Js.push. now rewrite <- app_assoc.
    + intros k' n' Hin. apply H. now right.
Qed.

Section SettledColumns.
Variable t : TableDefinition.
Variable c : Catalog.
Hypothesis Hwf : WellFormed t.
Hypothesis Hrf : Reflects t c.

Lemma settled_defaults_parse (r : Row) :
  In r (table_info c) ->
  exists d, parseDefaultValue (r_dflt_value r) = Ok d.
Proof.
  intro Hin. destruct (rf_columns t c Hrf r Hin) as [col [_ Hcol]].
  destruct (is_pk_auto_int_col (declared_pk t) (r_name r) col) eqn:Ea.
  - apply is_pk_auto_int_col_spec in Ea.
    rewrite (cr_rowid t r col Hcol Ea). now exists None.
  - assert (Hn : ~ sole_integer_primary_key (declared_pk t) (r_name r) col).
    { rewrite <- is_pk_auto_int_col_spec. congruence. }
    destruct (cr_declared t r col Hcol Hn) as [_ Hd].
    exists (col_dflt_value col). now apply parse_stored_default.
Qed.

Lemma settled_index_old_coldefs :
  exists m pk_cols,
    index_old_coldefs (table_info c) [] [] = Ok (m, pk_cols)
    /\ pk_cols = map pk_entry (pk_rows (table_info c))
    /\ (forall k, Obj.own k m = true -> Obj.own k (declared_columns t) = true)
    /\ (forall k n, Obj.get k (declared_columns t) = Some n ->
          exists o, Obj.get k m = Some o
                    /\ column_differs (declared_pk t) k o n = false).
Proof.
  destruct (index_old_coldefs_total (table_info c) [] [] settled_defaults_parse)
    as (m & pk_cols & Hidx).
  exists m, pk_cols. split; [exact Hidx|]. split; [|split].
  - now apply index_old_coldefs_pk_cols in Hidx.
  - intros k Hk.
    destruct (index_old_coldefs_keys _ _ _ _ _ _ Hidx Hk) as [Hnil|Hin];
      [discriminate Hnil|].
    apply in_map_iff in Hin. destruct Hin as [r [<- Hr]].
    destruct (rf_columns t c Hrf r Hr) as [col [Hcol _]].
    now rewrite Obj_own_get, Hcol.
  - intros k n Hn.
    destruct (rf_all_columns t c Hrf k n Hn) as [r [Hr <-]].
    destruct (index_old_coldefs_get _ _ _ _ _ r Hidx (rf_names t c Hrf) Hr)
      as [d [Hd Hget]].
    exists (live_column r d). split; [exact Hget|].
    destruct (rf_columns t c Hrf r Hr) as [col [Hcol Hreflects]].
    rewrite Hn in Hcol. inversion Hcol; subst col.
    unfold column_differs. cbn [live_column col_type col_notnull col_dflt_value].
    rewrite (cr_type t r n Hreflects), String.eqb_refl. cbn [negb orb].
    destruct (is_pk_auto_int_col (declared_pk t) (r_name r) n) eqn:Ea.
    + assert (Hp : is_pk_col (declared_pk t) (r_name r) = true).
      { unfold is_pk_auto_int_col in Ea.
        apply andb_true_iff in Ea. destruct Ea as [Ea _].
        now apply andb_true_iff in Ea. }
      rewrite Hp. reflexivity.
    + assert (Hna : ~ sole_integer_primary_key (declared_pk t) (r_name r) n).
      { rewrite <- is_pk_auto_int_col_spec. congruence. }
      destruct (cr_declared t r n Hreflects Hna) as [Hnn Hdf].
      apply parse_stored_default in Hdf. rewrite Hdf in Hd.
      inversion Hd; subst d.
      rewrite Hnn, Bool.eqb_reflx.
      assert (Hrefl : option_string_eqb (col_dflt_value n) (col_dflt_value n)
                      = true) by now apply option_string_eqb_spec.
      rewrite Hrefl. cbn [negb andb orb]. now rewrite !andb_false_r.
Qed.

(** The column loop schedules nothing and leaves the flag clear. *)
Lemma settled_columns (m : Obj.t ColumnDefinition) (pk_cols : list (string * N)) :
  index_old_coldefs (table_info c) [] [] = Ok (m, pk_cols) ->
  compare_columns m (declared_columns t) (declared_pk t)
    (drop_column_sqls m (declared_columns t))
  = (false, Obj.keys (declared_columns t), []).
Proof.
  intro Hidx.
  destruct settled_index_old_coldefs as (m' & pk' & Hidx' & _ & Hkeys & Hsame).
  rewrite Hidx in Hidx'. inversion Hidx'; subst m' pk'.
  assert (Hdrop : drop_column_sqls m (declared_columns t) = []).
  { unfold drop_column_sqls. apply drop_fold_none. intros k Hk.
    apply Hkeys. now apply Obj_own_In. }
  rewrite Hdrop. unfold compare_columns. rewrite compare_fold_same.
  - reflexivity.
  - intros k n Hin. apply Hsame.
    apply Obj_get_In; [apply index_new_coldefs_NoDup|exact Hin].
Qed.

End SettledColumns.

(** *** Indexes *)

Lemma index_old_fold_has (rows : list Row)
  (acc : Obj.t IndexDefinition * option IndexDefinition) (k : string) :
  Obj.own k (fst acc) = true
  \/ (exists r, In r rows /\ is_c_or_u (r_origin r) = true /\ r_name r = k) ->
  Obj.own k (fst (fold_left index_old_step rows acc)) = true.
Proof.
  revert acc. induction rows as [|r rows IH]; intros [m p] H.
  - destruct H as [H|[r [[] _]]]. exact H.
  - cbn [fold_left]. apply IH. unfold index_old_step.
    destruct (is_c_or_u (r_origin r)) eqn:Ecu.
    + cbn [fst]. rewrite Obj_own_get, Obj_get_set.
      destruct (String.eqb_spec k (r_name r)) as [->|Hne]; [now left|].
      destruct H as [H|[r' [[->|Hin] [Hcu Hk]]]].
      * left. now rewrite <- Obj_own_get.
      * now symmetry in Hk.
      * right. now exists r'.
    + destruct H as [H|[r' [[->|Hin] [Hcu Hk]]]].
      * left. now destruct (String.eqb (r_origin r) "pk").
      * congruence.
      * right. now exists r'.
Qed.

Lemma index_old_fold_entries (rows : list Row)
  (acc : Obj.t IndexDefinition * option IndexDefinition)
  (k : string) (e : IndexDefinition) :
  Obj.get k (fst (fold_left index_old_step rows acc)) = Some e ->
  Obj.get k (fst acc) = Some e
  \/ (exists r, In r rows /\ is_c_or_u (r_origin r) = true /\ r_name r = k
                /\ e = listed_index r).
Proof.
  revert acc. induction rows as [|r rows IH]; intros [m p] H.
  - now left.
  - cbn [fold_left] in H. apply IH in H.
    destruct H as [H|[r' (Hin & Hcu & Hk & He)]];
      [|right; exists r'; repeat split; try assumption; now right].
    unfold index_old_step in H.
    destruct (is_c_or_u (r_origin r)) eqn:Ecu.
    + cbn [fst] in H. rewrite Obj_get_set in H.
      destruct (String.eqb_spec k (r_name r)) as [->|Hne]; [|now left].
      right. exists r. inversion H.
      repeat split; try assumption; try reflexivity. now left.
    + left. now destruct (String.eqb (r_origin r) "pk").
Qed.

Lemma index_old_fold_listed_pk (rows : list Row)
  (acc : Obj.t IndexDefinition * option IndexDefinition) (e : IndexDefinition) :
  snd (fold_left index_old_step rows acc) = Some e ->
  snd acc = Some e
  \/ (exists r, In r rows /\ r_origin r = "pk" /\ e = listed_pk r).
Proof.
  revert acc. induction rows as [|r rows IH]; intros [m p] H.
  - now left.
  - cbn [fold_left] in H. apply IH in H.
    destruct H as [H|[r' (Hin & Ho & He)]];
      [|right; exists r'; repeat split; try assumption; now right].
    unfold index_old_step in H.
    destruct (is_c_or_u (r_origin r)); [now left|].
    destruct (String.eqb_spec (r_origin r) "pk") as [E|E]; [|now left].
    cbn [snd] in H. inversion H. right. exists r.
    repeat split; try assumption; try reflexivity. now left.
Qed.

Lemma index_new_fold_keys_NoDup (indexes : list IndexDefinition)
  (acc : Obj.t IndexDefinition * option IndexDefinition) :
  NoDup (Obj.keys (fst acc)) ->
  NoDup (Obj.keys (fst (fold_left index_new_step indexes acc))).
Proof.
  revert acc. induction indexes as [|d indexes IH]; intros [m p] H.
  - exact H.
  - cbn [fold_left]. apply IH. unfold index_new_step.
    destruct (is_c_or_u (idx_origin d)).
    + cbn [fst]. now apply Obj_set_NoDup.
    + now destruct (String.eqb (idx_origin d) "pk").
Qed.

Lemma declared_indexes_NoDup (t : TableDefinition) :
  NoDup (Obj.keys (declared_indexes t)).
Proof. apply index_new_fold_keys_NoDup. constructor. Qed.

Lemma Obj_get_map {V : Type} (g : V -> V) (k : string) (o : Obj.t V) :
  Obj.get k (map (fun kv => (fst kv, g (snd kv))) o)
  = option_map g (Obj.get k o).
Proof.
  induction o as [|[k' v] o IH]; [reflexivity|].
  cbn. now destruct (String.eqb k k').
Qed.

Lemma Obj_keys_map {V : Type} (g : V -> V) (o : Obj.t V) :
  Obj.keys (map (fun kv => (fst kv, g (snd kv))) o) = Obj.keys o.
Proof. unfold Obj.keys. rewrite map_map. reflexivity. Qed.

Lemma drop_index_fold_none (new : Obj.t IndexDefinition) (ks acc : list string) :
  (forall k, In k ks -> Obj.own k new = true) ->
  fold_left
    (fun sqls k =>
       if negb (Obj.has k new)
       then Js.push sqls ("drop index " ++ k) else sqls) ks acc = acc.
Proof.
  revert acc. induction ks as [|k ks IH]; intros acc H; [reflexivity|].
  cbn [fold_left]. rewrite (Obj_own_has _ _ (H k (or_introl eq_refl))).
  cbn [negb].
  apply IH. intros k' Hk'. apply H. now right.
Qed.

Lemma index_diff_fold_same (tableName : string) (old new : Obj.t IndexDefinition)
  (acc : list string * list string) :
  (forall k ni, In (k, ni) new ->
     exists oi, Obj.get k old = Some oi /\ doIndexesMatch oi ni = true) ->
  fold_left (index_diff_step tableName old) new acc = acc.
Proof.
  revert acc. induction new as [|[k ni] new IH]; intros [d cr] H.
  - reflexivity.
  - cbn [fold_left]. unfold index_diff_step at 2. rewrite Obj_has_get.
    destruct (H k ni (or_introl eq_refl)) as [oi [-> Hm]]. rewrite Hm.
    cbn [negb]. apply IH. intros k' n' Hin. apply H. now right.
Qed.

Section SettledIndexes.
Variable t : TableDefinition.
Variable c : Catalog.
Hypothesis Hrf : Reflects t c.

Lemma settled_listed_index (k : string) (e : IndexDefinition) :
  Obj.get k (fst (index_old_indexes (index_list c))) = Some e ->
  exists r, In r (index_list c) /\ is_c_or_u (r_origin r) = true
            /\ r_name r = k /\ e = listed_index r.
Proof.
  intro H. apply index_old_fold_entries in H.
  destruct H as [H|H]; [discriminate H|exact H].
Qed.

Lemma reflected_origin (r : Row) (cols : list string) (d : IndexDefinition) :
  IndexReflects r cols d -> idx_origin (listed_index r) = idx_origin d.
Proof.
  intros [_ [[Hd [Hr|[Hr [u [Hu Hnz]]]]]|[Hd [Hr [Hu|Hu]]]]];
    unfold listed_index; cbn [idx_origin]; rewrite Hr, Hd; cbn;
    try reflexivity; rewrite Hu; try reflexivity.
  apply Z.eqb_neq in Hnz. now rewrite Hnz.
Qed.

(** No index is dropped or created. *)
Lemma settled_indexes :
  index_diff (tbl_name t)
    (queried (index_info c) (fst (index_old_indexes (index_list c))))
    (declared_indexes t)
  = ([], []).
Proof.
  unfold index_diff.
  assert (Hdrop : drop_missing_index_sqls
                    (queried (index_info c)
                       (fst (index_old_indexes (index_list c))))
                    (declared_indexes t) = []).
  { unfold drop_missing_index_sqls. apply drop_index_fold_none.
    intros k Hk. unfold queried in Hk. rewrite Obj_keys_map in Hk.
    apply Obj_own_In in Hk. rewrite Obj_own_get in Hk.
    destruct (Obj.get k (fst (index_old_indexes (index_list c)))) as [e|] eqn:Ee;
      [|discriminate].
    destruct (settled_listed_index k e Ee) as (r & Hr & Hcu & <- & _).
    destruct (rf_indexes t c Hrf r Hr Hcu) as [d [Hd _]].
    now rewrite Obj_own_get, Hd. }
  rewrite Hdrop. apply index_diff_fold_same. intros k ni Hin.
  apply (Obj_get_In k ni _ (declared_indexes_NoDup t)) in Hin.
  destruct (rf_all_indexes t c Hrf k ni Hin) as (r & Hr & Hcu & Hk).
  assert (Hhas : Obj.own k (fst (index_old_indexes (index_list c))) = true).
  { apply index_old_fold_has. right. now exists r. }
  rewrite Obj_own_get in Hhas.
  destruct (Obj.get k (fst (index_old_indexes (index_list c)))) as [e|] eqn:Ee;
    [|discriminate].
  destruct (settled_listed_index k e Ee) as (r' & Hr' & Hcu' & Hk' & ->).
  unfold queried. rewrite Obj_get_map, Ee. cbn [option_map snd].
  eexists. split; [reflexivity|]. unfold fill.
  destruct (rf_indexes t c Hrf r' Hr' Hcu') as [d [Hd Hreflects]].
  rewrite Hk', Hin in Hd. inversion Hd; subst d.
  apply doIndexesMatch_spec. unfold with_columns.
  cbn [idx_origin idx_columns idx_name listed_index app].
  split.
  - exact (reflected_origin _ _ _ Hreflects).
  - now destruct Hreflects as [-> _].
Qed.

End SettledIndexes.

(** *** Primary key *)

Lemma ordinal_zero_iff (k : string) (l : list string) :
  ordinal k l = 0%N <-> ~ In k l.
Proof.
  induction l as [|x l IH]; cbn.
  - tauto.
  - destruct (String.eqb_spec k x) as [->|Hne].
    + split; [discriminate|]. intro H. exfalso. apply H. now left.
    + destruct (ordinal k l) as [|p] eqn:E.
      * split; [|reflexivity]. intros _ [H|H]; [congruence|].
        now apply (proj1 IH).
      * split; [lia|]. intro H. exfalso. apply H. right.
        destruct (in_dec string_dec k l) as [Hin|Hout]; [exact Hin|].
        apply IH in Hout. discriminate.
Qed.

Lemma number_fst (i : N) (l : list string) : map fst (number i l) = l.
Proof.
  revert i. induction l as [|x l IH]; intro i; cbn; [reflexivity|].
  now rewrite IH.
Qed.

Lemma number_ge (i j : N) (k : string) (l : list string) :
  In (k, j) (number i l) -> (i <= j)%N.
Proof.
  revert i. induction l as [|x l IH]; intros i; cbn; [tauto|].
  intros [H|H]; [inversion H; lia|]. apply IH in H. lia.
Qed.

Lemma number_In (i j : N) (k : string) (l : list string) :
  NoDup l ->
  (In (k, j) (number i l)
   <-> ordinal k l <> 0%N /\ j = (i + ordinal k l - 1)%N).
Proof.
  intro Hnd. revert i. induction Hnd as [|x l Hx Hnd IH]; intro i; cbn.
  - split; [tauto|]. intros [H _]. now contradiction H.
  - destruct (String.eqb_spec k x) as [->|Hne].
    + split.
      * intros [H|H].
        -- inversion H. split; [discriminate|lia].
        -- exfalso. apply Hx. rewrite <- (number_fst (N.succ i) l).
           change x with (fst (x, j)). now apply in_map.
      * intros [_ ->]. left. f_equal. lia.
    + rewrite IH. destruct (ordinal k l) as [|p].
      * split; [intros [H|[H _]]; [congruence|now contradiction H]
               |intros [H _]; now contradiction H].
      * split.
        -- intros [H|[_ ->]]; [congruence|]. split; lia.
        -- intros [_ ->]. right. split; lia.
Qed.

Lemma number_sorted (i : N) (l : list string) :
  StronglySorted (fun a b : string * N => (snd a <= snd b)%N) (number i l).
Proof.
  revert i. induction l as [|x l IH]; intro i; cbn; constructor.
  - apply IH.
  - apply Forall_forall. intros [k j] Hin. apply number_ge in Hin. cbn. lia.
Qed.

Lemma number_key_injective (i : N) (l : list string) (a b : string * N) :
  NoDup l -> In a (number i l) -> In b (number i l) -> snd a = snd b -> a = b.
Proof.
  intros Hnd. revert i. induction Hnd as [|x l Hx Hnd IH]; intro i; cbn.
  - tauto.
  - intros [<-|Ha] [<-|Hb] E; cbn in *.
    + reflexivity.
    + destruct b as [k j]. apply number_ge in Hb. cbn in E. lia.
    + destruct a as [k j]. apply number_ge in Ha. cbn in E. lia.
    + now apply (IH (N.succ i)).
Qed.

Lemma insert_by_idx_perm (a : string * N) (l : list (string * N)) :
  Permutation (insert_by_idx a l) (a :: l).
Proof.
  induction l as [|b l IH]; cbn; [reflexivity|].
  destruct (N.leb (snd a) (snd b)); [reflexivity|].
  rewrite IH. apply perm_swap.
Qed.

Lemma sort_by_idx_perm (l : list (string * N)) : Permutation (sort_by_idx l) l.
Proof.
  induction l as [|a l IH]; cbn; [reflexivity|].
  rewrite insert_by_idx_perm. now constructor.
Qed.

Lemma insert_by_idx_sorted (a : string * N) (l : list (string * N)) :
  StronglySorted (fun x y : string * N => (snd x <= snd y)%N) l ->
  StronglySorted (fun x y : string * N => (snd x <= snd y)%N)
    (insert_by_idx a l).
Proof.
  induction 1 as [|b l Hs IH Hb]; cbn.
  - repeat constructor.
  - destruct (N.leb_spec (snd a) (snd b)) as [Hle|Hgt].
    + constructor; [now constructor|].
      constructor; [exact Hle|].
      eapply Forall_impl; [|exact Hb]. cbn. intros; lia.
    + constructor; [exact IH|].
      eapply Permutation_Forall; [symmetry; apply insert_by_idx_perm|].
      constructor; [lia|exact Hb].
Qed.

Lemma sort_by_idx_sorted (l : list (string * N)) :
  StronglySorted (fun x y : string * N => (snd x <= snd y)%N) (sort_by_idx l).
Proof.
  induction l as [|a l IH]; cbn; [constructor|].
  now apply insert_by_idx_sorted.
Qed.

(** Two sorted arrangements of the same entries coincide when equal keys
    mean equal entries. *)
Lemma sorted_arrangement_unique (l1 l2 : list (string * N)) :
  StronglySorted (fun x y : string * N => (snd x <= snd y)%N) l1 ->
  StronglySorted (fun x y : string * N => (snd x <= snd y)%N) l2 ->
  Permutation l1 l2 ->
  (forall a b, In a l2 -> In b l2 -> snd a = snd b -> a = b) ->
  l1 = l2.
Proof.
  intros H1. revert l2. induction H1 as [|a l1 Hs1 IH Ha]; intros l2 H2 Hp Hinj.
  - apply Permutation_nil in Hp. now subst.
  - destruct l2 as [|b l2];
      [apply Permutation_sym, Permutation_nil in Hp; discriminate|].
    inversion H2 as [|? ? Hs2 Hb]; subst.
    assert (Hab : a = b).
    { assert (Ha2 : In a (b :: l2))
        by (eapply Permutation_in; [exact Hp|now left]).
      assert (Hb1 : In b (a :: l1))
        by (eapply Permutation_in; [symmetry; exact Hp|now left]).
      destruct Ha2 as [E|Ha2]; [now symmetry|].
      destruct Hb1 as [E|Hb1]; [exact E|].
      apply Hinj; [now right|now left|].
      rewrite Forall_forall in Ha, Hb.
      specialize (Ha b Hb1). specialize (Hb a Ha2). lia. }
    subst b. f_equal. apply IH.
    + exact Hs2.
    + now apply Permutation_cons_inv in Hp.
    + intros x y Hx Hy. apply Hinj; now right.
Qed.

Section SettledPrimaryKey.
Variable t : TableDefinition.
Variable c : Catalog.
Hypothesis Hwf : WellFormed t.
Hypothesis Hrf : Reflects t c.

Lemma settled_pk_position (r : Row) :
  In r (table_info c) -> r_pk r = ordinal (r_name r) (pk_columns t).
Proof.
  intro Hr. destruct (rf_columns t c Hrf r Hr) as [col [_ Hcol]].
  exact (cr_pk t r col Hcol).
Qed.

(** The positions reported by the column-info rows spell out the
    declared primary key. *)
Lemma settled_pk_cols :
  old_pk_cols_from_table_info (map pk_entry (pk_rows (table_info c)))
  = pk_columns t.
Proof.
  unfold old_pk_cols_from_table_info.
  rewrite (sorted_arrangement_unique
             (sort_by_idx (map pk_entry (pk_rows (table_info c))))
             (number 0 (pk_columns t))).
  - apply number_fst.
  - apply sort_by_idx_sorted.
  - apply number_sorted.
  - rewrite sort_by_idx_perm. apply NoDup_Permutation.
    + apply (NoDup_map_inv fst). rewrite map_map. cbn [pk_entry fst].
      unfold pk_rows.
      assert (Hsub : forall l, NoDup (map r_name l) ->
                NoDup (map r_name
                         (filter (fun r => negb (N.eqb (r_pk r) 0)) l))).
      { induction l as [|r l IHl]; cbn; [constructor|].
        intro Hnd. inversion Hnd as [|? ? Hfresh Hnd']; subst.
        destruct (negb (N.eqb (r_pk r) 0)); cbn; [|now apply IHl].
        constructor; [|now apply IHl].
        intro Hin. apply Hfresh. apply in_map_iff in Hin.
        destruct Hin as [r' [E Hr']]. apply filter_In in Hr'.
        rewrite <- E. apply in_map. tauto. }
      apply Hsub, (rf_names t c Hrf).
    + apply (NoDup_map_inv fst). rewrite number_fst.
      exact (wf_pk_nodup t Hwf).
    + intros [k j]. rewrite (number_In 0 j k _ (wf_pk_nodup t Hwf)). split.
      * intro Hin. apply in_map_iff in Hin. destruct Hin as [r [E Hr]].
        apply filter_In in Hr. destruct Hr as [Hr Hpos].
        apply negb_true_iff, N.eqb_neq in Hpos.
        inversion E; subst k j.
        rewrite <- (settled_pk_position r Hr). split; [exact Hpos|lia].
      * intros [Hpos ->].
        assert (Hk : In k (pk_columns t)).
        { destruct (in_dec string_dec k (pk_columns t)) as [H|H]; [exact H|].
          apply ordinal_zero_iff in H. contradiction. }
        pose proof (wf_pk_declared t Hwf k Hk) as Hdecl.
        rewrite Obj_own_get in Hdecl.
        destruct (Obj.get k (declared_columns t)) as [col|] eqn:Ecol;
          [|discriminate].
        destruct (rf_all_columns t c Hrf k col Ecol) as [r [Hr Hname]].
        apply in_map_iff. exists r. split.
        -- unfold pk_entry. rewrite (settled_pk_position r Hr), Hname.
           f_equal; lia.
        -- apply filter_In. split; [exact Hr|].
           apply negb_true_iff, N.eqb_neq.
           now rewrite (settled_pk_position r Hr), Hname.
  - intros a b. apply number_key_injective. exact (wf_pk_nodup t Hwf).
Qed.

(** The introspected primary key agrees with the declared one. *)
Lemma settled_primary_key :
  primary_key_differs
    (pk_fallback
       (option_map (fill (index_info c)) (snd (index_old_indexes (index_list c))))
       (old_pk_cols_from_table_info (map pk_entry (pk_rows (table_info c)))))
    (declared_pk t)
  = false.
Proof.
  rewrite settled_pk_cols.
  destruct (snd (index_old_indexes (index_list c))) as [e|] eqn:Ee.
  - apply index_old_fold_listed_pk in Ee.
    destruct Ee as [Ee|(r & Hr & Ho & ->)]; [discriminate Ee|].
    destruct (rf_pk t c Hrf r Hr Ho) as [pk [Hpk Hcols]].
    rewrite Hpk. cbn [option_map pk_fallback primary_key_differs].
    apply negb_false_iff, doIndexesMatch_spec.
    unfold fill, with_columns, listed_pk. cbn [idx_origin idx_columns idx_name app].
    split; [|exact Hcols].
    rewrite Ho. symmetry. now apply (index_new_indexes_pk_origin (indexes t)).
  - cbn [option_map pk_fallback]. unfold pk_columns.
    destruct (declared_pk t) as [pk|] eqn:Hpk; [|reflexivity].
    pose proof (wf_pk_nonempty t Hwf pk Hpk) as Hne.
    destruct (idx_columns pk) as [|k ks] eqn:Ek; [contradiction|].
    cbn [length Nat.ltb Nat.leb primary_key_differs].
    apply negb_false_iff, doIndexesMatch_spec. cbn [idx_origin idx_columns].
    split; [|now symmetry].
    symmetry. now apply (index_new_indexes_pk_origin (indexes t)).
Qed.

End SettledPrimaryKey.

(** *** Foreign keys *)

Lemma fk_known_last (id : Z) (cur : ForeignKeyDefinition)
  (acc : list (Z * ForeignKeyDefinition)) :
  existsb (fun e => Z.eqb id (fst e)) (acc ++ [(id, cur)]) = true.
Proof.
  rewrite existsb_app. cbn. rewrite Z.eqb_refl. now rewrite orb_true_r.
Qed.

Lemma fk_unknown (id : Z) (acc : list (Z * ForeignKeyDefinition)) :
  ~ In id (map fst acc) -> existsb (fun e => Z.eqb id (fst e)) acc = false.
Proof.
  intro H. apply not_true_is_false. intro Hex. apply existsb_exists in Hex.
  destruct Hex as [e [Hin He]]. apply Z.eqb_eq in He. apply H. subst id.
  now apply in_map.
Qed.

Lemma fk_push_reference_last (id : Z) (ref : Reference)
  (fk : ForeignKeyDefinition) (refs : list Reference)
  (acc : list (Z * ForeignKeyDefinition)) :
  ~ In id (map fst acc) ->
  fk_push_reference id ref (acc ++ [(id, live_fk fk refs)])%list
  = (acc ++ [(id, live_fk fk (refs ++ [ref]))])%list.
Proof.
  induction acc as [|[id' fk'] acc IH]; intro H; cbn.
  - rewrite Z.eqb_refl. reflexivity.
  - destruct (Z.eqb_spec id id') as [->|_].
    + exfalso. apply H. now left.
    + rewrite IH; [reflexivity|]. intro Hin. apply H. now right.
Qed.

Lemma fk_group_more (id : Z) (fk : ForeignKeyDefinition)
  (more refs : list Reference) (acc : list (Z * ForeignKeyDefinition)) :
  ~ In id (map fst acc) ->
  fold_left fk_group_step
    (map (fun ref => Pragma.fk_row id (fk_table fk) (ref_from ref) (ref_to ref)
                       (getFKAction (fk_on_update fk))
                       (getFKAction (fk_on_delete fk))) more)
    (acc ++ [(id, live_fk fk refs)])%list
  = (acc ++ [(id, live_fk fk (refs ++ more))])%list.
Proof.
  intro H. revert refs. induction more as [|ref more IH]; intro refs.
  - cbn. now rewrite app_nil_r.
  - cbn [map fold_left]. unfold fk_group_step at 2.
    cbn [Pragma.fk_row r_id r_from r_to].
    rewrite fk_known_last, fk_push_reference_last by exact H.
    destruct ref as [from to]. cbn [ref_from ref_to].
    rewrite IH. now rewrite <- app_assoc.
Qed.

Lemma fk_group_one (id : Z) (fk : ForeignKeyDefinition)
  (acc : list (Z * ForeignKeyDefinition)) :
  ~ In id (map fst acc) -> fk_references fk <> [] ->
  fold_left fk_group_step (fk_rows id fk) acc
  = (acc ++ [(id, live_fk fk (fk_references fk))])%list.
Proof.
  intros H Hne. unfold fk_rows.
  destruct (fk_references fk) as [|[from to] more]; [contradiction|].
  cbn [map fold_left]. unfold fk_group_step at 2.
  cbn [Pragma.fk_row r_id r_from r_to r_table r_on_update r_on_delete
         ref_from ref_to].
  rewrite fk_unknown by exact H. unfold Js.push.
  change {| fk_table := fk_table fk;
            fk_references := [{| ref_from := from; ref_to := to |}];
            fk_on_update := Some (getFKAction (fk_on_update fk));
            fk_on_delete := Some (getFKAction (fk_on_delete fk)) |}
    with (live_fk fk [{| ref_from := from; ref_to := to |}]).
  now rewrite fk_group_more.
Qed.

Lemma fk_group_all (keyed acc : list (Z * ForeignKeyDefinition)) :
  NoDup (map fst acc ++ map fst keyed) ->
  (forall e, In e keyed -> fk_references (snd e) <> []) ->
  fold_left fk_group_step
    (flat_map (fun e => fk_rows (fst e) (snd e)) keyed) acc
  = (acc ++ map (fun e => (fst e, live_fk (snd e) (fk_references (snd e))))
              keyed)%list.
Proof.
  revert acc. induction keyed as [|[id fk] keyed IH]; intros acc Hnd Hne.
  - cbn. now rewrite app_nil_r.
  - cbn [flat_map map fst snd]. rewrite fold_left_app.
    rewrite fk_group_one.
    + rewrite IH.
      * now rewrite <- app_assoc.
      * rewrite map_app. cbn [map fst]. rewrite <- app_assoc. exact Hnd.
      * intros e He. apply Hne. now right.
    + cbn [map fst] in Hnd. apply NoDup_remove_2 in Hnd.
      intro Hin. apply Hnd. apply in_or_app. now left.
    + apply (Hne (id, fk)). now left.
Qed.

Lemma live_fk_matches (fk : ForeignKeyDefinition) :
  doForeignKeysMatch (live_fk fk (fk_references fk)) fk = true.
Proof. apply doForeignKeysMatch_spec. repeat split. Qed.

Section SettledForeignKeys.
Variable t : TableDefinition.
Variable c : Catalog.
Hypothesis Hwf : WellFormed t.
Hypothesis Hrf : Reflects t c.

(** The grouped live foreign keys match the declared ones. *)
Lemma settled_foreign_keys :
  foreign_keys_differ (group_foreign_keys (foreign_key_list c)) (foreign_keys t)
  = false.
Proof.
  destruct (rf_fks t c Hrf) as (keyed & Hnd & Hperm & ->).
  unfold group_foreign_keys. rewrite fk_group_all.
  - cbn [app]. rewrite map_map. cbn [snd].
    unfold foreign_keys_differ. rewrite length_map.
    rewrite <- (length_map snd keyed), (Permutation_length Hperm).
    rewrite Nat.eqb_refl. cbn [negb].
    apply not_true_is_false. intro Hex. apply existsb_exists in Hex.
    destruct Hex as [o [Hin Ho]]. apply in_map_iff in Hin.
    destruct Hin as [[id fk] [<- Hin]]. cbn [snd] in Ho.
    apply negb_true_iff in Ho.
    assert (Hm : existsb (doForeignKeysMatch (live_fk fk (fk_references fk)))
                   (foreign_keys t) = true); [|congruence].
    apply existsb_exists. exists fk. split; [|apply live_fk_matches].
    eapply Permutation_in; [exact Hperm|].
    change fk with (snd (id, fk)). now apply in_map.
  - exact Hnd.
  - intros [id fk] Hin. apply (wf_fk_references t Hwf).
    eapply Permutation_in; [exact Hperm|].
    change fk with (snd (id, fk)). now apply in_map.
Qed.

End SettledForeignKeys.

(** *** The run *)

Lemma index_new_coldefs_has (cols : list ColumnDefinition)
  (acc : Obj.t ColumnDefinition) (k : string) :
  Obj.own k acc = true \/ In k (map col_name cols) ->
  Obj.own k
    (fold_left (fun m coldef => Obj.set (col_name coldef) coldef m) cols acc)
  = true.
Proof.
  revert acc. induction cols as [|c0 cols IH]; intros acc H; cbn.
  - destruct H as [H|[]]. exact H.
  - apply IH. rewrite Obj_own_get, Obj_get_set.
    destruct (String.eqb_spec k (col_name c0)) as [->|Hne]; [now left|].
    destruct H as [H|[H|H]].
    + left. now rewrite <- Obj_own_get.
    + now symmetry in H.
    + now right.
Qed.

Section SettledRun.
Context {W : Type}.
Variable sel : string -> W -> option (list Row) * W.
Variable exe : string -> W -> option unit * W.
Variable now : W -> Z.
Variable t : TableDefinition.
Variable c : Catalog.
Hypothesis Hwf : WellFormed t.
Hypothesis Hrf : Reflects t c.
Hypothesis Han : Answers sel t c.

Lemma settled_table_exists : table_info c <> [].
Proof.
  destruct (columns t) as [|c0 cols] eqn:Ecols;
    [now destruct (wf_columns t Hwf)|].
  assert (Hhas : Obj.own (col_name c0) (declared_columns t) = true).
  { unfold declared_columns, index_new_coldefs. apply index_new_coldefs_has.
    right. rewrite Ecols. now left. }
  rewrite Obj_own_get in Hhas.
  destruct (Obj.get (col_name c0) (declared_columns t)) as [col|] eqn:E;
    [|discriminate].
  destruct (rf_all_columns t c Hrf _ _ E) as [r [Hr _]].
  intro Hnil. now rewrite Hnil in Hr.
Qed.

Lemma settled_seeds (sql : string) :
  In sql (seed_statements t) -> settled_call t (Executed sql).
Proof. intro H. cbn. right. now right. Qed.

Lemma settled_handleDataTransformations :
  sat (handleDataTransformations W (Some exe) t) (settled_call t)
    collaborator_failure any_value.
Proof.
  unfold handleDataTransformations.
  apply sat_bind with (Q := any_value); [|intros _ _].
  2: apply sat_bind with (Q := any_value); [|intros _ _].
  all: (apply sat_weaken with (Q := fun _ => True); [|intros; exact I]);
    (apply sat_executeSQLCommands; [|reflexivity|discriminate]);
    apply Forall_forall; intros sql Hin; apply settled_seeds;
    unfold seed_statements; rewrite !in_app_iff; tauto.
Qed.

Lemma settled_queryIndexColumns (d : IndexDefinition) :
  sat (queryIndexColumns W (Some sel) d) (settled_call t) collaborator_failure
    (fun d' => d' = fill (index_info c) d).
Proof.
  unfold queryIndexColumns.
  apply sat_bind with (Q := fun rows => rows = index_info c (idx_name d)).
  - apply (sat_call_select_known _ sel); [reflexivity| |exact I].
    apply (an_index_info sel t c Han).
  - intros rows ->. now apply sat_ret.
Qed.

Lemma settled_queryAllIndexColumns (old : Obj.t IndexDefinition) :
  sat (queryAllIndexColumns W (Some sel) old) (settled_call t)
    collaborator_failure (fun o => o = queried (index_info c) old).
Proof.
  induction old as [|[k d] rest IH]; cbn [queryAllIndexColumns].
  - now apply sat_ret.
  - apply sat_bind with (Q := fun d' => d' = fill (index_info c) d);
      [apply settled_queryIndexColumns|intros d' ->].
    apply sat_bind with (Q := fun o => o = queried (index_info c) rest);
      [exact IH|intros o ->].
    now apply sat_ret.
Qed.

(** Against a catalog that reflects the declaration, updating the table
    executes seed statements only, and fails only if a collaborator does. *)
Lemma settled_updateExistingTable :
  sat (updateExistingTable W (Some sel) (Some exe) now t (table_info c))
    (settled_call t) collaborator_failure any_value.
Proof.
  destruct (settled_index_old_coldefs t c Hrf) as (m & pk_cols & Hidx & Hpk & _).
  pose proof (settled_columns t c Hrf m pk_cols Hidx) as Hcols.
  pose proof (settled_indexes t c Hrf) as Hdiff.
  pose proof (settled_primary_key t c Hwf Hrf) as Hprimary.
  pose proof (settled_foreign_keys t c Hwf Hrf) as Hforeign.
  unfold declared_columns, declared_pk, declared_indexes in *.
  unfold updateExistingTable. rewrite Hidx. cbn [lift].
  apply sat_bind with (Q := fun x => x = (m, pk_cols));
    [now apply sat_ret|intros x ->]. cbn [fst snd].
  destruct (index_new_indexes (indexes t)) as [new_idxdefs_by_name new_pk].
  cbn [fst snd] in *. rewrite Hcols.
  apply sat_bind with (Q := fun rows => rows = index_list c).
  { apply (sat_call_select_known _ sel); [reflexivity| |exact I].
    apply (an_index_list sel t c Han). }
  intros rows ->.
  destruct (index_old_indexes (index_list c)) as [old_idxdefs_by_name old_pk].
  cbn [fst snd] in *.
  apply sat_bind
    with (Q := fun o => o = queried (index_info c) old_idxdefs_by_name);
    [apply settled_queryAllIndexColumns|intros o ->].
  apply sat_bind
    with (Q := fun p => p = option_map (fill (index_info c)) old_pk).
  { destruct old_pk as [pk|]; [|now apply sat_ret].
    apply sat_bind with (Q := fun d' => d' = fill (index_info c) pk);
      [apply settled_queryIndexColumns|intros d' ->].
    now apply sat_ret. }
  intros p ->.
  apply sat_bind with (Q := fun rows => rows = foreign_key_list c).
  { apply (sat_call_select_known _ sel); [reflexivity| |exact I].
    apply (an_foreign_key_list sel t c Han). }
  intros rows ->.
  rewrite needTableReWrite_final_eq. subst pk_cols.
  rewrite Hprimary, Hforeign. cbn [orb].
  rewrite Hdiff.
  apply sat_bind with (Q := fun l => l = []).
  - apply sat_bind with (Q := any_value); [now apply sat_ret|intros _ _].
    apply sat_bind with (Q := any_value); [now apply sat_ret|intros _ _].
    now apply sat_ret.
  - intros l ->.
    apply sat_bind with (Q := any_value); [now apply sat_ret|intros _ _].
    apply settled_handleDataTransformations.
Qed.

End SettledRun.

(** X25.  Reconciling a well-formed declaration against a catalog that
    reflects it executes no statement other than the enforcement toggles
    and the statements of the three conditional seed directives, and the
    run returns unless a collaborator call is rejected. *)
Theorem settled_run_executes_seeds_only (W : Type)
  (sel : string -> W -> option (list Row) * W)
  (exe : string -> W -> option unit * W) (now : W -> Z)
  (t : TableDefinition) (c : Catalog) (w : W) :
  WellFormed t -> Reflects t c -> Answers sel t c ->
  let out := updateSchemaForSingleTable W (Some sel) (Some exe) now (DObject t) w in
  (forall sql, In (Executed sql) (events_of out) ->
     sql = fk_off_sql \/ sql = fk_on_sql \/ In sql (seed_statements t))
  /\ (result_of out = Ok tt \/ result_of out = Throw CollaboratorFailure).
Proof.
  intros Hwf Hrf Han. cbv zeta.
  assert (Hsat : sat (updateSchemaForSingleTable W (Some sel) (Some exe) now
                        (DObject t))
                   (settled_call t) collaborator_failure any_value).
  { unfold updateSchemaForSingleTable.
    cbn [typeof_is_object is_function negb orb].
    apply sat_bind with (Q := any_value).
    { apply sat_weaken with (Q := fun _ => True); [|intros; exact I].
      apply sat_call_select; [exact I|reflexivity|discriminate]. }
    intros rows _.
    apply sat_bind with (Q := any_value).
    { destruct rows as [|r rows]; [now apply sat_ret|].
      destruct (negb (Z.eqb (r_foreign_keys r) 0)); [|now apply sat_ret].
      apply sat_bind with (Q := any_value); [|intros; now apply sat_ret].
      apply sat_weaken with (Q := fun _ => True); [|intros; exact I].
      apply sat_executeSQLCommands; [|reflexivity|discriminate].
      constructor; [|constructor]. cbn. now left. }
    intros disabledForeignKeys _.
    apply sat_bind with (Q := fun rows' => rows' = table_info c).
    { apply (sat_call_select_known _ sel); [reflexivity| |exact I].
      apply (an_table_info sel t c Han). }
    intros rows' ->.
    apply sat_bind with (Q := any_value).
    { pose proof (settled_table_exists t c Hwf Hrf) as Hex.
      destruct (table_info c) as [|r0 rest] eqn:Eti; [contradiction|].
      rewrite <- Eti. now apply settled_updateExistingTable. }
    intros _ _. destruct disabledForeignKeys; [|now apply sat_ret].
    apply sat_weaken with (Q := fun _ => True); [|intros; exact I].
    apply sat_executeSQLCommands; [|reflexivity|discriminate].
    constructor; [|constructor]. cbn. right. now left. }
  destruct (Hsat w) as [Hev Hres]. split.
  - intros sql Hin. rewrite Forall_forall in Hev. exact (Hev _ Hin).
  - destruct (result_of _) as [[]|e]; [now left|right].
    unfold collaborator_failure in Hres. now subst.
Qed.

(** ** Witnesses on the scripted database *)


Lemma item_well_formed : WellFormed Mock.item.
Proof.
  constructor.
  - intros name H E. subst name. cbn in H.
    repeat (destruct H as [H|H]; [discriminate H|]). exact H.
  - discriminate.
  - intros pk H. cbn in H. inversion H. discriminate.
  - cbn. repeat constructor. intros [].
  - intros k [<-|[]]. reflexivity.
  - intros fk [].
Qed.

Lemma item_not_rowid (k : string) (col : ColumnDefinition) :
  k <> "id" -> ~ sole_integer_primary_key (declared_pk Mock.item) k col.
Proof.
  intros Hk [pk (Hpk & Hcols & _)]. cbn in Hpk. inversion Hpk; subst pk.
  cbn in Hcols. inversion Hcols. congruence.
Qed.

Lemma item_reflected : Reflects Mock.item (Mock.catalog Mock.current_db "item").
Proof.
  constructor.
  - cbn. repeat constructor; cbn; intuition discriminate.
  - intros r [<-|[<-|[<-|[]]]]; cbn [Pragma.column_row r_name].
    + eexists. split; [reflexivity|].
      constructor; [reflexivity|reflexivity| |].
      * intro H. exfalso. apply H. eexists. repeat split.
      * intros _. reflexivity.
    + eexists. split; [reflexivity|].
      constructor; [reflexivity|reflexivity| |].
      * intros _. split; reflexivity.
      * intro H. exfalso. revert H. apply item_not_rowid. discriminate.
    + eexists. split; [reflexivity|].
      constructor; [reflexivity|reflexivity| |].
      * intros _. split; reflexivity.
      * intro H. exfalso. revert H. apply item_not_rowid. discriminate.
  - intros k col. cbn.
    destruct (String.eqb_spec k "id") as [->|_];
      [intros _; eexists; split; [left; reflexivity|reflexivity]|].
    destruct (String.eqb_spec k "label") as [->|_];
      [intros _; eexists; split; [right; left; reflexivity|reflexivity]|].
    destruct (String.eqb_spec k "qty") as [->|_];
      [intros _; eexists; split; [right; right; left; reflexivity|reflexivity]|].
    discriminate.
  - intros r [<-|[<-|[]]] _; cbn [Pragma.index_row r_name].
    + eexists. split; [reflexivity|]. split; [reflexivity|].
      right. repeat split. now right.
    + eexists. split; [reflexivity|]. split; [reflexivity|].
      right. repeat split. now right.
  - intros k d. cbn.
    destruct (String.eqb_spec k "item_label") as [->|_];
      [intros _; eexists; split; [right; left; reflexivity|split; reflexivity]|].
    destruct (String.eqb_spec k "item_qty") as [->|_];
      [intros _; eexists; split; [left; reflexivity|split; reflexivity]|].
    discriminate.
  - intros r [<-|[<-|[]]]; discriminate.
  - exists []. repeat split; constructor.
Qed.

Lemma item_answers :
  Answers (Mock.query Mock.current_db) Mock.item
    (Mock.catalog Mock.current_db "item").
Proof. constructor; intros; reflexivity. Qed.

Lemma stock_well_formed : WellFormed Mock.stock.
Proof.
  constructor.
  - intros name H E. subst name. cbn in H.
    repeat (destruct H as [H|H]; [discriminate H|]). exact H.
  - discriminate.
  - intros pk H. cbn in H. inversion H. discriminate.
  - cbn. repeat constructor; cbn; intuition discriminate.
  - intros k [<-|[<-|[]]]; reflexivity.
  - intros fk [<-|[]]. discriminate.
Qed.

Lemma stock_no_rowid (k : string) (col : ColumnDefinition) :
  ~ sole_integer_primary_key (declared_pk Mock.stock) k col.
Proof.
  intros [pk (Hpk & Hcols & _)]. cbn in Hpk. inversion Hpk; subst pk.
  discriminate Hcols.
Qed.

Lemma stock_reflected :
  Reflects Mock.stock (Mock.catalog Mock.stock_db "stock").
Proof.
  constructor.
  - cbn. repeat constructor; cbn; intuition discriminate.
  - intros r [<-|[<-|[<-|[<-|[]]]]]; cbn [Pragma.column_row r_name];
      (eexists; split; [reflexivity|]);
      (constructor;
       [reflexivity|reflexivity
       |intros _; split; [reflexivity|cbn; auto]
       |intro H; exfalso; revert H; apply stock_no_rowid]).
  - intros k col. cbn.
    destruct (String.eqb_spec k "warehouse") as [->|_];
      [intros _; eexists; split; [right; left; reflexivity|reflexivity]|].
    destruct (String.eqb_spec k "sku") as [->|_];
      [intros _; eexists; split; [left; reflexivity|reflexivity]|].
    destruct (String.eqb_spec k "qty") as [->|_];
      [intros _; eexists; split; [right; right; left; reflexivity|reflexivity]|].
    destruct (String.eqb_spec k "note") as [->|_];
      [intros _; eexists; split;
       [right; right; right; left; reflexivity|reflexivity]|].
    discriminate.
  - intros r [<-|[<-|[]]] Hcu; [|discriminate Hcu].
    cbn [Pragma.index_row r_name].
    eexists. split; [reflexivity|]. split; [reflexivity|].
    left. split; [reflexivity|]. right. split; [reflexivity|].
    exists 1%Z. split; [reflexivity|discriminate].
  - intros k d. cbn.
    destruct (String.eqb_spec k "stock_sku") as [->|_]; [|discriminate].
    intros _. eexists. split; [left; reflexivity|split; reflexivity].
  - intros r [<-|[<-|[]]] Ho; [discriminate Ho|].
    eexists. split; reflexivity.
  - exists [(0%Z, {| fk_table := "location";
                     fk_references :=
                       [ {| ref_from := "warehouse"; ref_to := "code" |};
                         {| ref_from := "sku"; ref_to := "sku" |} ];
                     fk_on_update := None;
                     fk_on_delete := Some "CASCADE" |})].
    split; [repeat constructor; intros []|]. split; reflexivity.
Qed.

Lemma stock_answers :
  Answers (Mock.query Mock.stock_db) Mock.stock
    (Mock.catalog Mock.stock_db "stock").
Proof. constructor; intros; reflexivity. Qed.

Lemma settled_run_executes_seeds_only_witness :
  (let out := updateSchemaForSingleTable Mock.World
                (Mock.select Mock.current_db) (Mock.execute Mock.accept_all)
                Mock.now (DObject Mock.item) 0%Z in
   (forall sql, In (Executed sql) (events_of out) ->
      sql = fk_off_sql \/ sql = fk_on_sql
      \/ In sql (seed_statements Mock.item))
   /\ (result_of out = Ok tt \/ result_of out = Throw CollaboratorFailure))
  /\ (let out := updateSchemaForSingleTable Mock.World
                   (Mock.select Mock.stock_db) (Mock.execute Mock.accept_all)
                   Mock.now (DObject Mock.stock) 0%Z in
      (forall sql, In (Executed sql) (events_of out) ->
         sql = fk_off_sql \/ sql = fk_on_sql
         \/ In sql (seed_statements Mock.stock))
      /\ (result_of out = Ok tt \/ result_of out = Throw CollaboratorFailure)).
Proof.
  split.
  - exact (settled_run_executes_seeds_only Mock.World
             (Mock.query Mock.current_db) (Mock.run Mock.accept_all) Mock.now
             Mock.item (Mock.catalog Mock.current_db "item") 0%Z
             item_well_formed item_reflected item_answers).
  - exact (settled_run_executes_seeds_only Mock.World
             (Mock.query Mock.stock_db) (Mock.run Mock.accept_all) Mock.now
             Mock.stock (Mock.catalog Mock.stock_db "stock") 0%Z
             stock_well_formed stock_reflected stock_answers).
Defined.

(** What the second run on [stock] hands to [execute]. *)
Example stock_second_run :
  executed
    (events_of
       (updateSchemaForSingleTable Mock.World (Mock.select Mock.stock_db)
          (Mock.execute Mock.accept_all) Mock.now (DObject Mock.stock) 0%Z))
  = [ fk_off_sql;
      "insert into stock (warehouse, sku, qty) select 'main', 'A1', '0'"
      ++ " where not exists (select 1 from stock where warehouse = 'main'"
      ++ " and sku = 'A1')";
      "delete from stock where sku = 'obsolete'";
      fk_on_sql ].
Proof. reflexivity. Qed.

(** The CREATE TABLE statement of [stock]. *)
Example stock_create_table :
  getCreateTableSQL Mock.stock None
  = "create table stock ( warehouse TEXT NOT NULL DEFAULT ''," ++ nl
    ++ " sku TEXT NOT NULL DEFAULT ''," ++ nl
    ++ " qty INTEGER NOT NULL DEFAULT '0'," ++ nl
    ++ " note TEXT NULL DEFAULT NULL," ++ nl
    ++ " primary key (warehouse, sku)," ++ nl
    ++ " foreign key (warehouse, sku) references location(code, sku)"
    ++ " on update NO ACTION on delete CASCADE" ++ nl ++ ")".
Proof. reflexivity. Qed.

(** The primary key rebuilt from the column-info rows of [keyed_rows]. *)
Example keyed_rows_fallback :
  pk_fallback None (old_pk_cols_from_table_info [("a", 1%N); ("b", 0%N)])
  = Some {| idx_name := ""; idx_origin := "pk"; idx_columns := ["b"; "a"] |}.
Proof. reflexivity. Qed.

(** * Further properties of the engine *)

(** ** Literals *)

Lemma lower_quoted_not_null (x : string) :
  String.eqb (Js.toLowerCase (squote ++ x)) "null" = false.
Proof. reflexivity. Qed.

Lemma unquote_quote_value (v : Value) :
  v <> VNull -> unquote (Some (quote v)) = Ok (Some (String_ v)).
Proof.
  destruct v as [|s|z]; intro H; [contradiction| |].
  - apply unquote_quote_string.
  - exact (unquote_quote_string z).
Qed.

(** X1.  Every value survives [quote] followed by [parseDefaultValue]:
    [null] is written NULL and read back as [null]; any other value is read
    back as its string form, whatever single quotes it contains. *)
Theorem literal_round_trip (v : Value) :
  parseDefaultValue (Some (quote v))
  = Ok (match v with
        | VNull => None
        | _ => Some (String_ v)
        end)
  /\ (v <> VNull -> unquote (Some (quote v)) = Ok (Some (String_ v))).
Proof.
  split; [|apply unquote_quote_value].
  destruct v as [|s|z].
  - reflexivity.
  - unfold parseDefaultValue.
    change (quote (VString s))
      with (squote ++ Js.replace squote squote2 s ++ squote).
    rewrite lower_quoted_not_null. apply unquote_quote_string.
  - unfold parseDefaultValue.
    change (quote (VOther z))
      with (squote ++ Js.replace squote squote2 z ++ squote).
    rewrite lower_quoted_not_null.
    exact (unquote_quote_string z).
Qed.

Lemma unquote_error (s : option string) (e : Error) :
  unquote s = Throw e -> e = MalformedLiteral.
Proof.
  destruct s as [s|]; [|discriminate]. unfold unquote.
  destruct (String.eqb s ""); [discriminate|].
  destruct (_ || _ || _); [intro H; now inversion H|].
  destruct (Nat.eqb _ 2); discriminate.
Qed.

Lemma parseDefaultValue_error (s : option string) (e : Error) :
  parseDefaultValue s = Throw e -> e = MalformedLiteral.
Proof.
  destruct s as [t|]; [|discriminate]. unfold parseDefaultValue.
  destruct (String.eqb (Js.toLowerCase t) "null"); [discriminate|].
  apply unquote_error.
Qed.

Lemma index_old_coldefs_error (rows : list Row) (r : Row)
  (m : Obj.t ColumnDefinition) (acc : list (string * N)) :
  In r rows -> (forall d, parseDefaultValue (r_dflt_value r) <> Ok d) ->
  index_old_coldefs rows m acc = Throw MalformedLiteral.
Proof.
  revert m acc. induction rows as [|r0 rows IH]; intros m acc Hin Hbad.
  - contradiction.
  - cbn [index_old_coldefs].
    destruct (parseDefaultValue (r_dflt_value r0)) as [d|e] eqn:E.
    + destruct Hin as [->|Hin]; [now destruct (Hbad d)|]. now apply IH.
    + now rewrite (parseDefaultValue_error _ _ E).
Qed.

(** X2.  A stored default that is not empty, not NULL and does not begin
    with a single quote (a bare 0, say) cannot be parsed; and when any
    column-info row carries a default that cannot be parsed,
    [updateExistingTable] throws before making a single collaborator call. *)
Theorem malformed_default_aborts_update :
  (forall text,
      text <> "" -> Js.toLowerCase text <> "null" ->
      Js.starts_with squote text = false ->
      parseDefaultValue (Some text) = Throw MalformedLiteral)
  /\ (forall (W : Type) (select : option (string -> W -> option (list Row) * W))
             (execute : option (string -> W -> option unit * W)) (now : W -> Z)
             (tbldef : TableDefinition) (old_coldefs : list Row) (r : Row) (w : W),
         In r old_coldefs ->
         (forall d, parseDefaultValue (r_dflt_value r) <> Ok d) ->
         updateExistingTable W select execute now tbldef old_coldefs w
         = (Throw MalformedLiteral, [], w)).
Proof.
  split.
  - intros text Hne Hnull Hq. unfold parseDefaultValue.
    destruct (String.eqb_spec (Js.toLowerCase text) "null") as [E|_];
      [contradiction|].
    unfold unquote.
    destruct (String.eqb_spec text "") as [E|_]; [contradiction|].
    rewrite Hq. cbn [negb]. now rewrite orb_true_r.
  - intros W select execute now tbldef old_coldefs r w Hin Hbad.
    unfold updateExistingTable.
    rewrite (index_old_coldefs_error old_coldefs r [] [] Hin Hbad).
    reflexivity.
Qed.

Lemma malformed_default_aborts_update_witness :
  updateExistingTable Mock.World (Mock.select Mock.current_db)
    (Mock.execute Mock.accept_all) Mock.now Mock.item
    [Pragma.column_row "qty" "INTEGER" 1 (Some "0") 0] 0%Z
  = (Throw MalformedLiteral, [], 0%Z).
Proof.
  apply (proj2 malformed_default_aborts_update Mock.World
           (Mock.select Mock.current_db) (Mock.execute Mock.accept_all)
           Mock.now Mock.item
           [Pragma.column_row "qty" "INTEGER" 1 (Some "0") 0]
           (Pragma.column_row "qty" "INTEGER" 1 (Some "0") 0) 0%Z).
  - left. reflexivity.
  - intros d. vm_compute. discriminate.
Defined.

(** ** Comparisons *)

(** X3.  [doIndexesMatch] answers true exactly when the two entries have
    the same origin and the same ordered column list; the index name plays
    no part, and the comparison is symmetric. *)
Theorem index_match_rule (a b : IndexDefinition) :
  (doIndexesMatch a b = true
   <-> idx_origin a = idx_origin b /\ idx_columns a = idx_columns b)
  /\ doIndexesMatch a b = doIndexesMatch b a.
Proof.
  split; [apply doIndexesMatch_spec|].
  destruct (doIndexesMatch a b) eqn:Eab, (doIndexesMatch b a) eqn:Eba;
    try reflexivity.
  - apply doIndexesMatch_spec in Eab. destruct Eab as [Ho Hc].
    assert (H : doIndexesMatch b a = true)
      by (apply doIndexesMatch_spec; split; congruence).
    congruence.
  - apply doIndexesMatch_spec in Eba. destruct Eba as [Ho Hc].
    assert (H : doIndexesMatch a b = true)
      by (apply doIndexesMatch_spec; split; congruence).
    congruence.
Qed.

(** X4.  [doForeignKeysMatch] answers true exactly when target table,
    both actions and the ordered reference pairs coincide, an absent action
    counting as NO ACTION: a key without actions matches the same key with
    both actions spelled NO ACTION. *)
Theorem foreign_key_match_rule (a b : ForeignKeyDefinition) :
  (doForeignKeysMatch a b = true
   <-> fk_table a = fk_table b
       /\ getFKAction (fk_on_update a) = getFKAction (fk_on_update b)
       /\ getFKAction (fk_on_delete a) = getFKAction (fk_on_delete b)
       /\ fk_references a = fk_references b)
  /\ doForeignKeysMatch
       {| fk_table := fk_table a; fk_references := fk_references a;
          fk_on_update := None; fk_on_delete := None |}
       {| fk_table := fk_table a; fk_references := fk_references a;
          fk_on_update := Some "NO ACTION"; fk_on_delete := Some "NO ACTION" |}
     = true.
Proof.
  split; [apply doForeignKeysMatch_spec|].
  apply doForeignKeysMatch_spec. repeat split.
Qed.

(** ** Issuing statements *)

Lemma issue_shape {W : Type} (g : string -> W -> option unit * W)
  (sqls : list string) (w : W) :
  exists n,
    events_of (issue g sqls w) = map Executed (firstn n sqls)
    /\ ((result_of (issue g sqls w) = Ok tt /\ n = length sqls)
        \/ (result_of (issue g sqls w) = Throw CollaboratorFailure
            /\ 0 < n <= length sqls
            /\ exists sql w0,
                 nth_error sqls (n - 1) = Some sql
                 /\ g sql w0 = (None, world_of (issue g sqls w)))).
Proof.
  revert w. induction sqls as [|x l IH]; intro w.
  - exists 0. split; [reflexivity|]. left. split; reflexivity.
  - cbn [issue]. destruct (g x w) as [[[]|] w1] eqn:Eg.
    + destruct (IH w1) as [n [Hev Hres]].
      unfold events_of, result_of, world_of in *.
      destruct (issue g l w1) as [[r t] w2]. cbn [fst snd] in *.
      exists (S n). cbn [firstn map length]. split; [now rewrite Hev|].
      destruct Hres as [[-> ->]|[-> [Hn (sql & w0 & Hnth & Hg)]]].
      * left. split; reflexivity.
      * right. split; [reflexivity|]. split; [lia|].
        exists sql, w0. split; [|exact Hg].
        replace (S n - 1) with (S (n - 1)) by lia. exact Hnth.
    + exists 1. unfold events_of, result_of, world_of. cbn [fst snd firstn map].
      split; [reflexivity|]. right. split; [reflexivity|].
      split; [cbn [length]; lia|]. exists x, w. split; [reflexivity|exact Eg].
Qed.

Lemma executeSQLCommands_issue {W : Type} (g : string -> W -> option unit * W)
  (cmdlist : list string) (w : W) :
  executeSQLCommands W (Some g) cmdlist w = issue g (every_other cmdlist) w.
Proof.
  revert w. induction cmdlist as [|x|x y l IH] using list_pair_ind; intro w.
  - reflexivity.
  - unfold executeSQLCommands, bind, call_execute. cbn [every_other issue].
    destruct (g x w) as [[[]|] w']; reflexivity.
  - cbn [executeSQLCommands every_other issue]. unfold bind, call_execute.
    destruct (g x w) as [[[]|] w']; [|reflexivity].
    rewrite IH. now destruct (issue g (every_other l) w') as [[r t] w''].
Qed.

(** X5.  With a callable [execute], [executeSQLCommands] does with its
    list what [issue] does with the statements at positions 0, 2, 4, ...:
    it hands them over in order, each in the world the previous one left,
    and stops at the first one that [execute] rejects.  It returns when all
    of them were accepted; otherwise it fails with the collaborator's
    failure, and the rejected statement is its last call. *)
Theorem executeSQLCommands_even_positions (W : Type)
  (g : string -> W -> option unit * W) (cmdlist : list string) (w : W) :
  let out := executeSQLCommands W (Some g) cmdlist w in
  out = issue g (every_other cmdlist) w
  /\ exists n,
       events_of out = map Executed (firstn n (every_other cmdlist))
       /\ ((result_of out = Ok tt /\ n = length (every_other cmdlist))
           \/ (result_of out = Throw CollaboratorFailure
               /\ 0 < n <= length (every_other cmdlist)
               /\ exists sql w0,
                    nth_error (every_other cmdlist) (n - 1) = Some sql
                    /\ g sql w0 = (None, world_of out))).
Proof.
  cbv zeta. rewrite executeSQLCommands_issue.
  split; [reflexivity|apply issue_shape].
Qed.

(** A list of five statements of which [execute] rejects the third:
    positions 0 and 2 are handed over, position 4 is not. *)
Example rejected_third_statement :
  executeSQLCommands Mock.World
    (Mock.execute (fun sql => String.eqb sql "c")) ["a"; "b"; "c"; "d"; "e"] 0%Z
  = (Throw CollaboratorFailure, [Executed "a"; Executed "c"], 0%Z).
Proof. reflexivity. Qed.

(** ** Generated text *)

Lemma push_fold_filter_map {X : Type} (keep : X -> bool) (text : X -> string)
  (l : list X) (acc : list string) :
  fold_left (fun sqls x => if keep x then Js.push sqls (text x) else sqls) l acc
  = (acc ++ map text (filter keep l))%list.
Proof.
  revert acc. induction l as [|x l IH]; intro acc; cbn [fold_left filter].
  - now rewrite app_nil_r.
  - rewrite IH. destruct (keep x); [|reflexivity].
    unfold Js.push. cbn [map]. now rewrite <- app_assoc.
Qed.

Lemma fold_left_ext_in {S X : Type} (f g : S -> X -> S) (l : list X) (acc : S) :
  (forall a x, f a x = g a x) -> fold_left f l acc = fold_left g l acc.
Proof.
  intro H. revert acc. induction l as [|x l IH]; intro acc; cbn.
  - reflexivity.
  - now rewrite H, IH.
Qed.

(** X6.  [getCreateIndexSQLs] yields exactly one CREATE INDEX statement
    per declared index of origin 'c' or 'u', in declaration order; entries
    of any other origin, the primary key included, yield none. *)
Theorem create_index_statements (tbldef : TableDefinition)
  (tableNameOverride : option string) :
  let tableName := match tableNameOverride with
                   | Some n => n
                   | None => tbl_name tbldef
                   end in
  getCreateIndexSQLs tbldef tableNameOverride
  = map (fun idxdef => indexDefinitionToSQL idxdef tableName)
        (filter (fun idxdef => is_c_or_u (idx_origin idxdef)) (indexes tbldef))
  /\ length (getCreateIndexSQLs tbldef tableNameOverride)
     = length (filter (fun idxdef => is_c_or_u (idx_origin idxdef))
                 (indexes tbldef)).
Proof.
  cbv zeta.
  assert (H : getCreateIndexSQLs tbldef tableNameOverride
              = map (fun idxdef =>
                       indexDefinitionToSQL idxdef
                         match tableNameOverride with
                         | Some n => n
                         | None => tbl_name tbldef
                         end)
                  (filter (fun idxdef => is_c_or_u (idx_origin idxdef))
                     (indexes tbldef))).
  { unfold getCreateIndexSQLs.
    rewrite <- (app_nil_l (map _ (filter _ (indexes tbldef)))).
    rewrite <- push_fold_filter_map. apply fold_left_ext_in.
    intros acc d. destruct (is_c_or_u (idx_origin d)) eqn:E; [|reflexivity].
    unfold indexDefinitionToSQL. rewrite E. reflexivity. }
  split; [exact H|]. now rewrite H, length_map.
Qed.

Lemma next_sep_clause (sep : string) :
  sep = "" \/ sep = clause_sep -> next_sep sep clause_sep = clause_sep.
Proof. intros [->| ->]; reflexivity. Qed.

Lemma sep_after_ok {X : Type} (sep : string) (items : list X) :
  sep = "" \/ sep = clause_sep ->
  sep_after sep items = "" \/ sep_after sep items = clause_sep.
Proof. destruct items; cbn; [tauto|now right]. Qed.

Lemma glue_app (sep : string) (a b : list string) :
  glue sep (a ++ b) = glue sep a ++ glue (sep_after sep a) b.
Proof.
  destruct a as [|x a]; [reflexivity|].
  cbn [app glue sep_after]. rewrite seplist_app, !append_assoc'.
  destruct b as [|y b]; reflexivity.
Qed.

Lemma sep_after_app (sep : string) (a b : list string) :
  sep_after sep (a ++ b) = sep_after (sep_after sep a) b.
Proof. destruct a, b; reflexivity. Qed.

Lemma glue_join (items : list string) : glue "" items = Js.join clause_sep items.
Proof. destruct items; [reflexivity|]. cbn [glue append]. now rewrite join_cons. Qed.

Lemma glue_cons (sep x : string) (rest : list string) :
  sep = "" \/ sep = clause_sep ->
  glue sep (x :: rest) = sep ++ x ++ glue clause_sep rest.
Proof. intros _. destruct rest; reflexivity. Qed.

Lemma create_column_fold (singlePKColumn : option string)
  (cols : list ColumnDefinition) (sql sep : string) (pk : option IndexDefinition) :
  sep = "" \/ sep = clause_sep ->
  fold_left (create_column_step singlePKColumn) cols (sql, sep, pk)
  = (sql ++ glue sep (map spaced (map (column_clause singlePKColumn) cols)),
     sep_after sep cols,
     if existsb (aliased singlePKColumn) cols then None else pk).
Proof.
  revert sql sep pk. induction cols as [|c cols IH]; intros sql sep pk Hsep.
  - cbn. now rewrite append_nil_r.
  - cbn [fold_left map existsb]. unfold create_column_step at 2.
    fold (aliased singlePKColumn c).
    rewrite (glue_cons _ _ _ Hsep).
    unfold column_clause at 1.
    destruct (aliased singlePKColumn c); cbn [orb];
      change ("," ++ nl) with clause_sep;
      rewrite (next_sep_clause _ Hsep), IH by (now right);
      unfold spaced; rewrite !append_assoc'; cbn [append].
    + destruct cols; cbn [sep_after existsb]; [reflexivity|].
      now destruct (aliased singlePKColumn c0 || existsb _ cols).
    + destruct cols; reflexivity.
Qed.

Lemma create_fk_fold (fks : list ForeignKeyDefinition) (sql sep : string) :
  sep = "" \/ sep = clause_sep ->
  fold_left create_fk_step fks (sql, sep)
  = (sql ++ glue sep (map spaced (map foreignKeyDefinitionToSQL fks)),
     sep_after sep fks).
Proof.
  revert sql sep. induction fks as [|fk fks IH]; intros sql sep Hsep.
  - cbn. now rewrite append_nil_r.
  - cbn [fold_left map]. unfold create_fk_step at 2.
    change ("," ++ nl) with clause_sep.
    rewrite (next_sep_clause _ Hsep), IH by (now right).
    rewrite (glue_cons _ _ _ Hsep). unfold spaced.
    rewrite !append_assoc'. now destruct fks.
Qed.

(** X7.  The CREATE TABLE statement lists, separated by a comma and a
    line break and each preceded by a blank: one clause per declared column
    in order, then the primary-key clause unless a column was rendered
    INTEGER PRIMARY KEY, then one clause per declared foreign key. *)
Theorem create_table_text (tbldef : TableDefinition)
  (tableNameOverride : option string) :
  getCreateTableSQL tbldef tableNameOverride
  = "create table "
    ++ match tableNameOverride with
       | Some n => n
       | None => tbl_name tbldef
       end
    ++ " ("
    ++ Js.join clause_sep (map spaced (create_table_clauses tbldef))
    ++ nl ++ ")".
Proof.
  unfold getCreateTableSQL, create_table_clauses.
  destruct (fold_left pk_scan_step (indexes tbldef) (None, None))
    as [pk singlePKColumn].
  rewrite create_column_fold by (now left).
  rewrite <- glue_join, !map_app, !glue_app.
  set (cols := map spaced (map (column_clause singlePKColumn) (columns tbldef))).
  assert (Hafter : sep_after "" (columns tbldef) = sep_after "" cols).
  { unfold cols. now destruct (columns tbldef). }
  rewrite Hafter.
  assert (Hsep : sep_after "" cols = "" \/ sep_after "" cols = clause_sep)
    by (apply sep_after_ok; now left).
  destruct (existsb (aliased singlePKColumn) (columns tbldef)).
  - cbn [map glue sep_after]. rewrite create_fk_fold by exact Hsep.
    rewrite !append_assoc'. reflexivity.
  - destruct pk as [pk|].
    + change ("," ++ nl) with clause_sep.
      rewrite (next_sep_clause _ Hsep).
      rewrite create_fk_fold by (now right).
      cbn [map glue sep_after seplist]. unfold spaced at 2.
      rewrite !append_assoc'. cbn [append]. reflexivity.
    + cbn [map glue sep_after]. rewrite create_fk_fold by exact Hsep.
      rewrite !append_assoc'. reflexivity.
Qed.

Lemma fk_lists_fold_linked (refs : list Reference) (froms tos : string) :
  fold_left fk_lists_step refs (froms, tos, ", ")
  = (froms ++ seplist ", " (map ref_from refs),
     tos ++ seplist ", " (map ref_to refs), ", ").
Proof.
  revert froms tos. induction refs as [|ref refs IH]; intros froms tos.
  - cbn. now rewrite !append_nil_r.
  - cbn [fold_left fk_lists_step String.eqb Ascii.eqb Bool.eqb].
    rewrite IH. cbn [map seplist]. now rewrite !append_assoc'.
Qed.

Lemma fk_lists_fold (refs : list Reference) :
  fst (fold_left fk_lists_step refs ("", "", ""))
  = (Js.join ", " (map ref_from refs), Js.join ", " (map ref_to refs)).
Proof.
  destruct refs as [|ref refs]; [reflexivity|].
  cbn [fold_left fk_lists_step String.eqb].
  rewrite fk_lists_fold_linked. cbn [fst map append]. now rewrite !join_cons.
Qed.

(** X8.  A foreign-key clause names the local columns and, after the
    target table, the target columns, each list in the order of the
    reference pairs and comma-separated; an absent action is written
    NO ACTION. *)
Theorem foreign_key_clause_text (fkdef : ForeignKeyDefinition) :
  foreignKeyDefinitionToSQL fkdef
  = "foreign key (" ++ Js.join ", " (map ref_from (fk_references fkdef))
    ++ ") references " ++ fk_table fkdef
    ++ "(" ++ Js.join ", " (map ref_to (fk_references fkdef)) ++ ")"
    ++ " on update "
    ++ match fk_on_update fkdef with Some a => a | None => "NO ACTION" end
    ++ " on delete "
    ++ match fk_on_delete fkdef with Some a => a | None => "NO ACTION" end.
Proof.
  unfold foreignKeyDefinitionToSQL.
  pose proof (fk_lists_fold (fk_references fkdef)) as H.
  destruct (fold_left fk_lists_step (fk_references fkdef) ("", "", ""))
    as [[froms tos] sep].
  cbn [fst] in H. inversion H; subst. reflexivity.
Qed.

Lemma assign_fold_linked (link : string) (m : Mapping) (sql : string) :
  String.eqb link "" = false ->
  fold_left (assign_step link) m (sql, link)
  = (sql ++ seplist link (map condition m), link).
Proof.
  intro Hlink. revert sql. induction m as [|kv m IH]; intro sql.
  - cbn. now rewrite append_nil_r.
  - cbn [fold_left assign_step]. unfold next_sep. rewrite Hlink, IH.
    cbn [map seplist]. unfold condition. now rewrite !append_assoc'.
Qed.

Lemma assign_fold (link : string) (m : Mapping) (sql : string) :
  String.eqb link "" = false ->
  fold_left (assign_step link) m (sql, "")
  = (sql ++ Js.join link (map condition m),
     match m with [] => "" | _ :: _ => link end).
Proof.
  intro Hlink. destruct m as [|kv m].
  - cbn. now rewrite append_nil_r.
  - cbn [fold_left assign_step next_sep String.eqb].
    rewrite (assign_fold_linked link m _ Hlink). cbn [map].
    rewrite join_cons. unfold condition. cbn [append].
    now rewrite !append_assoc'.
Qed.

(** X9.  An [update_if_exists] entry yields no statement exactly when its
    other values or its identifiers are empty; otherwise it yields one
    UPDATE that sets every other value, comma-separated, where every
    identifier matches, joined by AND. *)
Theorem update_if_exists_text (tableName : string) (e : IfExists) :
  (update_if_exists_sql tableName e = None
   <-> other_values e = [] \/ identifiers e = [])
  /\ (other_values e <> [] -> identifiers e <> [] ->
      update_if_exists_sql tableName e
      = Some ("update " ++ tableName ++ " set "
              ++ Js.join ", " (map condition (other_values e))
              ++ " where "
              ++ Js.join " and " (map condition (identifiers e)))).
Proof.
  unfold update_if_exists_sql.
  rewrite (assign_fold ", " (other_values e)) by reflexivity.
  destruct (other_values e) as [|ov ovs] eqn:Eov.
  - split; [split; [now left|reflexivity]|]. intro H. now contradiction H.
  - cbn [String.eqb Ascii.eqb Bool.eqb].
    rewrite (assign_fold " and " (identifiers e)) by reflexivity.
    destruct (identifiers e) as [|id ids] eqn:Eid.
    + split; [split; [now right|reflexivity]|].
      intros _ H. now contradiction H.
    + cbn [String.eqb Ascii.eqb Bool.eqb]. split.
      * split; [discriminate|]. intros [H|H]; discriminate H.
      * intros _ _. now rewrite !append_assoc'.
Qed.

Lemma update_if_exists_text_witness :
  update_if_exists_sql "setting"
    {| identifiers := [("setting_name", VString "yet_another_setting")];
       other_values := [("setting_value", VString "this is interesting.")] |}
  = Some ("update setting set setting_value = 'this is interesting.'"
          ++ " where setting_name = 'yet_another_setting'").
Proof.
  apply (proj2 (update_if_exists_text "setting"
                  {| identifiers :=
                       [("setting_name", VString "yet_another_setting")];
                     other_values :=
                       [("setting_value", VString "this is interesting.")] |}));
    discriminate.
Defined.

(** X10.  A [delete_if_exists] entry yields no statement exactly when its
    mapping is empty; otherwise it yields one DELETE whose condition is the
    conjunction of all its column matches. *)
Theorem delete_if_exists_text (tableName : string) (d : Mapping) :
  (delete_if_exists_sql tableName d = None <-> d = [])
  /\ (d <> [] ->
      delete_if_exists_sql tableName d
      = Some ("delete from " ++ tableName ++ " where "
              ++ Js.join " and " (map condition d))).
Proof.
  unfold delete_if_exists_sql.
  rewrite (assign_fold " and " d) by reflexivity.
  destruct d as [|kv d].
  - split; [split; reflexivity|]. intro H. now contradiction H.
  - cbn [String.eqb Ascii.eqb Bool.eqb]. split.
    + split; discriminate.
    + intros _. now rewrite !append_assoc'.
Qed.

Lemma delete_if_exists_text_witness :
  delete_if_exists_sql "setting" [("setting_name", VString "one_bad_setting")]
  = Some "delete from setting where setting_name = 'one_bad_setting'".
Proof.
  apply (proj2 (delete_if_exists_text "setting"
                  [("setting_name", VString "one_bad_setting")])).
  discriminate.
Defined.

Lemma insert_on_create_fold_linked (m : Mapping) (sql sqlend : string) :
  fold_left
    (fun (acc : string * string * string) (kv : string * Value) =>
       let '(sql, sqlend, sep) := acc in
       (sql ++ sep ++ fst kv, sqlend ++ sep ++ quote (snd kv), next_sep sep ", "))
    m (sql, sqlend, ", ")
  = (sql ++ seplist ", " (map fst m), sqlend ++ seplist ", " (map quoted m), ", ").
Proof.
  revert sql sqlend. induction m as [|kv m IH]; intros sql sqlend.
  - cbn. now rewrite !append_nil_r.
  - cbn [fold_left next_sep String.eqb Ascii.eqb Bool.eqb].
    rewrite IH. cbn [map seplist]. unfold quoted.
    now rewrite !append_assoc'.
Qed.

(** X11.  An [insert_on_create] entry always yields one INSERT naming its
    columns in the order of the mapping and giving their quoted values in
    the same order; there is no guard for an empty mapping, which yields an
    INSERT with empty column and value lists. *)
Theorem insert_on_create_text (tableName : string) (ioc : Mapping) :
  insert_on_create_sql tableName ioc
  = "insert into " ++ tableName ++ " (" ++ Js.join ", " (map fst ioc)
    ++ ") values (" ++ Js.join ", " (map quoted ioc) ++ ")"
  /\ insert_on_create_sql tableName [] = "insert into " ++ tableName ++ " () values ()".
Proof.
  split; [|unfold insert_on_create_sql; cbn; now rewrite !append_assoc'].
  unfold insert_on_create_sql. destruct ioc as [|kv ioc].
  - cbn. now rewrite !append_assoc'.
  - cbn [fold_left next_sep String.eqb].
    rewrite insert_on_create_fold_linked. cbn [map]. rewrite !join_cons.
    unfold quoted. cbn [append]. now rewrite !append_assoc'.
Qed.

(** ** What the differencer schedules *)



(** A live column [toString] that is no longer declared stays, and a
    declared column [constructor] that is not live is counted as common. *)
Example prototype_named_columns :
  let live := [ ("id", {| col_name := "id"; col_type := "INTEGER";
                          col_notnull := true; col_dflt_value := None |});
                ("toString", {| col_name := "toString"; col_type := "TEXT";
                                col_notnull := false;
                                col_dflt_value := None |});
                ("legacy", {| col_name := "legacy"; col_type := "TEXT";
                              col_notnull := false;
                              col_dflt_value := None |}) ] in
  let declared := [ ("id", {| col_name := "id"; col_type := "INTEGER";
                              col_notnull := true; col_dflt_value := None |});
                    ("constructor",
                     {| col_name := "constructor"; col_type := "TEXT";
                        col_notnull := false; col_dflt_value := None |});
                    ("note", {| col_name := "note"; col_type := "TEXT";
                                col_notnull := false;
                                col_dflt_value := None |}) ] in
  compare_columns live declared None (drop_column_sqls live declared)
  = (true, ["id"; "constructor"],
     ["drop column legacy"; "add column note TEXT NULL DEFAULT NULL"]).
Proof. reflexivity. Qed.



(** A live index [valueOf] that is no longer declared stays; a declared
    index [constructor] that is not live is dropped and created; a declared
    index that matches its live namesake is left alone. *)
Example prototype_named_indexes :
  let live := [ ("item_label", {| idx_name := "item_label"; idx_origin := "c";
                                  idx_columns := ["label"] |});
                ("valueOf", {| idx_name := "valueOf"; idx_origin := "c";
                               idx_columns := ["qty"] |});
                ("gone", {| idx_name := "gone"; idx_origin := "c";
                            idx_columns := ["qty"] |}) ] in
  let declared := [ ("item_label",
                     {| idx_name := "item_label"; idx_origin := "c";
                        idx_columns := ["label"] |});
                    ("constructor",
                     {| idx_name := "constructor"; idx_origin := "c";
                        idx_columns := ["qty"] |}) ] in
  index_diff "item" live declared
  = (["drop index gone"; "drop index constructor"],
     ["create  index constructor on item (qty)"]).
Proof. reflexivity. Qed.

(** ** Grouping the foreign-key rows *)

Lemma existsb_filter_other (x y : Z) (l : list Z) :
  x <> y ->
  existsb (Z.eqb x) (filter (fun id => negb (Z.eqb id y)) l)
  = existsb (Z.eqb x) l.
Proof.
  intro Hne. induction l as [|a l IH]; [reflexivity|].
  cbn [filter existsb]. destruct (Z.eqb_spec a y) as [->|Hay]; cbn [negb].
  - rewrite IH. destruct (Z.eqb_spec x y); [contradiction|reflexivity].
  - cbn [existsb]. now rewrite IH.
Qed.

Lemma first_ids_snoc (rows : list Row) (r : Row) :
  first_ids (rows ++ [r])
  = if existsb (Z.eqb (r_id r)) (first_ids rows) then first_ids rows
    else (first_ids rows ++ [r_id r])%list.
Proof.
  induction rows as [|r0 rows IH]; [reflexivity|].
  cbn [app first_ids existsb]. rewrite IH.
  destruct (Z.eqb_spec (r_id r) (r_id r0)) as [E|Hne]; cbn [orb].
  - f_equal. destruct (existsb (Z.eqb (r_id r)) (first_ids rows));
      [reflexivity|].
    rewrite filter_app. cbn [filter]. rewrite E, Z.eqb_refl. cbn [negb].
    now rewrite app_nil_r.
  - rewrite (existsb_filter_other _ _ _ Hne).
    destruct (existsb (Z.eqb (r_id r)) (first_ids rows)); [reflexivity|].
    rewrite filter_app. cbn [filter app].
    destruct (Z.eqb_spec (r_id r) (r_id r0)); [contradiction|reflexivity].
Qed.

Lemma first_ids_In (rows : list Row) (id : Z) :
  In id (first_ids rows) <-> exists r, In r rows /\ r_id r = id.
Proof.
  induction rows as [|r0 rows IH]; cbn [first_ids In].
  - split; [tauto|]. intros [r [[] _]].
  - rewrite filter_In, IH. split.
    + intros [E|[[r [Hr Hid]] _]]; [exists r0; auto|exists r; auto].
    + intros [r [[->|Hr] Hid]]; [now left|].
      destruct (Z.eqb_spec id (r_id r0)) as [->|Hne]; [now left|].
      right. split; [now exists r|reflexivity].
Qed.

Lemma first_ids_NoDup (rows : list Row) : NoDup (first_ids rows).
Proof.
  induction rows as [|r0 rows IH]; cbn [first_ids]; constructor.
  - intro H. apply filter_In in H. destruct H as [_ H].
    now rewrite Z.eqb_refl in H.
  - now apply NoDup_filter.
Qed.

Lemma existsb_keyed (id : Z) (A : Z -> ForeignKeyDefinition) (ids : list Z) :
  existsb (fun e : Z * ForeignKeyDefinition => Z.eqb id (fst e))
    (map (fun i => (i, A i)) ids)
  = existsb (Z.eqb id) ids.
Proof. induction ids as [|i ids IH]; cbn; [reflexivity|now rewrite IH]. Qed.

Lemma fk_push_reference_absent (id : Z) (ref : Reference)
  (A : Z -> ForeignKeyDefinition) (ids : list Z) :
  ~ In id ids ->
  fk_push_reference id ref (map (fun i => (i, A i)) ids)
  = map (fun i => (i, A i)) ids.
Proof.
  induction ids as [|i ids IH]; intro H; [reflexivity|].
  cbn [map fk_push_reference].
  destruct (Z.eqb_spec id i) as [->|_]; [exfalso; apply H; now left|].
  rewrite IH; [reflexivity|]. intro Hin. apply H. now right.
Qed.

Lemma fk_push_reference_keyed (id : Z) (ref : Reference)
  (A B : Z -> ForeignKeyDefinition) (ids : list Z) :
  NoDup ids ->
  (forall i, In i ids -> i <> id -> B i = A i) ->
  (In id ids ->
   B id = {| fk_table := fk_table (A id);
             fk_references := Js.push (fk_references (A id)) ref;
             fk_on_update := fk_on_update (A id);
             fk_on_delete := fk_on_delete (A id) |}) ->
  fk_push_reference id ref (map (fun i => (i, A i)) ids)
  = map (fun i => (i, B i)) ids.
Proof.
  induction 1 as [|i ids Hi Hnd IH]; intros Hother Hsame; [reflexivity|].
  cbn [map fk_push_reference].
  destruct (Z.eqb_spec id i) as [<-|Hne].
  - rewrite Hsame by (now left). f_equal.
    apply map_ext_in. intros j Hj. rewrite Hother; [reflexivity|now right|].
    intros ->. contradiction.
  - rewrite Hother by (auto; now left). f_equal.
    apply IH.
    + intros j Hj. apply Hother. now right.
    + intro Hin. apply Hsame. now right.
Qed.

Lemma rows_of_id_snoc (id : Z) (rows : list Row) (r : Row) :
  rows_of_id id (rows ++ [r])
  = (rows_of_id id rows ++ if Z.eqb (r_id r) id then [r] else [])%list.
Proof. unfold rows_of_id. rewrite filter_app. reflexivity. Qed.

Lemma rows_of_id_nonempty (id : Z) (rows : list Row) :
  In id (first_ids rows) -> rows_of_id id rows <> [].
Proof.
  intro H. apply first_ids_In in H. destruct H as [r [Hr Hid]].
  intro E. assert (Hin : In r (rows_of_id id rows)).
  { apply filter_In. split; [exact Hr|]. now apply Z.eqb_eq. }
  now rewrite E in Hin.
Qed.

Lemma rows_of_id_empty (id : Z) (rows : list Row) :
  ~ In id (first_ids rows) -> rows_of_id id rows = [].
Proof.
  intro H. unfold rows_of_id.
  destruct (filter (fun r => Z.eqb (r_id r) id) rows) as [|r l] eqn:E;
    [reflexivity|].
  exfalso. apply H. apply first_ids_In. exists r.
  assert (Hin : In r (filter (fun r => Z.eqb (r_id r) id) rows))
    by (rewrite E; now left).
  apply filter_In in Hin. destruct Hin as [Hr Hid].
  split; [exact Hr|now apply Z.eqb_eq].
Qed.

Lemma fk_group_keyed (rows : list Row) :
  fold_left fk_group_step rows []
  = map (fun id => (id, assemble_fk rows id)) (first_ids rows).
Proof.
  induction rows as [|r rows IH] using rev_ind; [reflexivity|].
  rewrite fold_left_app, IH. cbn [fold_left]. unfold fk_group_step.
  rewrite existsb_keyed, first_ids_snoc.
  destruct (existsb (Z.eqb (r_id r)) (first_ids rows)) eqn:Eex.
  - apply fk_push_reference_keyed; [apply first_ids_NoDup| |].
    + intros i Hi Hne. unfold assemble_fk. rewrite rows_of_id_snoc.
      destruct (Z.eqb_spec (r_id r) i) as [E|_]; [now symmetry in E|].
      now rewrite app_nil_r.
    + intro Hin. unfold assemble_fk. rewrite rows_of_id_snoc, Z.eqb_refl.
      pose proof (rows_of_id_nonempty _ _ Hin) as Hne.
      destruct (rows_of_id (r_id r) rows) as [|r0 mine]; [contradiction|].
      cbn [fk_table fk_references fk_on_update fk_on_delete].
      unfold Js.push. rewrite map_app. reflexivity.
  - assert (Hout : ~ In (r_id r) (first_ids rows)).
    { intro Hin. apply not_true_iff_false in Eex. apply Eex.
      apply existsb_exists. exists (r_id r). split; [exact Hin|].
      apply Z.eqb_refl. }
    unfold Js.push. rewrite map_app. cbn [map]. f_equal.
    + apply map_ext_in. intros i Hi. f_equal. unfold assemble_fk.
      rewrite rows_of_id_snoc.
      destruct (Z.eqb_spec (r_id r) i) as [E|_];
        [subst i; contradiction|].
      now rewrite app_nil_r.
    + unfold assemble_fk. rewrite rows_of_id_snoc, Z.eqb_refl.
      rewrite (rows_of_id_empty _ _ Hout). reflexivity.
Qed.

(** X14.  The foreign-key-list rows are grouped by id, also when rows of
    different ids interleave: there is one foreign key per distinct id, in
    order of first appearance; its reference pairs are the rows carrying
    that id, in row order; its target table and actions are those of the
    first such row. *)
Theorem foreign_keys_grouped_by_id (rows : list Row) :
  group_foreign_keys rows = map (assemble_fk rows) (first_ids rows)
  /\ NoDup (first_ids rows)
  /\ (forall id, In id (first_ids rows) <-> exists r, In r rows /\ r_id r = id).
Proof.
  split; [|split].
  - unfold group_foreign_keys. rewrite fk_group_keyed, map_map. reflexivity.
  - apply first_ids_NoDup.
  - apply first_ids_In.
Qed.

(** Interleaved rows of two foreign keys. *)
Example interleaved_foreign_keys :
  group_foreign_keys
    [ Pragma.fk_row 1 "a" "x" "u" "NO ACTION" "CASCADE";
      Pragma.fk_row 0 "b" "p" "q" "RESTRICT" "RESTRICT";
      Pragma.fk_row 1 "a" "y" "v" "NO ACTION" "CASCADE" ]
  = [ {| fk_table := "a";
         fk_references := [ {| ref_from := "x"; ref_to := "u" |};
                            {| ref_from := "y"; ref_to := "v" |} ];
         fk_on_update := Some "NO ACTION"; fk_on_delete := Some "CASCADE" |};
      {| fk_table := "b";
         fk_references := [ {| ref_from := "p"; ref_to := "q" |} ];
         fk_on_update := Some "RESTRICT"; fk_on_delete := Some "RESTRICT" |} ].
Proof. reflexivity. Qed.

(** ** Runs *)

Section Runs.
Context {W : Type}.
Variable now : W -> Z.

Lemma yields_ret {A : Type} (a : A) : yields (ret (W:=W) a) (Ok a) [].
Proof. intro w. split; reflexivity. Qed.

Lemma yields_bind {A B : Type} (m : M W A) (k : A -> M W B) (a : A)
  (r : Result B) (t1 t2 : list Event) :
  yields m (Ok a) t1 -> yields (k a) r t2 -> yields (bind m k) r (t1 ++ t2)%list.
Proof.
  intros Hm Hk w. specialize (Hm w). unfold bind, result_of, events_of in *.
  destruct (m w) as [[r1 u1] w1]. cbn [fst snd] in Hm. destruct Hm as [-> ->].
  specialize (Hk w1). unfold result_of, events_of in Hk.
  destruct (k a w1) as [[r2 u2] w2]. cbn [fst snd] in *.
  destruct Hk as [-> ->]. split; reflexivity.
Qed.


Lemma yields_select (f : string -> W -> option (list Row) * W)
  (sql : string) (rows : list Row) :
  (forall w, fst (f sql w) = Some rows) ->
  yields (call_select W (Some f) sql) (Ok rows) [Selected sql].
Proof.
  intros Hf w. specialize (Hf w). unfold call_select, result_of, events_of.
  destruct (f sql w) as [[rows'|] w']; cbn [fst snd] in *; [|discriminate].
  inversion Hf. split; reflexivity.
Qed.

Lemma yields_executeSQLCommands (g : string -> W -> option unit * W)
  (cmdlist : list string) :
  (forall sql w, fst (g sql w) = Some tt) ->
  yields (executeSQLCommands W (Some g) cmdlist) (Ok tt)
    (map Executed (every_other cmdlist)).
Proof. intros Hg w. now apply executeSQLCommands_accepted. Qed.

Lemma yields_handleDataTransformations (g : string -> W -> option unit * W)
  (tbldef : TableDefinition) :
  (forall sql w, fst (g sql w) = Some tt) ->
  yields (handleDataTransformations W (Some g) tbldef) (Ok tt)
    (map Executed (issued_seeds tbldef)).
Proof.
  intro Hg. unfold handleDataTransformations, issued_seeds.
  rewrite !map_app.
  apply yields_bind with (a := tt); [now apply yields_executeSQLCommands|].
  apply yields_bind with (a := tt); now apply yields_executeSQLCommands.
Qed.

Lemma yields_createMissingTable (g : string -> W -> option unit * W)
  (tbldef : TableDefinition) :
  (forall sql w, fst (g sql w) = Some tt) ->
  yields (createMissingTable W (Some g) tbldef) (Ok tt)
    (map Executed (issued_on_create tbldef)).
Proof.
  intro Hg. unfold createMissingTable, issued_on_create.
  cbn [map]. rewrite !map_app.
  change (Executed (getCreateTableSQL tbldef None)
            :: (map Executed (every_other (getCreateIndexSQLs tbldef None))
                  ++ map Executed
                       (every_other
                          (map (insert_on_create_sql (tbl_name tbldef))
                             (insert_on_create tbldef)))
                  ++ map Executed (issued_seeds tbldef)))%list
    with (map Executed (every_other [getCreateTableSQL tbldef None])
            ++ (map Executed (every_other (getCreateIndexSQLs tbldef None))
                  ++ map Executed
                       (every_other
                          (map (insert_on_create_sql (tbl_name tbldef))
                             (insert_on_create tbldef)))
                  ++ map Executed (issued_seeds tbldef)))%list.
  apply yields_bind with (a := tt); [now apply yields_executeSQLCommands|].
  apply yields_bind with (a := tt); [now apply yields_executeSQLCommands|].
  apply yields_bind with (a := tt); [now apply yields_executeSQLCommands|].
  now apply yields_handleDataTransformations.
Qed.

(** X15.  Creating a missing table with an [execute] that accepts every
    statement: the run returns, and its calls are the flag query, the
    disabling statement if enforcement was on, the column-info query, then
    CREATE TABLE, the statements at even positions of the CREATE INDEX list,
    of the [insert_on_create] list and of each seed list, and last the
    restoring statement if enforcement was on. *)
Theorem creation_run (f : string -> W -> option (list Row) * W)
  (g : string -> W -> option unit * W) (tbldef : TableDefinition)
  (flag : list Row) :
  (forall w, fst (f fk_flag_sql w) = Some flag) ->
  (forall w, fst (f (table_info_sql tbldef) w) = Some []) ->
  (forall sql w, fst (g sql w) = Some tt) ->
  forall w,
    let out := updateSchemaForSingleTable W (Some f) (Some g) now
                 (DObject tbldef) w in
    result_of out = Ok tt
    /\ events_of out
       = (Selected fk_flag_sql
            :: (if enforcement_on flag then [Executed fk_off_sql] else [])
            ++ Selected (table_info_sql tbldef)
            :: map Executed (issued_on_create tbldef)
            ++ (if enforcement_on flag then [Executed fk_on_sql] else []))%list.
Proof.
  intros Hflag Hinfo Hg. cbv zeta.
  change (yields (updateSchemaForSingleTable W (Some f) (Some g) now
                    (DObject tbldef)) (Ok tt)
            (Selected fk_flag_sql
               :: (if enforcement_on flag then [Executed fk_off_sql] else [])
               ++ Selected (table_info_sql tbldef)
               :: map Executed (issued_on_create tbldef)
               ++ (if enforcement_on flag then [Executed fk_on_sql] else []))%list).
  unfold updateSchemaForSingleTable.
  cbn [typeof_is_object is_function negb orb].
  apply (yields_bind _ _ flag _ [Selected fk_flag_sql]);
    [now apply yields_select|].
  apply (yields_bind _ _ (enforcement_on flag)).
  { destruct flag as [|r rest]; [apply yields_ret|]. cbn [enforcement_on].
    destruct (negb (Z.eqb (r_foreign_keys r) 0)); [|apply yields_ret].
    apply (yields_bind _ _ tt _ [Executed fk_off_sql] []);
      [now apply (yields_executeSQLCommands g [fk_off_sql])|apply yields_ret]. }
  apply (yields_bind _ _ [] _ [Selected (table_info_sql tbldef)]);
    [now apply yields_select|].
  apply (yields_bind _ _ tt); [now apply yields_createMissingTable|].
  destruct (enforcement_on flag); [|apply yields_ret].
  now apply (yields_executeSQLCommands g [fk_on_sql]).
Qed.

End Runs.

Lemma creation_run_witness :
  let out := updateSchemaForSingleTable Mock.World
               (Mock.select Mock.empty_db) (Mock.execute Mock.accept_all)
               Mock.now (DObject Mock.item) 0%Z in
  result_of out = Ok tt
  /\ events_of out
     = (Selected fk_flag_sql
          :: (if enforcement_on [Pragma.flag_row 1]
              then [Executed fk_off_sql] else [])
          ++ Selected (table_info_sql Mock.item)
          :: map Executed (issued_on_create Mock.item)
          ++ (if enforcement_on [Pragma.flag_row 1]
              then [Executed fk_on_sql] else []))%list.
Proof.
  apply (creation_run Mock.now (Mock.query Mock.empty_db)
           (Mock.run Mock.accept_all) Mock.item [Pragma.flag_row 1]).
  - intro w. reflexivity.
  - intro w. reflexivity.
  - intros sql w. reflexivity.
Defined.

(** ** Queries come before changes *)

Lemma index_old_coldefs_only_malformed (rows : list Row)
  (m : Obj.t ColumnDefinition) (acc : list (string * N)) (e : Error) :
  index_old_coldefs rows m acc = Throw e -> e = MalformedLiteral.
Proof.
  revert m acc. induction rows as [|r rows IH]; intros m acc; [discriminate|].
  cbn [index_old_coldefs].
  destruct (parseDefaultValue (r_dflt_value r)) as [d|e'] eqn:E.
  - apply IH.
  - intro H. inversion H; subst. now apply parseDefaultValue_error in E.
Qed.

Ltac side :=
  first [ exact I | assumption | discriminate | now left | now right
        | intros; exact I ].

Ltac walk :=
  repeat match goal with
  | |- sat (bind _ _) _ _ _ =>
      apply sat_bind with (Q := any_value); [|intros ? _]
  | |- sat (ret _) _ _ _ => apply sat_ret; exact I
  | |- sat (call_select _ _ _) _ _ _ =>
      apply sat_weaken with (Q := fun _ => True);
      [apply sat_call_select; side|intros; exact I]
  | |- sat (call_execute _ _ _) _ _ _ =>
      apply sat_weaken with (Q := fun _ => True);
      [apply sat_call_execute; side|intros; exact I]
  | |- sat (getTime _ _) _ _ _ =>
      apply sat_weaken with (Q := fun _ => True);
      [apply sat_getTime|intros; exact I]
  | |- sat (executeSQLCommands _ _ _) _ _ _ =>
      apply sat_weaken with (Q := fun _ => True);
      [apply sat_executeSQLCommands;
       [apply Forall_forall; intros; side|side|side]
      |intros; exact I]
  | |- sat (handleDataTransformations _ _ _) _ _ _ =>
      unfold handleDataTransformations
  | |- sat (createMissingTable _ _ _) _ _ _ => unfold createMissingTable
  | |- sat (queryIndexColumns _ _ _) _ _ _ => unfold queryIndexColumns
  | |- sat (if ?b then _ else _) _ _ _ => destruct b
  | |- sat (match ?x with _ => _ end) _ _ _ => destruct x
  end.

Section Phases.
Context {W : Type}.
Variable select : option (string -> W -> option (list Row) * W).
Variable execute : option (string -> W -> option unit * W).
Variable now : W -> Z.

Lemma phased_queries_then (q t : list Event) :
  Forall is_query q -> phased t -> phased (q ++ t).
Proof.
  intros Hq (qs & cs & -> & Hqs & Hcs). exists (q ++ qs)%list, cs.
  split; [apply app_assoc|]. split; [now apply Forall_app|exact Hcs].
Qed.

Lemma phased_bind {A B : Type} (m : M W A) (k : A -> M W B) (Q : A -> Prop) :
  sat m is_query any_error Q ->
  (forall a, Q a -> forall w, phased (events_of (k a w))) ->
  forall w, phased (events_of (bind m k w)).
Proof.
  intros Hm Hk w. destruct (Hm w) as [Ht Hr].
  unfold bind, events_of, result_of in *.
  destruct (m w) as [[[a|e] t1] w1]; cbn [fst snd] in *.
  - specialize (Hk a Hr w1). unfold events_of in Hk.
    destruct (k a w1) as [[r2 t2] w2]. cbn [fst snd] in *.
    now apply phased_queries_then.
  - exists t1, []. rewrite app_nil_r. repeat split; [exact Ht|constructor].
Qed.

Lemma phased_statements {A : Type} (m : M W A) :
  sat m is_statement any_error any_value ->
  forall w, phased (events_of (m w)).
Proof.
  intros Hm w. destruct (Hm w) as [Ht _]. exists [], (events_of (m w)).
  repeat split; [constructor|exact Ht].
Qed.

Lemma queries_queryAllIndexColumns (old_idxdefs_by_name : Obj.t IndexDefinition) :
  sat (queryAllIndexColumns W select old_idxdefs_by_name) is_query any_error
    any_value.
Proof.
  induction old_idxdefs_by_name as [|[k d] rest IH];
    cbn [queryAllIndexColumns]; [walk|].
  apply sat_bind with (Q := any_value); [walk|intros ? _].
  apply sat_bind with (Q := any_value); [exact IH|intros ? _]. walk.
Qed.

(** X16.  [updateExistingTable] puts all its queries before its first
    statement: once a statement has been handed to [execute], the catalog
    is not queried again; and [createMissingTable] makes no query at all. *)
Theorem update_queries_before_changes (tbldef : TableDefinition)
  (old_coldefs : list Row) (w : W) :
  phased (events_of (updateExistingTable W select execute now tbldef
                       old_coldefs w))
  /\ Forall is_statement (events_of (createMissingTable W execute tbldef w)).
Proof.
  split.
  - revert w. unfold updateExistingTable.
    apply phased_bind with (Q := any_value).
    { apply sat_lift. now destruct (index_old_coldefs _ _ _). }
    intros indexed _.
    destruct (index_new_indexes (indexes tbldef)) as [new_idxdefs_by_name new_pk].
    destruct (compare_columns _ _ _ _) as [[needTableReWrite common] drop_add].
    apply phased_bind with (Q := any_value); [walk|intros rows _].
    destruct (index_old_indexes _) as [old_idxdefs_by_name old_pk].
    apply phased_bind with (Q := any_value);
      [apply queries_queryAllIndexColumns|intros queried _].
    apply phased_bind with (Q := any_value); [walk|intros old_pk' _].
    apply phased_bind with (Q := any_value); [walk|intros fk_rows' _].
    apply phased_statements. walk.
  - assert (H : sat (createMissingTable W execute tbldef) is_statement
                  any_error any_value) by walk.
    apply H.
Qed.

End Phases.

(** ** Enforcement is toggled only when it was on *)

Section Toggle.
Context {W : Type}.
Variable now : W -> Z.

Lemma bind_select_known {B : Type} (f : string -> W -> option (list Row) * W)
  (sql : string) (rows : list Row) (k : list Row -> M W B) (w : W) :
  fst (f sql w) = Some rows ->
  bind (call_select W (Some f) sql) k w
  = let '(r, t, w2) := k rows (snd (f sql w)) in (r, Selected sql :: t, w2).
Proof.
  intro Hf. unfold bind, call_select.
  destruct (f sql w) as [[rows'|] w']; cbn [fst snd] in *; [|discriminate].
  inversion Hf; subst. reflexivity.
Qed.

Lemma bind_events_prefix {A B : Type} (m : M W A) (k : A -> M W B) (w : W) :
  exists t2, events_of (bind m k w) = (events_of (m w) ++ t2)%list.
Proof.
  unfold bind, events_of. destruct (m w) as [[[a|e] t1] w1]; cbn [fst snd].
  - destruct (k a w1) as [[r2 t2] w2]. now exists t2.
  - exists []. now rewrite app_nil_r.
Qed.

Lemma events_of_consed {A : Type} (o : Result A * list Event * W) (ev : Event) :
  events_of (let '(r, t, w2) := o in (r, ev :: t, w2)) = ev :: events_of o.
Proof. destruct o as [[r t] w2]. reflexivity. Qed.

Lemma single_statement_issued (g : string -> W -> option unit * W)
  (sql : string) (w : W) :
  events_of (executeSQLCommands W (Some g) [sql] w) = [Executed sql].
Proof.
  unfold executeSQLCommands, bind, call_execute, events_of.
  destruct (g sql w) as [[[]|] w']; reflexivity.
Qed.

Lemma quiet_body (f : string -> W -> option (list Row) * W)
  (g : string -> W -> option unit * W) (tbldef : TableDefinition) :
  sat (bind (call_select W (Some f) (table_info_sql tbldef))
         (fun rows =>
            bind match rows with
                 | [] => createMissingTable W (Some g) tbldef
                 | _ :: _ =>
                     updateExistingTable W (Some f) (Some g) now tbldef rows
                 end
              (fun _ => ret tt)))
    no_pragma_executed any_error any_value.
Proof.
  apply sat_bind with (Q := any_value); [walk|intros rows _].
  apply sat_bind with (Q := any_value); [|intros; walk].
  destruct rows; [apply quiet_createMissingTable|apply quiet_updateExistingTable].
Qed.

(** X17.  Enforcement is toggled only when the flag query reports it on:
    then the disabling statement is the second call of the run; when the
    query reports it off, or answers no row, the run executes no pragma at
    all, whatever else it does. *)
Theorem enforcement_toggled_only_when_on
  (f : string -> W -> option (list Row) * W)
  (g : string -> W -> option unit * W) (tbldef : TableDefinition)
  (flag : list Row) (w : W) :
  fst (f fk_flag_sql w) = Some flag ->
  let out := updateSchemaForSingleTable W (Some f) (Some g) now
               (DObject tbldef) w in
  if enforcement_on flag
  then exists rest,
         events_of out = Selected fk_flag_sql :: Executed fk_off_sql :: rest
  else Forall no_pragma_executed (events_of out).
Proof.
  intro Hflag. cbv zeta. unfold updateSchemaForSingleTable.
  cbn [typeof_is_object is_function negb orb].
  rewrite (bind_select_known f fk_flag_sql flag _ w Hflag).
  set (w1 := snd (f fk_flag_sql w)).
  destruct (enforcement_on flag) eqn:Hon.
  - destruct flag as [|r rest0]; [discriminate Hon|]. cbn [enforcement_on] in Hon.
    rewrite Hon. rewrite events_of_consed.
    match goal with
    | |- context [events_of (bind (bind ?m ?k1) ?k2 w1)] =>
        destruct (bind_events_prefix (bind m k1) k2 w1) as [t2 H2];
        destruct (bind_events_prefix m k1 w1) as [t4 H4]
    end.
    rewrite H2, H4, single_statement_issued.
    eexists. reflexivity.
  - assert (Hd : match flag with
                 | [] => ret false
                 | r :: _ =>
                     if negb (Z.eqb (r_foreign_keys r) 0)
                     then bind (executeSQLCommands W (Some g) [fk_off_sql])
                            (fun _ => ret true)
                     else ret false
                 end = ret (W:=W) false).
    { destruct flag as [|r rest0]; [reflexivity|]. cbn [enforcement_on] in Hon.
      now rewrite Hon. }
    rewrite Hd.
    destruct (quiet_body f g tbldef w1) as [Hq _].
    unfold bind at 1. unfold ret at 1.
    change ("pragma table_info(" ++ quote (VString (tbl_name tbldef)) ++ ")")
      with (table_info_sql tbldef).
    destruct (bind (call_select W (Some f) (table_info_sql tbldef)) _ w1)
      as [[r3 t3] w3].
    unfold events_of in *. cbn [fst snd app] in *.
    constructor; [exact I|exact Hq].
Qed.

End Toggle.

Lemma enforcement_toggled_only_when_on_witness :
  exists rest,
    events_of (updateSchemaForSingleTable Mock.World
                 (Mock.select Mock.current_db) (Mock.execute Mock.accept_all)
                 Mock.now (DObject Mock.item) 0%Z)
    = Selected fk_flag_sql :: Executed fk_off_sql :: rest.
Proof.
  apply (enforcement_toggled_only_when_on Mock.now
           (Mock.query Mock.current_db) (Mock.run Mock.accept_all)
           Mock.item [Pragma.flag_row 1] 0%Z).
  reflexivity.
Defined.

(** ** Several tables *)

Section AllTables.
Context {W : Type}.
Variable select : option (string -> W -> option (list Row) * W).
Variable execute : option (string -> W -> option unit * W).
Variable now : W -> Z.

Lemma bind_assoc {A B C : Type} (m : M W A) (k : A -> M W B)
  (h : B -> M W C) (w : W) :
  bind (bind m k) h w = bind m (fun a => bind (k a) h) w.
Proof.
  unfold bind. destruct (m w) as [[[a|e] t1] w1]; [|reflexivity].
  destruct (k a w1) as [[[b|e] t2] w2]; [|reflexivity].
  destruct (h b w2) as [[r t3] w3]. now rewrite app_assoc.
Qed.

Lemma bind_ext {A B : Type} (m : M W A) (k k' : A -> M W B) (w : W) :
  (forall a w, k a w = k' a w) -> bind m k w = bind m k' w.
Proof.
  intro H. unfold bind. destruct (m w) as [[[a|e] t1] w1]; [|reflexivity].
  now rewrite H.
Qed.

Lemma forEachTable_app (pre rest : list Declaration) (w : W) :
  forEachTable W select execute now (pre ++ rest) w
  = bind (forEachTable W select execute now pre)
      (fun _ => forEachTable W select execute now rest) w.
Proof.
  revert w. induction pre as [|d pre IH]; intro w.
  - cbn [app forEachTable]. unfold bind, ret.
    now destruct (forEachTable W select execute now rest w) as [[r t] w'].
  - cbn [app forEachTable]. rewrite bind_assoc. apply bind_ext.
    intros _ w'. apply IH.
Qed.

(** X18.  The tables of the array are processed in order, each in the
    world the previous one left; the first table that fails ends the run
    with its error, and the tables after it are not touched. *)
Theorem tables_in_order_until_failure (pre rest : list Declaration) (w : W) :
  let run := fun l => updateSchemasForAllTables W select execute now (Some l) in
  (forall e, result_of (run pre w) = Throw e -> run (app pre rest) w = run pre w)
  /\ (result_of (run pre w) = Ok tt ->
      result_of (run (app pre rest) w)
      = result_of (run rest (world_of (run pre w)))
      /\ events_of (run (app pre rest) w)
         = (events_of (run pre w)
              ++ events_of (run rest (world_of (run pre w))))%list
      /\ world_of (run (app pre rest) w)
         = world_of (run rest (world_of (run pre w)))).
Proof.
  cbv zeta. unfold updateSchemasForAllTables.
  destruct (negb (is_function select) || negb (is_function execute)).
  - split; [reflexivity|discriminate].
  - rewrite forEachTable_app. unfold bind, result_of, events_of, world_of.
    destruct (forEachTable W select execute now pre w) as [[[[]|e] t1] w1];
      cbn [fst snd].
    + split; [discriminate|]. intros _.
      destruct (forEachTable W select execute now rest w1) as [[r t2] w2].
      repeat split.
    + split; [reflexivity|discriminate].
Qed.

End AllTables.

(** ** Errors *)

Section Errors.
Context {W : Type}.
Variable now : W -> Z.

Lemma benign_updateExistingTable (f : string -> W -> option (list Row) * W)
  (g : string -> W -> option unit * W) (tbldef : TableDefinition)
  (old_coldefs : list Row) :
  sat (updateExistingTable W (Some f) (Some g) now tbldef old_coldefs)
    any_call benign any_value.
Proof.
  unfold updateExistingTable.
  apply sat_bind with (Q := any_value).
  { apply sat_lift. destruct (index_old_coldefs _ _ _) as [x|e] eqn:E;
      [exact I|]. right. now apply index_old_coldefs_only_malformed in E. }
  intros indexed _.
  destruct (index_new_indexes (indexes tbldef)) as [new_idxdefs_by_name new_pk].
  destruct (compare_columns _ _ _ _) as [[needTableReWrite common] drop_add].
  apply sat_bind with (Q := any_value); [walk|intros rows _].
  destruct (index_old_indexes _) as [old_idxdefs_by_name old_pk].
  apply sat_bind with (Q := any_value).
  { clear. induction old_idxdefs_by_name as [|[k d] l IH];
      cbn [queryAllIndexColumns]; [walk|].
    apply sat_bind with (Q := any_value); [walk|intros ? _].
    apply sat_bind with (Q := any_value); [exact IH|intros ? _]. walk. }
  intros queried _. walk.
Qed.

Lemma benign_single_table (f : string -> W -> option (list Row) * W)
  (g : string -> W -> option unit * W) (tbldef : TableDefinition) :
  sat (updateSchemaForSingleTable W (Some f) (Some g) now (DObject tbldef))
    any_call benign any_value.
Proof.
  unfold updateSchemaForSingleTable.
  cbn [typeof_is_object is_function negb orb].
  apply sat_bind with (Q := any_value); [walk|intros flag _].
  apply sat_bind with (Q := any_value); [walk|intros d _].
  apply sat_bind with (Q := any_value); [walk|intros rows _].
  apply sat_bind with (Q := any_value); [|intros; walk].
  destruct rows; [walk|apply benign_updateExistingTable].
Qed.



(** X20.  The argument checks of [updateSchemaForSingleTable]: the call
    ends with the invalid-definition error exactly when the declaration is
    not of type object, and with the invalid-collaborator error exactly
    when it is and a collaborator is not a function; in both cases no
    collaborator call was made and the world is as it was. *)
Theorem argument_checks (select : option (string -> W -> option (list Row) * W))
  (execute : option (string -> W -> option unit * W)) (tbldef : Declaration)
  (w : W) :
  let out := updateSchemaForSingleTable W select execute now tbldef w in
  (result_of out = Throw InvalidDefinition <-> typeof_is_object tbldef = false)
  /\ (result_of out = Throw InvalidCollaborator
      <-> typeof_is_object tbldef = true
          /\ (is_function select = false \/ is_function execute = false))
  /\ (result_of out = Throw InvalidDefinition
      \/ result_of out = Throw InvalidCollaborator ->
      events_of out = [] /\ world_of out = w).
Proof.
  cbv zeta.
  destruct (typeof_is_object tbldef) eqn:Hobj.
  - destruct select as [f|].
    + destruct execute as [g|].
      * assert (Hno : result_of (updateSchemaForSingleTable W (Some f) (Some g)
                                   now tbldef w) <> Throw InvalidDefinition
                      /\ result_of (updateSchemaForSingleTable W (Some f)
                                      (Some g) now tbldef w)
                         <> Throw InvalidCollaborator).
        { destruct tbldef as [| |b|z|s| |t]; try discriminate Hobj.
          - split; discriminate.
          - destruct (benign_single_table f g t w) as [_ H].
            destruct (result_of _) as [u|e]; [split; discriminate|].
            destruct H as [->| ->]; split; discriminate. }
        destruct Hno as [H1 H2].
        split; [split; [intro H; now destruct (H1 H)|discriminate]|].
        split.
        -- split; [intro H; now destruct (H2 H)|].
           intros [_ [H|H]]; discriminate H.
        -- intros [H|H]; [now destruct (H1 H)|now destruct (H2 H)].
      * rewrite (non_callable_collaborator_rejected (Some f) None now tbldef w
                   Hobj (or_intror eq_refl)).
        unfold result_of, events_of, world_of. cbn [fst snd is_function].
        repeat split; try discriminate; auto.
    + rewrite (non_callable_collaborator_rejected None execute now tbldef w
                 Hobj (or_introl eq_refl)).
      unfold result_of, events_of, world_of. cbn [fst snd is_function].
      repeat split; try discriminate; auto.
  - rewrite (non_object_declaration_rejected select execute now tbldef w Hobj).
    unfold result_of, events_of, world_of. cbn [fst snd].
    repeat split; try discriminate; auto.
    intros [H _]. discriminate H.
Qed.

End Errors.


(** ** What a rewrite issues *)

Lemma head_getCreateTableSQL (tbldef : TableDefinition)
  (tableNameOverride : option string) :
  head (getCreateTableSQL tbldef tableNameOverride) = Some "c"%char.
Proof.
  unfold getCreateTableSQL.
  destruct (fold_left pk_scan_step (indexes tbldef) (None, None))
    as [pk singlePKColumn].
  set (tableName := match tableNameOverride with
                    | Some n => n
                    | None => tbl_name tbldef
                    end).
  assert (Hcols : forall l acc,
             head (fst (fst acc)) = Some "c"%char ->
             head (fst (fst (fold_left (create_column_step singlePKColumn)
                               l acc))) = Some "c"%char).
  { apply (fold_head (fun st : string * string * option IndexDefinition =>
                        fst (fst st))).
    intros [[s0 p0] k0] x H. unfold create_column_step.
    destruct (match singlePKColumn with
              | Some c0 => _
              | None => false
              end); cbn [fst] in *; now apply head_app. }
  specialize (Hcols (columns tbldef)
                ("create table " ++ tableName ++ " (", "", pk) eq_refl).
  destruct (fold_left (create_column_step singlePKColumn) (columns tbldef)
              ("create table " ++ tableName ++ " (", "", pk))
    as [[sql sep] pk'].
  cbn [fst] in Hcols.
  assert (Hfk : forall start,
             head (fst start) = Some "c"%char ->
             head (fst (fold_left create_fk_step (foreign_keys tbldef) start))
             = Some "c"%char).
  { apply (fold_head (fun st : string * string => fst st)).
    intros [s0 p0] x H. cbn [create_fk_step fst]. now apply head_app. }
  destruct pk' as [pk'|].
  - specialize (Hfk (sql ++ sep ++ " primary key ("
                     ++ Js.join ", " (idx_columns pk') ++ ")",
                     next_sep sep ("," ++ nl)) (head_app _ _ _ Hcols)).
    destruct (fold_left create_fk_step (foreign_keys tbldef) _) as [sql' sep'].
    cbn [fst] in Hfk. apply head_app, Hfk.
  - specialize (Hfk (sql, sep) Hcols).
    destruct (fold_left create_fk_step (foreign_keys tbldef) _) as [sql' sep'].
    cbn [fst] in Hfk. apply head_app, Hfk.
Qed.

Lemma head_getCreateIndexSQLs (tbldef : TableDefinition)
  (tableNameOverride : option string) :
  Forall (fun sql => head sql = Some "c"%char)
    (getCreateIndexSQLs tbldef tableNameOverride).
Proof.
  unfold getCreateIndexSQLs. apply fold_push_Forall; [|constructor].
  intros acc d Hacc.
  destruct (is_c_or_u (idx_origin d)) eqn:E; [|exact Hacc].
  destruct (negb _); [|exact Hacc].
  apply Forall_push; [exact Hacc|].
  unfold indexDefinitionToSQL. rewrite E. reflexivity.
Qed.

Lemma Forall_every_other {A : Type} (P : A -> Prop) (l : list A) :
  Forall P l -> Forall P (every_other l).
Proof.
  induction l as [|x|x y l IH] using list_pair_ind; intro H.
  - constructor.
  - exact H.
  - inversion H as [|? ? Hx Hyl]; subst. inversion Hyl; subst.
    cbn [every_other]. constructor; [exact Hx|now apply IH].
Qed.

Lemma Forall_prefix {A : Type} (P : A -> Prop) (n : nat) (l : list A) :
  Forall P l -> Forall P (firstn n l).
Proof.
  revert l. induction n as [|n IH]; intros [|x l] H; cbn; try constructor.
  - now inversion H.
  - apply IH. now inversion H.
Qed.

(** X21.  The statements of a rewrite contain, at positions 1 and 3, the
    INSERT that copies the rows and the RENAME; handed to
    [executeSQLCommands], neither of them ever reaches [execute], whatever
    the table and whatever the collaborator answers: every statement issued
    is a CREATE or the DROP of the live table. *)
Theorem rewrite_never_copies_rows (W : Type)
  (execute : option (string -> W -> option unit * W))
  (tbldef : TableDefinition) (tmptn : string)
  (old_new_common_colnames : list string) (w : W) :
  let sqls := rewrite_sqls tbldef tmptn old_new_common_colnames in
  let out := executeSQLCommands W execute sqls w in
  nth_error sqls 1 = Some (copy_sql tbldef tmptn old_new_common_colnames)
  /\ nth_error sqls 3 = Some (rename_sql tbldef tmptn)
  /\ ~ In (Executed (copy_sql tbldef tmptn old_new_common_colnames))
         (events_of out)
  /\ ~ In (Executed (rename_sql tbldef tmptn)) (events_of out)
  /\ Forall (fun ev => exists sql,
                 ev = Executed sql
                 /\ (head sql = Some "c"%char
                     \/ sql = "drop table " ++ tbl_name tbldef))
       (events_of out).
Proof.
  cbv zeta. split; [reflexivity|]. split; [reflexivity|].
  assert (Hall : Forall (fun ev => exists sql,
                            ev = Executed sql
                            /\ (head sql = Some "c"%char
                                \/ sql = "drop table " ++ tbl_name tbldef))
                   (events_of (executeSQLCommands W execute
                                 (rewrite_sqls tbldef tmptn
                                    old_new_common_colnames) w))).
  { destruct (executeSQLCommands_issues execute
                (rewrite_sqls tbldef tmptn old_new_common_colnames) w)
      as [n ->].
    apply Forall_map, Forall_prefix.
    change (every_other (rewrite_sqls tbldef tmptn old_new_common_colnames))
      with (getCreateTableSQL tbldef (Some tmptn)
              :: ("drop table " ++ tbl_name tbldef)
              :: every_other (getCreateIndexSQLs tbldef (Some tmptn))).
    constructor.
    { eexists. split; [reflexivity|]. left. apply head_getCreateTableSQL. }
    constructor.
    { eexists. split; [reflexivity|]. now right. }
    apply Forall_every_other.
    eapply Forall_impl; [|apply head_getCreateIndexSQLs].
    intros sql H. exists sql. split; [reflexivity|now left]. }
  split; [|split; [|exact Hall]].
  - intro Hin. eapply Forall_forall in Hall; [|exact Hin].
    destruct Hall as [sql [E H]]. inversion E as [E']. rewrite <- E' in H.
    destruct H as [H|H]; discriminate H.
  - intro Hin. eapply Forall_forall in Hall; [|exact Hin].
    destruct Hall as [sql [E H]]. inversion E as [E']. rewrite <- E' in H.
    destruct H as [H|H]; discriminate H.
Qed.

(** ** Entries by name *)

Lemma find_rev_snoc {X : Type} (p : X -> bool) (l : list X) (x : X) :
  last_where p (l ++ [x]) = if p x then Some x else last_where p l.
Proof. unfold last_where. rewrite rev_app_distr. reflexivity. Qed.

(** X22.  Entries are kept by name and the last one of a name wins: the
    declared column of a name is the last declared column of that name; the
    declared (or live) index of a name is the last one of that name with
    origin c or u, a live one being read as unique when it is reported with
    origin c and a nonzero unique flag; the declared (or live) primary key
    is the last entry with origin pk; entries of any other origin are
    ignored. *)
Theorem entries_by_name_last_wins (k : string) :
  (forall columns,
      Obj.get k (index_new_coldefs columns)
      = last_where (fun coldef => String.eqb k (col_name coldef)) columns)
  /\ (forall indexes,
         Obj.get k (fst (index_new_indexes indexes))
         = last_where (fun idxdef => is_c_or_u (idx_origin idxdef)
                                     && String.eqb k (idx_name idxdef)) indexes
         /\ snd (index_new_indexes indexes)
            = last_where (fun idxdef => negb (is_c_or_u (idx_origin idxdef))
                                        && String.eqb (idx_origin idxdef) "pk")
                indexes)
  /\ (forall rows,
         Obj.get k (fst (index_old_indexes rows))
         = option_map listed_index
             (last_where (fun r => is_c_or_u (r_origin r)
                                   && String.eqb k (r_name r)) rows)
         /\ snd (index_old_indexes rows)
            = option_map listed_pk
                (last_where (fun r => negb (is_c_or_u (r_origin r))
                                      && String.eqb (r_origin r) "pk") rows)).
Proof.
  split; [|split].
  - intro columns. unfold index_new_coldefs.
    induction columns as [|c l IH] using rev_ind; [reflexivity|].
    rewrite fold_left_app, find_rev_snoc. cbn [fold_left].
    rewrite Obj_get_set, IH. reflexivity.
  - intro indexes. unfold index_new_indexes.
    induction indexes as [|d l [IH1 IH2]] using rev_ind;
      [split; reflexivity|].
    rewrite fold_left_app, !find_rev_snoc. cbn [fold_left].
    destruct (fold_left index_new_step l ([], None)) as [m p].
    cbn [fst snd] in *. unfold index_new_step.
    destruct (is_c_or_u (idx_origin d)); cbn [fst snd andb negb].
    + rewrite Obj_get_set, IH1. split; [reflexivity|exact IH2].
    + destruct (String.eqb (idx_origin d) "pk"); cbn [fst snd];
        split; assumption || reflexivity.
  - intro rows. unfold index_old_indexes.
    induction rows as [|r l [IH1 IH2]] using rev_ind; [split; reflexivity|].
    rewrite fold_left_app, !find_rev_snoc. cbn [fold_left].
    destruct (fold_left index_old_step l ([], None)) as [m p].
    cbn [fst snd] in *. unfold index_old_step.
    destruct (is_c_or_u (r_origin r)); cbn [fst snd andb negb].
    + rewrite Obj_get_set, IH1. split; [|exact IH2].
      now destruct (String.eqb k (r_name r)).
    + destruct (String.eqb (r_origin r) "pk"); cbn [fst snd option_map];
        split; assumption || reflexivity.
Qed.

(** ** The queries of an update *)

Section Introspection.
Context {W : Type}.
Variable f : string -> W -> option (list Row) * W.
Variable execute : option (string -> W -> option unit * W).
Variable now : W -> Z.
Variable info : string -> list Row.
Hypothesis Hinfo : forall sql w, fst (f sql w) = Some (info sql).








End Introspection.


(** The queries of an update of [stock]. *)
Example stock_introspection :
  introspection Mock.stock
    (Mock.answer Mock.stock_db (index_list_sql Mock.stock))
  = [ "pragma index_list('stock')";
      "pragma index_info('stock_sku')";
      "pragma index_info('sqlite_autoindex_stock_1')";
      "pragma foreign_key_list('stock')" ].
Proof. reflexivity. Qed.
